(** * srepl: the annotation synchronisation engine

    A shallow embedding of [src/log.ts] (the log protocol) and
    [src/rewrite.ts] (the rewrite engine) of srepl, together with the
    JavaScript string primitives these two files call.

    JavaScript strings are sequences of 16-bit code units; they are
    modelled as [list Z], one [Z] per code unit.  JavaScript numbers that
    hold line and column numbers are modelled as [Z]; [undefined] and
    [NaN] as [None]; [Infinity] by a constructor of its own. *)

From Stdlib Require Import String Ascii DecimalPos DecimalZ.
From stdpp Require Import gmap.
From stdpp Require Import base list numbers.

Local Open Scope Z_scope.

(** ** JavaScript string primitives *)

Module JsString.

(** A string literal of the source, as code units. *)
Definition js (s : string) : list Z :=
  map (fun a => Z.of_N (N_of_ascii a)) (list_ascii_of_string s).

Definition nl : list Z := [10].
Definition dquote : Z := 34.

(** [s.startsWith(pat)] *)
Fixpoint startsWith (s pat : list Z) {struct pat} : bool :=
  match pat, s with
  | [], _ => true
  | _ :: _, [] => false
  | p :: pat', c :: s' => (p =? c) && startsWith s' pat'
  end.

(** First occurrence of [pat] in [s], counted from offset [i]. *)
Fixpoint indexFrom (pat s : list Z) (i : nat) : option nat :=
  if startsWith s pat then Some i
  else match s with
       | [] => None
       | _ :: r => indexFrom pat r (S i)
       end.

(** [s.indexOf(pat, pos)]: the position is clamped to the length, and
    [None] stands for [-1]. *)
Definition indexOf (s pat : list Z) (pos : nat) : option nat :=
  let p := Nat.min pos (length s) in
  indexFrom pat (drop p s) p.

(** [s.includes(pat)] *)
Definition includes (s pat : list Z) : bool :=
  match indexOf s pat 0 with Some _ => true | None => false end.

(** [s.split(sep)] for a non-empty separator.  [skip] counts the code
    units of a separator that was just matched and is still to be
    consumed. *)
Fixpoint splitGo (sep : list Z) (skip : nat) (s : list Z) : list (list Z) :=
  match s with
  | [] => [[]]
  | c :: r =>
      match skip with
      | S k => splitGo sep k r
      | O =>
          if startsWith s sep then [] :: splitGo sep (length sep - 1) r
          else match splitGo sep 0 r with
               | piece :: pieces => (c :: piece) :: pieces
               | [] => [[c]]
               end
      end
  end.

Definition split (s sep : list Z) : list (list Z) := splitGo sep 0 s.

(** [s.split(sep)[0]] *)
Definition firstPiece (s sep : list Z) : list Z :=
  match split s sep with
  | piece :: _ => piece
  | [] => []
  end.

(** [l.join(sep)] *)
Fixpoint join (sep : list Z) (l : list (list Z)) : list Z :=
  match l with
  | [] => []
  | [x] => x
  | x :: r => x ++ sep ++ join sep r
  end.

(** [s.slice(i)] and [s.slice(i, j)] for indices within [0 .. length]. *)
Definition sliceFrom (s : list Z) (i : nat) : list Z := drop i s.
Definition slice (s : list Z) (i j : nat) : list Z := take (j - i) (drop i s).

(** A string is falsy exactly when it is empty. *)
Definition truthy (s : list Z) : bool :=
  match s with [] => false | _ :: _ => true end.

End JsString.

Import JsString.

(** ** Numbers that may be [Infinity]

    [Math.min] and [Math.max] in [applyLogEntriesToFileContent] work on
    columns and on [Infinity]. *)

Inductive num : Set :=
  | Fin (z : Z)
  | Infinity.

Definition numMin (a b : num) : num :=
  match a, b with
  | Fin x, Fin y => Fin (Z.min x y)
  | Fin x, Infinity => Fin x
  | Infinity, b => b
  end.

Definition numMax (a b : num) : num :=
  match a, b with
  | Fin x, Fin y => Fin (Z.max x y)
  | _, _ => Infinity
  end.

(** [Math.min(...xs)]; with no argument it is [Infinity]. *)
Definition mathMin (xs : list num) : num := foldr numMin Infinity xs.

(** [n - 1] *)
Definition numPred (n : num) : num :=
  match n with
  | Fin z => Fin (z - 1)
  | Infinity => Infinity
  end.

(** A number used as a string position: [ToIntegerOrInfinity] followed by
    the clamp to [0 .. len]. *)
Definition clampPosition (n : num) (len : nat) : nat :=
  match n with
  | Fin z => Nat.min (Z.to_nat z) len
  | Infinity => len
  end.

(** ** The log entry ([src/log.ts]) *)

Record LogEntry : Set := mkLogEntry {
  filePath : list Z;
  line : Z;
  column : option Z;
  result : list Z
}.

(** ** The rewrite engine ([src/rewrite.ts]) *)

Module Rewrite.

Definition commentStart : list Z := js "//=>".
Definition trailingCommentStart : list Z := js " " ++ commentStart.

Definition stripTrailingLogComments (content : list Z) : list Z :=
  join nl
    (map (fun l =>
            if includes l trailingCommentStart
            then firstPiece l trailingCommentStart
            else l)
         (split content nl)).

Definition multiLineCommentStart : list Z := js "/*=>".
Definition multiLineCommentEnd : list Z := js "*/" ++ nl.

(** The loop of [stripMultiLineLogComments].  Every iteration moves [i]
    forward, so [fuel] bounds the number of iterations;
    [stripMultiLoop_fuel] below shows that the bound used by
    [stripMultiLineLogComments] is never reached. *)
Fixpoint stripMultiLoop (fuel : nat) (content : list Z) (i : nat)
    (strippedContent : list Z) : list Z :=
  match fuel with
  | O => strippedContent
  | S fuel' =>
      if (length content <=? i)%nat then strippedContent
      else
        match indexOf content multiLineCommentStart i with
        | None => strippedContent ++ sliceFrom content i
        | Some commentStartIndex =>
            match indexOf content multiLineCommentEnd commentStartIndex with
            | None => strippedContent ++ sliceFrom content i
            | Some commentEndIndex =>
                stripMultiLoop fuel' content
                  (commentEndIndex + length multiLineCommentEnd)%nat
                  (strippedContent ++ slice content i commentStartIndex)
            end
        end
  end.

Definition stripMultiLineLogComments (content : list Z) : list Z :=
  stripMultiLoop (S (length content)) content 0 [].

Definition stripLogEntriesFromFileContent (content : list Z) : list Z :=
  let c := stripTrailingLogComments content in
  stripMultiLineLogComments c.

Definition openParen : Z := 40.
Definition closeParen : Z := 41.

(** The inner [for] loop of [findCallEndLineIndex] over the code units
    of one line from the search column on: [inl tt] when the depth
    reached 0 on this line, [inr d] with the depth at the end of the
    line otherwise. *)
Fixpoint scanLine (chars : list Z) (parenDepth : Z) : unit + Z :=
  match chars with
  | [] => inr parenDepth
  | char :: rest =>
      let parenDepth :=
        if char =? openParen then parenDepth + 1
        else if char =? closeParen then parenDepth - 1
        else parenDepth in
      if parenDepth =? 0 then inl tt else scanLine rest parenDepth
  end.

(** The outer [for] loop: [rest] are the lines from index [i] on. *)
Fixpoint scanLines (rest : list (list Z)) (i : nat) (searchColumnIndex : nat)
    (parenDepth : Z) : option nat :=
  match rest with
  | [] => None
  | currentLine :: rest' =>
      match scanLine (drop searchColumnIndex currentLine) parenDepth with
      | inl _ => Some i
      | inr parenDepth' => scanLines rest' (S i) 0 parenDepth'
      end
  end.

(** [lines[index]] for a number [index]: [undefined] below 0 and past the end. *)
Definition lineAt (lines : list (list Z)) (index : Z) : option (list Z) :=
  if index <? 0 then None else lines !! Z.to_nat index.

Definition findCallEndLineIndex (startLine : Z) (startColumn : num)
    (lines : list (list Z)) : option nat :=
  let index := startLine - 1 in
  match lineAt lines index with
  | None => None
  | Some line =>
      if negb (truthy line) then None
      else
        match indexOf line [openParen] (clampPosition startColumn (length line)) with
        | None => None
        | Some parenStartIndex =>
            let searchColumnIndex := S parenStartIndex in
            let searchLineIndex := Z.to_nat index in
            if (searchColumnIndex =? length line)%nat
            then scanLines (drop (S searchLineIndex) lines) (S searchLineIndex) 0 1
            else scanLines (drop searchLineIndex lines) searchLineIndex
                   searchColumnIndex 1
        end
  end.

Definition prefixLines (text prefix : list Z) : list Z :=
  join nl (map (fun l => prefix ++ l) (split text nl)).

Definition tab : Z := 9.
Definition space : Z := 32.

Definition backtrackIndent (line : list Z) (caret : num) : list Z :=
  let len := clampPosition caret (length line) in
  map (fun c => if c =? tab then tab else space) (take len line).

(** The object [lineEntries], as the list [Object.entries] returns: keys
    that are array indices in ascending order first, then the other keys
    in the order they were added. *)
Definition isArrayIndex (k : Z) : bool := (0 <=? k) && (k <? 2 ^ 32 - 1).

Fixpoint pushEntry (k : Z) (e : LogEntry) (obj : list (Z * list LogEntry))
    : list (Z * list LogEntry) :=
  match obj with
  | [] => [(k, [e])]
  | (k', es) :: rest =>
      if k =? k' then (k', es ++ [e]) :: rest
      else if isArrayIndex k && (negb (isArrayIndex k') || (k <? k'))
      then (k, [e]) :: obj
      else (k', es) :: pushEntry k e rest
  end.

Definition groupByLine (entries : list LogEntry) : list (Z * list LogEntry) :=
  fold_left (fun obj e => pushEntry (line e) e obj) entries [].

(** [Math.max(1, Math.min(...entries.map((e) => e.column || Infinity)))] *)
Definition columnOrInfinity (e : LogEntry) : num :=
  match column e with
  | Some c => if c =? 0 then Infinity else Fin c
  | None => Infinity
  end.

Definition leftMostColumn (entries : list LogEntry) : num :=
  numMax (Fin 1) (mathMin (map columnOrInfinity entries)).

(** The loop that marks the lines of an old block, from [i] on, for
    deletion; [n] is the number of indices left below [lines.length]. *)
Fixpoint clearLoop (clearLineMarker : list Z) (n i : nat)
    (lines : list (list Z)) : list (list Z) :=
  match n with
  | O => lines
  | S n' =>
      match lines !! i with
      | None => lines
      | Some commentLine =>
          let lines := <[i := clearLineMarker]> lines in
          if truthy commentLine && includes commentLine (js "*/")
          then lines
          else clearLoop clearLineMarker n' (S i) lines
      end
  end.

(** The body of the loop over [Object.entries(lineEntries)]. *)
Definition applyGroup (clearLineMarker : list Z) (lines : list (list Z))
    (group : Z * list LogEntry) : list (list Z) :=
  let '(lineNumber, entries) := group in
  let leftMost := leftMostColumn entries in
  match findCallEndLineIndex lineNumber leftMost lines with
  | None => lines
  | Some index =>
      match lines !! index with
      | None => lines
      | Some line =>
          if negb (truthy line) then lines
          else
            let originalLine := firstPiece line trailingCommentStart in
            let multiLineResult :=
              existsb (fun e => includes (result e) nl) entries in
            if multiLineResult then
              let resultIndent := (length multiLineCommentStart + 1)%nat in
              let resultIndentation := replicate resultIndent space in
              let results :=
                sliceFrom
                  (prefixLines (join (js "," ++ nl) (map result entries))
                     resultIndentation)
                  resultIndent in
              let commentIndent := backtrackIndent line (numPred leftMost) in
              let lines :=
                <[index := originalLine ++ nl ++
                    prefixLines
                      (multiLineCommentStart ++ js " " ++ results ++ nl ++ js "*/")
                      commentIndent]> lines in
              match lines !! S index with
              | None => lines
              | Some nextLine =>
                  if truthy nextLine && includes nextLine multiLineCommentStart
                  then
                    let lines := <[S index := clearLineMarker]> lines in
                    clearLoop clearLineMarker (length lines - (index + 2))
                      (index + 2) lines
                  else lines
              end
            else
              <[index := originalLine ++ trailingCommentStart ++ js " " ++
                  join (js ", ") (map result entries)]> lines
      end
  end.

(** [clearLineMarker] is the value [randomUUID()] returned for this run. *)
Definition applyLogEntriesToFileContent (clearLineMarker : list Z)
    (content : list Z) (entries : list LogEntry) : list Z :=
  let lineEntries := groupByLine entries in
  let lines := split content nl in
  let lines := fold_left (applyGroup clearLineMarker) lineEntries lines in
  join nl (filter (fun l => l <> clearLineMarker) lines).

End Rewrite.

(** ** More of the JavaScript and Node.js library, as [src/log.ts] uses it *)

Module JsLib.

(** A call either returns a value or throws. *)
Inductive completion (A : Type) : Type :=
  | Normal (a : A)
  | Throw.
Arguments Normal {A} a.
Arguments Throw {A}.

Definition bind {A B : Type} (m : completion A) (f : A -> completion B)
    : completion B :=
  match m with
  | Normal a => f a
  | Throw => Throw
  end.

Notation "x <- m ;; k" := (bind m (fun x => k))
  (at level 100, m at next level, right associativity).

(** White space and line terminators, as [trim] and [parseInt] skip them. *)
Definition isWhiteSpace (c : Z) : bool :=
  (c =? 9) || (c =? 10) || (c =? 11) || (c =? 12) || (c =? 13) || (c =? 32)
  || (c =? 160) || (c =? 5760) || ((8192 <=? c) && (c <=? 8202))
  || (c =? 8232) || (c =? 8233) || (c =? 8239) || (c =? 8287)
  || (c =? 12288) || (c =? 65279).

Fixpoint trimStart (s : list Z) : list Z :=
  match s with
  | [] => []
  | c :: r => if isWhiteSpace c then trimStart r else s
  end.

Definition trimEnd (s : list Z) : list Z := reverse (trimStart (reverse s)).

(** [s.trim()] *)
Definition trim (s : list Z) : list Z := trimEnd (trimStart s).

Definition isDigit (c : Z) : bool := (48 <=? c) && (c <=? 57).

Fixpoint digitsPrefix (s : list Z) : list Z :=
  match s with
  | [] => []
  | c :: r => if isDigit c then c :: digitsPrefix r else []
  end.

Definition digitsValue (ds : list Z) : Z :=
  fold_left (fun acc d => 10 * acc + (d - 48)) ds 0.

(** [parseInt(s, 10)]; [None] is [NaN].  The value is the exact integer
    (JavaScript rounds it to a double above [2^53]). *)
Definition parseInt (s : list Z) : option Z :=
  let s := trimStart s in
  let sign :=
    match s with
    | c :: _ => if c =? 45 then -1 else 1
    | [] => 1
    end in
  let s :=
    match s with
    | c :: r => if (c =? 45) || (c =? 43) then r else s
    | [] => s
    end in
  match digitsPrefix s with
  | [] => None
  | ds => Some (sign * digitsValue ds)
  end.

(** The decimal digits of [Number.prototype.toString] for an integer
    (exact below [10^21]). *)
Fixpoint uintDigits (u : Decimal.uint) : list Z :=
  match u with
  | Decimal.Nil => []
  | Decimal.D0 u => 48 :: uintDigits u
  | Decimal.D1 u => 49 :: uintDigits u
  | Decimal.D2 u => 50 :: uintDigits u
  | Decimal.D3 u => 51 :: uintDigits u
  | Decimal.D4 u => 52 :: uintDigits u
  | Decimal.D5 u => 53 :: uintDigits u
  | Decimal.D6 u => 54 :: uintDigits u
  | Decimal.D7 u => 55 :: uintDigits u
  | Decimal.D8 u => 56 :: uintDigits u
  | Decimal.D9 u => 57 :: uintDigits u
  end.

Definition numberToString (z : Z) : list Z :=
  match Z.to_int z with
  | Decimal.Pos u => uintDigits u
  | Decimal.Neg u => 45 :: uintDigits u
  end.

(** *** [encodeURIComponent] and [decodeURIComponent] *)

Definition isAlnum (c : Z) : bool :=
  ((48 <=? c) && (c <=? 57)) || ((65 <=? c) && (c <=? 90))
  || ((97 <=? c) && (c <=? 122)).

(** The characters [encodeURIComponent] leaves alone: letters, digits and
    [- _ . ! ~ * ' ( )]. *)
Definition isUnreserved (c : Z) : bool :=
  isAlnum c || (c =? 45) || (c =? 95) || (c =? 46) || (c =? 33) || (c =? 126)
  || (c =? 42) || (c =? 39) || (c =? 40) || (c =? 41).

Definition isHighSurrogate (c : Z) : bool := (55296 <=? c) && (c <=? 56319).
Definition isLowSurrogate (c : Z) : bool := (56320 <=? c) && (c <=? 57343).

(** A string as JavaScript can hold it and [encodeURIComponent] accepts
    it: 16-bit code units, every surrogate part of a pair. *)
Fixpoint wellFormed (s : list Z) : bool :=
  match s with
  | [] => true
  | c :: r =>
      if isHighSurrogate c then
        match r with
        | c2 :: r2 => isLowSurrogate c2 && wellFormed r2
        | [] => false
        end
      else (0 <=? c) && (c <? 65536) && negb (isLowSurrogate c) && wellFormed r
  end.

Definition hexDigit (d : Z) : Z := if d <? 10 then 48 + d else 55 + d.

Definition percent : Z := 37.

Definition percentEncode (octets : list Z) : list Z :=
  flat_map (fun b => [percent; hexDigit (b / 16); hexDigit (b mod 16)]) octets.

(** The UTF-8 encoding of a code point. *)
Definition utf8Encode (cp : Z) : list Z :=
  if cp <? 128 then [cp]
  else if cp <? 2048 then [192 + cp / 64; 128 + cp mod 64]
  else if cp <? 65536 then
    [224 + cp / 4096; 128 + (cp / 64) mod 64; 128 + cp mod 64]
  else
    [240 + cp / 262144; 128 + (cp / 4096) mod 64; 128 + (cp / 64) mod 64;
     128 + cp mod 64].

Definition surrogatePair (hi lo : Z) : Z :=
  (hi - 55296) * 1024 + (lo - 56320) + 65536.

(** [encodeURIComponent(s)]: it throws a [URIError] on a lone surrogate. *)
Fixpoint encodeURIComponent (s : list Z) : completion (list Z) :=
  match s with
  | [] => Normal []
  | c :: r =>
      if isUnreserved c then
        e <- encodeURIComponent r ;; Normal (c :: e)
      else if isLowSurrogate c then Throw
      else if isHighSurrogate c then
        match r with
        | c2 :: r2 =>
            if isLowSurrogate c2 then
              e <- encodeURIComponent r2 ;;
              Normal (percentEncode (utf8Encode (surrogatePair c c2)) ++ e)
            else Throw
        | [] => Throw
        end
      else
        e <- encodeURIComponent r ;; Normal (percentEncode (utf8Encode c) ++ e)
  end.

Definition hexValue (c : Z) : option Z :=
  if (48 <=? c) && (c <=? 57) then Some (c - 48)
  else if (65 <=? c) && (c <=? 70) then Some (c - 55)
  else if (97 <=? c) && (c <=? 102) then Some (c - 87)
  else None.

(** [decodeURIComponent] in two passes: the escapes [%XX] are read first,
    then the escaped octets are decoded as UTF-8.  Any malformed escape
    and any octet sequence that is not the UTF-8 encoding of a code point
    throws a [URIError]. *)
Inductive token : Set :=
  | Lit (c : Z)
  | Esc (b : Z).

Fixpoint unescapeTokens (s : list Z) : completion (list token) :=
  match s with
  | [] => Normal []
  | c :: r =>
      if c =? percent then
        match r with
        | h1 :: h2 :: r' =>
            match hexValue h1, hexValue h2 with
            | Some a, Some b =>
                ts <- unescapeTokens r' ;; Normal (Esc (16 * a + b) :: ts)
            | _, _ => Throw
            end
        | _ => Throw
        end
      else ts <- unescapeTokens r ;; Normal (Lit c :: ts)
  end.

Definition isContinuation (b : Z) : bool := (128 <=? b) && (b <=? 191).

(** A code point as UTF-16 code units. *)
Definition utf16Encode (cp : Z) : list Z :=
  if cp <? 65536 then [cp]
  else [55296 + (cp - 65536) / 1024; 56320 + (cp - 65536) mod 1024].

Fixpoint decodeTokens (ts : list token) : completion (list Z) :=
  match ts with
  | [] => Normal []
  | Lit c :: r => s <- decodeTokens r ;; Normal (c :: s)
  | Esc b :: r =>
      if b <? 128 then s <- decodeTokens r ;; Normal (b :: s)
      else if (192 <=? b) && (b <=? 223) then
        match r with
        | Esc b2 :: r' =>
            let cp := (b - 192) * 64 + (b2 - 128) in
            if isContinuation b2 && (128 <=? cp) then
              s <- decodeTokens r' ;; Normal (utf16Encode cp ++ s)
            else Throw
        | _ => Throw
        end
      else if (224 <=? b) && (b <=? 239) then
        match r with
        | Esc b2 :: Esc b3 :: r' =>
            let cp := (b - 224) * 4096 + (b2 - 128) * 64 + (b3 - 128) in
            if isContinuation b2 && isContinuation b3 && (2048 <=? cp)
               && negb ((55296 <=? cp) && (cp <=? 57343)) then
              s <- decodeTokens r' ;; Normal (utf16Encode cp ++ s)
            else Throw
        | _ => Throw
        end
      else if (240 <=? b) && (b <=? 244) then
        match r with
        | Esc b2 :: Esc b3 :: Esc b4 :: r' =>
            let cp := (b - 240) * 262144 + (b2 - 128) * 4096
                      + (b3 - 128) * 64 + (b4 - 128) in
            if isContinuation b2 && isContinuation b3 && isContinuation b4
               && (65536 <=? cp) && (cp <=? 1114111) then
              s <- decodeTokens r' ;; Normal (utf16Encode cp ++ s)
            else Throw
        | _ => Throw
        end
      else Throw
  end.

Definition decodeURIComponent (s : list Z) : completion (list Z) :=
  ts <- unescapeTokens s ;; decodeTokens ts.

(** *** Node's [path.resolve] and [path.relative] (POSIX), on path segments *)

Definition slash : list Z := [47].

Definition isAbsolute (p : list Z) : bool :=
  match p with
  | c :: _ => c =? 47
  | [] => false
  end.

(** [normalizeString]: drops empty and [.] segments; [..] removes the
    segment before it, and is kept only where nothing is left to remove
    and the path is relative.  [acc] is the result so far, reversed. *)
Fixpoint normalizeSegments (allowAboveRoot : bool) (acc segs : list (list Z))
    : list (list Z) :=
  match segs with
  | [] => reverse acc
  | seg :: rest =>
      if decide (seg = [] \/ seg = [46]) then
        normalizeSegments allowAboveRoot acc rest
      else if decide (seg = [46; 46]) then
        match acc with
        | top :: acc' =>
            if decide (top = [46; 46])
            then normalizeSegments allowAboveRoot
                   (if allowAboveRoot then seg :: acc else acc) rest
            else normalizeSegments allowAboveRoot acc' rest
        | [] =>
            normalizeSegments allowAboveRoot
              (if allowAboveRoot then [seg] else []) rest
        end
      else normalizeSegments allowAboveRoot (seg :: acc) rest
  end.

(** The loop of [path.resolve] from the last argument to the first, then
    the working directory: [paths] is that sequence. *)
Fixpoint resolveLoop (paths : list (list Z)) (resolvedPath : list Z)
    : list Z * bool :=
  match paths with
  | [] => (resolvedPath, false)
  | path :: rest =>
      match path with
      | [] => resolveLoop rest resolvedPath
      | _ :: _ =>
          let resolvedPath := path ++ slash ++ resolvedPath in
          if isAbsolute path then (resolvedPath, true)
          else resolveLoop rest resolvedPath
      end
  end.

(** [path.resolve(...args)] with [process.cwd() = cwd] *)
Definition resolve (cwd : list Z) (args : list (list Z)) : list Z :=
  let '(resolvedPath, resolvedAbsolute) :=
    resolveLoop (reverse args ++ [cwd]) [] in
  let normal :=
    join slash
      (normalizeSegments (negb resolvedAbsolute) [] (split resolvedPath slash)) in
  if resolvedAbsolute then slash ++ normal
  else match normal with
       | [] => [46]
       | _ :: _ => normal
       end.

Fixpoint commonPrefixLength (a b : list (list Z)) : nat :=
  match a, b with
  | x :: a', y :: b' =>
      if decide (x = y) then S (commonPrefixLength a' b') else O
  | _, _ => O
  end.

(** The segments of a resolved path (["/"] has none). *)
Definition segmentsOf (p : list Z) : list (list Z) :=
  filter (fun seg => seg <> []) (split p slash).

(** [path.relative(from, to)] *)
Definition relative (cwd from to : list Z) : list Z :=
  if decide (from = to) then []
  else
    let fromSegs := segmentsOf (resolve cwd [from]) in
    let toSegs := segmentsOf (resolve cwd [to]) in
    let common := commonPrefixLength fromSegs toSegs in
    join slash
      (replicate (length fromSegs - common) [46; 46] ++ drop common toSegs).

End JsLib.

Import JsLib.

(** ** The log protocol ([src/log.ts]) *)

Module Log.

Definition delimiter : list Z := js " :: ".

(** [stringifyLogEntry]; [cwd] is the working directory of the process,
    which [path.relative] reads. *)
Definition stringifyLogEntry (cwd logFilePath : list Z) (entry : LogEntry)
    : completion (list Z) :=
  let relativeFilePath := relative cwd logFilePath (filePath entry) in
  let locationParts :=
    match column entry with
    | None => [relativeFilePath; numberToString (line entry)]
    | Some column =>
        [relativeFilePath; numberToString (line entry); numberToString column]
    end in
  let location := join (js ":") locationParts in
  encoded <- encodeURIComponent (result entry) ;;
  Normal (location ++ delimiter ++ encoded).

Record FileLocation : Set := mkFileLocation {
  path : list Z;
  locLine : Z;
  locColumn : option Z
}.

Definition parseFileLocationFromString (location : list Z)
    : option FileLocation :=
  let parts := split location (js ":") in
  match parts !! 0%nat, parts !! 1%nat with
  | Some rawFilePath, Some lineStr =>
      if truthy rawFilePath && truthy lineStr then
        let path := firstPiece rawFilePath (js "?") in
        match parseInt lineStr with
        | None => None
        | Some line =>
            let column :=
              match parts !! 2%nat with
              | Some columnStr =>
                  if truthy columnStr then Some (parseInt columnStr) else None
              | None => None
              end in
            match column with
            | Some (Some column) => Some (mkFileLocation path line (Some column))
            | _ => None
            end
        end
      else None
  | _, _ => None
  end.

Definition parseLogEntry (cwd logFilePath log : list Z)
    : completion (option LogEntry) :=
  match indexOf log delimiter 0 with
  | None => Normal None
  | Some delimiterIndex =>
      let location := slice log 0 delimiterIndex in
      let encodedResult := sliceFrom log (delimiterIndex + length delimiter) in
      result <- decodeURIComponent encodedResult ;;
      match parseFileLocationFromString location with
      | None => Normal None
      | Some loc =>
          let filePath := resolve cwd [logFilePath; path loc] in
          Normal (Some (mkLogEntry filePath (locLine loc) (locColumn loc) result))
      end
  end.

Definition fileUriPrefix : list Z := js "file://".
Definition anonymousCallerFilePrefix : list Z := js "at " ++ fileUriPrefix.

Definition findLocationInStackTraceLine (line : list Z) : option (list Z) :=
  if startsWith line anonymousCallerFilePrefix
  then Some (sliceFrom line (length anonymousCallerFilePrefix))
  else if startsWith line (js "at ") then
    match indexOf line (js "(") 0 with
    | None => None
    | Some parenStart =>
        let filePathStart := S parenStart in
        match indexOf line (js ")") filePathStart with
        | None => None
        | Some filePathEnd =>
            let uri := slice line filePathStart filePathEnd in
            if startsWith uri fileUriPrefix
            then Some (sliceFrom uri (length fileUriPrefix))
            else Some uri
        end
    end
  else None.

Section StackTrace.

(** The probed value and Node's [util.inspect] on it. *)
Variable value : Type.
Variable inspect : value -> list Z.

Definition parseLogEntryFromStackTrace (stack : list Z) (v : value)
    : option LogEntry :=
  let lines := drop 1 (split stack nl) in
  match lines !! 1%nat with
  | None => None
  | Some callerLine =>
      let caller := trim callerLine in
      if negb (truthy caller) then None
      else
        match findLocationInStackTraceLine caller with
        | None => None
        | Some location =>
            if negb (truthy location) then None
            else
              match parseFileLocationFromString location with
              | None => None
              | Some loc =>
                  Some (mkLogEntry (path loc) (locLine loc) (locColumn loc)
                          (inspect v))
              end
        end
  end.

End StackTrace.

End Log.

(** ** The files on disk

    The files by path, each with its text as [readFile] with the [utf8]
    encoding returns it.  Writing a string stores its UTF-8 encoding, in
    which a surrogate that is not part of a pair becomes U+FFFD.  Reading
    a missing file fails; the other operations are taken to succeed. *)

Module Fs.

Abbreviation files := (gmap (list Z) (list Z)).

(** A string after a round trip through UTF-8. *)
Fixpoint toWellFormed (s : list Z) : list Z :=
  match s with
  | [] => []
  | c :: r =>
      if isHighSurrogate c then
        match r with
        | c2 :: r2 =>
            if isLowSurrogate c2 then c :: c2 :: toWellFormed r2
            else 65533 :: toWellFormed r
        | [] => [65533]
        end
      else if isLowSurrogate c then 65533 :: toWellFormed r
      else c :: toWellFormed r
  end.

(** [readFile(path, { encoding: 'utf8' })]; [None] when it rejects. *)
Definition readFile (fs : files) (path : list Z) : option (list Z) :=
  fs !! path.

(** [writeFile(path, data, { encoding: 'utf8' })] *)
Definition writeFile (fs : files) (path data : list Z) : files :=
  <[path := toWellFormed data]> fs.

(** [appendFileSync(path, data, { encoding: 'utf-8', flag: 'a' })]: the
    file is created when it is missing. *)
Definition appendFileSync (fs : files) (path data : list Z) : files :=
  <[path := default [] (fs !! path) ++ toWellFormed data]> fs.

(** [unlink(path).catch(() => {})] *)
Definition unlink (fs : files) (path : list Z) : files := delete path fs.

End Fs.

Import Fs.

(** ** The probe ([src/tap.ts] and [src/index.ts]) *)

Module Tap.

Section Probe.

Variable value : Type.
Variable inspect : value -> list Z.

Definition writeStackToLogFile (cwd : list Z) (fs : files)
    (logFilePath stack : list Z) (v : value) : completion files :=
  match Log.parseLogEntryFromStackTrace value inspect stack v with
  | None => Normal fs
  | Some entry =>
      log <- Log.stringifyLogEntry cwd logFilePath entry ;;
      Normal (appendFileSync fs logFilePath (log ++ nl))
  end.

(** [p(value)]: [enabled] is [ctx.enabled], [stack] is what
    [new Error().stack] holds at the call. *)
Definition p (cwd : list Z) (enabled : bool) (fs : files)
    (logFilePath : list Z) (stack : option (list Z)) (v : value)
    : completion (files * value) :=
  if enabled then
    match stack with
    | Some stack =>
        if truthy stack then
          fs' <- writeStackToLogFile cwd fs logFilePath stack v ;;
          Normal (fs', v)
        else Normal (fs, v)
    | None => Normal (fs, v)
    end
  else Normal (fs, v).

End Probe.

End Tap.

(** ** The watcher ([src/watch.ts])

    The steps of the loop of [run] between the evaluation of the module
    and the write of its file, and [resetFiles]. *)

Module Watch.

(** The loop over the lines of the log: the entries read for the file
    that was evaluated.  A line that [parseLogEntry] throws on ends the
    loop with that exception. *)
Fixpoint readLogLines (cwd logFilePath evalFilePath : list Z)
    (logLines : list (list Z)) (logEntries : list LogEntry)
    : completion (list LogEntry) :=
  match logLines with
  | [] => Normal logEntries
  | logLine :: rest =>
      log <- Log.parseLogEntry cwd logFilePath logLine ;;
      match log with
      | Some log =>
          if decide (filePath log = evalFilePath)
          then readLogLines cwd logFilePath evalFilePath rest (logEntries ++ [log])
          else readLogLines cwd logFilePath evalFilePath rest logEntries
      | None => readLogLines cwd logFilePath evalFilePath rest logEntries
      end
  end.

Definition readLogEntries (cwd logFilePath evalFilePath logContent : list Z)
    : completion (list LogEntry) :=
  let logLines := split logContent nl in
  readLogLines cwd logFilePath evalFilePath logLines [].

(** The callback given to [logEntries.map] under [SourceMapConsumer.with]:
    the entry pushed to [mappedLogEntries], if one is.
    [originalPositionFor line column] gives the [line] and the [column]
    of the position the consumer returns, [None] for [null]. *)
Definition mapLogEntry (originalPositionFor : Z -> Z -> option Z * option Z)
    (moduleFilePath evalFilePath : list Z) (entry : LogEntry)
    : option LogEntry :=
  match column entry with
  | None => None
  | Some entryColumn =>
      if entryColumn =? 0 then None
      else
        match originalPositionFor (line entry) entryColumn with
        | (Some line, Some column) =>
            if decide (filePath entry = evalFilePath)
            then Some (mkLogEntry moduleFilePath line (Some (column - 1))
                         (result entry))
            else None
        | _ => None
        end
  end.

(** [mappedLogEntries]; [consumer] is the consumer of the source map of
    the module when it has one. *)
Definition mappedLogEntries
    (consumer : option (Z -> Z -> option Z * option Z))
    (moduleFilePath evalFilePath : list Z) (logEntries : list LogEntry)
    : list LogEntry :=
  match consumer with
  | None => logEntries
  | Some originalPositionFor =>
      omap (mapLogEntry originalPositionFor moduleFilePath evalFilePath)
        logEntries
  end.

(** [newModuleContent]; [clearLineMarker] is the value [randomUUID()]
    returns in [applyLogEntriesToFileContent]. *)
Definition newModuleContent (clearLineMarker moduleContent : list Z)
    (mappedLogEntries : list LogEntry) : list Z :=
  Rewrite.applyLogEntriesToFileContent clearLineMarker
    (Rewrite.stripTrailingLogComments moduleContent) mappedLogEntries.

(** [resetFiles]; [filePaths] are the elements of the set in the order
    they were added. *)
Definition resetFiles (fs : files) (filePaths : list (list Z)) : files :=
  let touchedFiles := filePaths in
  let readFiles :=
    map (fun path =>
           match readFile fs path with
           | Some content => Some (path, content)
           | None => None
           end) touchedFiles in
  let files := omap id readFiles in
  let updatedFiles :=
    map (fun f => (f.1, Rewrite.stripLogEntriesFromFileContent f.2)) files in
  fold_left (fun fs f => writeFile fs f.1 f.2) updatedFiles fs.

End Watch.

(** * Notions used in the statements

    The text read as one sequence of code units with the parenthesis
    depth after each of them, the lines a run of [apply] leaves when it
    writes trailing comments only, and the inputs of the examples. *)

Section Notions.

Import Rewrite.

(** The writes [lines[i] = v] of a run, done in order. *)
Definition applyWrites (ws : list (nat * list Z)) lines : list (list Z) :=
  fold_left (fun ls w => <[w.1 := w.2]> ls) ws lines.

(** The code units of the lines [rest], which start at index [i], in
    reading order, each with the index of its line. *)
Fixpoint unitsOfLines (i : nat) (rest : list (list Z)) : list (nat * Z) :=
  match rest with
  | [] => []
  | l :: rest' => map (pair i) l ++ unitsOfLines (S i) rest'
  end.

(** The code units from column [col] of line [i] to the end of the text. *)
Definition unitsAfter lines (i col : nat) : list (nat * Z) :=
  match drop i lines with
  | [] => []
  | l :: rest => map (pair i) (drop col l) ++ unitsOfLines (S i) rest
  end.

(** How often the unit [c] occurs in [us]. *)
Definition countUnit (c : Z) (us : list Z) : Z :=
  Z.of_nat (length (filter (fun u => u = c) us)).

(** The parenthesis depth after reading [us], having started at [d]. *)
Definition depthFrom (d : Z) (us : list Z) : Z :=
  d + countUnit openParen us - countUnit closeParen us.

(** The depth after reading [us] from just past the opening parenthesis. *)
Definition depthAfter (us : list Z) : Z := depthFrom 1 us.

(** The depth after one more unit, and the line of the first unit after
    which the depth is 0: the scan of [findCallEndLineIndex] on the units
    of the text. *)
Definition stepDepth (d c : Z) : Z :=
  if c =? openParen then d + 1 else if c =? closeParen then d - 1 else d.

Fixpoint firstZero (d : Z) (units : list (nat * Z)) : option nat :=
  match units with
  | [] => None
  | (i, c) :: rest =>
      if stepDepth d c =? 0 then Some i else firstZero (stepDepth d c) rest
  end.

(** Text on one line and without parentheses. *)
Definition plainText (r : list Z) : Prop :=
  (10 ∉ r) /\ (openParen ∉ r) /\ (closeParen ∉ r).

(** A line of the working array in a run that writes trailing comments
    only: the original line [l0], or [l0] followed by a trailing comment
    whose text holds no parenthesis. *)
Definition annotated (l0 l : list Z) : Prop :=
  l = l0 \/ exists r, plainText r /\ l = l0 ++ trailingCommentStart ++ r.

(** What a group writes in a run that writes trailing comments only. *)
Definition trailingComment (entries : list LogEntry) : list Z :=
  trailingCommentStart ++ js " " ++ join (js ", ") (map result entries).

(** The write a group does on the lines [lines0], if it does one. *)
Definition groupWrite lines0 (group : Z * list LogEntry)
    : option (nat * list Z) :=
  match findCallEndLineIndex group.1 (leftMostColumn group.2) lines0 with
  | Some i =>
      match lines0 !! i with
      | Some l0 => Some (i, l0 ++ trailingComment group.2)
      | None => None
      end
  | None => None
  end.

(** A result on one line and without parentheses. *)
Definition plainResult (e : LogEntry) : Prop :=
  (10 ∉ result e) /\ (openParen ∉ result e) /\ (closeParen ∉ result e).

(** A line of the working array in a run whose results are all on one
    line: the original line [l0], or [l0] followed by a trailing comment
    with any text on one line. *)
Definition commented (l0 l : list Z) : Prop :=
  l = l0 \/ exists r, (10 ∉ r) /\ l = l0 ++ trailingCommentStart ++ r.

(** What [stripTrailingLogComments] does to one line. *)
Definition stripTrailingLine (l : list Z) : list Z :=
  if includes l trailingCommentStart
  then firstPiece l trailingCommentStart else l.

(** A value [randomUUID()] can return, used in the examples. *)
Definition exampleMarker : list Z := js "123e4567-e89b-42d3-a456-426614174000".

(** A log entry of the examples. *)
Definition entryAt (l : Z) (c : option Z) (r : list Z) : LogEntry :=
  mkLogEntry (js "/proj/a.js") l c r.



(** What the loop over the log keeps of one line: the entry it decodes
    to, when that is an entry for the file that was evaluated. *)
Definition entryOfLine (cwd logFilePath evalFilePath logLine : list Z)
    : option LogEntry :=
  match Log.parseLogEntry cwd logFilePath logLine with
  | Normal (Some log) =>
      if decide (filePath log = evalFilePath) then Some log else None
  | _ => None
  end.

(** What [resetFiles] writes to a file that holds [content]. *)
Definition resetContent (content : list Z) : list Z :=
  toWellFormed (Rewrite.stripLogEntriesFromFileContent content).

(** The block comment [apply] writes for the results [results], before
    it is indented. *)
Definition blockComment (results : list (list Z)) : list Z :=
  multiLineCommentStart ++ js " " ++
  sliceFrom (prefixLines (join (js "," ++ nl) results) (replicate 5 space)) 5
  ++ nl ++ js "*/".

(** The entries of the group with key [k] in the object [obj] (none
    when there is no such group). *)
Fixpoint groupOf (k : Z) (obj : list (Z * list LogEntry)) : list LogEntry :=
  match obj with
  | [] => []
  | (k', es) :: rest => if k =? k' then es else groupOf k rest
  end.

(** Keys in strictly ascending order. *)
Fixpoint ascending (ks : list Z) : Prop :=
  match ks with
  | [] => True
  | k :: rest => Forall (fun k' => k < k') rest /\ ascending rest
  end.

(** An object whose keys are array indices in ascending order, with no
    empty group. *)
Definition sortedGroups (obj : list (Z * list LogEntry)) : Prop :=
  ascending (map fst obj) /\
  Forall (fun group => isArrayIndex group.1 = true /\ group.2 <> []) obj.

(** A segment of a normalised absolute path. *)
Definition normalSegment (seg : list Z) : Prop :=
  seg <> [] /\ seg <> [46] /\ seg <> [46; 46] /\ (47 ∉ seg).

End Notions.



(** * Facts about the string primitives *)

Section StringFacts.

Implicit Types s pat sep piece : list Z.

Lemma startsWith_spec s pat :
  startsWith s pat = true <-> exists r, s = pat ++ r.
Proof.
  revert s. induction pat as [|p pat IH]; intros s; simpl.
  - split; [intros _; by exists s | done].
  - destruct s as [|c s].
    + split; [done | intros [r Hr]; discriminate].
    + rewrite andb_true_iff, IH, Z.eqb_eq. split.
      * intros [-> [r ->]]. by exists r.
      * intros [r Hr]. injection Hr as -> ->. eauto.
Qed.

Lemma startsWith_app pat r : startsWith (pat ++ r) pat = true.
Proof. apply startsWith_spec. by exists r. Qed.

Lemma startsWith_nil s : startsWith s [] = true.
Proof. done. Qed.

Lemma startsWith_length s pat :
  startsWith s pat = true -> (length pat <= length s)%nat.
Proof.
  intros [r ->]%startsWith_spec. rewrite length_app. lia.
Qed.

Lemma indexFrom_shift pat s i :
  indexFrom pat s i = (fun j => (i + j)%nat) <$> indexFrom pat s 0.
Proof.
  revert i. induction s as [|c s IH]; intros i; simpl.
  - destruct (startsWith [] pat); simpl; f_equal; lia.
  - destruct (startsWith (c :: s) pat); simpl; [f_equal; lia|].
    rewrite (IH (S i)), (IH 1%nat).
    destruct (indexFrom pat s 0); simpl; f_equal; lia.
Qed.

Lemma indexFrom_Some pat s j :
  indexFrom pat s 0 = Some j ->
  (j <= length s)%nat /\ startsWith (drop j s) pat = true /\
  forall k, (k < j)%nat -> startsWith (drop k s) pat = false.
Proof.
  revert j. induction s as [|c s IH]; intros j; simpl.
  - destruct (startsWith [] pat) eqn:E; [|done].
    intros [= <-]. split; [done|]. split; [done|]. intros; lia.
  - destruct (startsWith (c :: s) pat) eqn:E.
    + intros [= <-]. split; [lia|]. split; [done|]. intros; lia.
    + rewrite indexFrom_shift. destruct (indexFrom pat s 0) as [j'|] eqn:E'; [|done].
      simpl. intros [= <-]. destruct (IH j' eq_refl) as (Hl & Hm & Hn).
      split; [simpl; lia|]. split; [done|].
      intros [|k] Hk; simpl; [done|]. apply Hn. lia.
Qed.

Lemma indexFrom_None pat s k :
  indexFrom pat s 0 = None -> startsWith (drop k s) pat = false.
Proof.
  revert k. induction s as [|c s IH]; intros k; simpl.
  - destruct (startsWith [] pat) eqn:E; [done|]. by rewrite drop_nil.
  - destruct (startsWith (c :: s) pat) eqn:E; [done|].
    rewrite indexFrom_shift. destruct (indexFrom pat s 0) eqn:E'; [done|].
    intros _. destruct k; simpl; [done|]. by apply IH.
Qed.

Lemma indexFrom_is_Some pat s k :
  startsWith (drop k s) pat = true -> is_Some (indexFrom pat s 0).
Proof.
  intros H. destruct (indexFrom pat s 0) eqn:E; [eauto|].
  by rewrite (indexFrom_None _ _ k E) in H.
Qed.

(** [indexOf] finds the first occurrence at or after the clamped position. *)
Lemma indexOf_Some s pat pos j :
  indexOf s pat pos = Some j <->
  (Nat.min pos (length s) <= j <= length s)%nat /\
  startsWith (drop j s) pat = true /\
  forall k, (Nat.min pos (length s) <= k < j)%nat ->
            startsWith (drop k s) pat = false.
Proof.
  unfold indexOf. set (p := Nat.min pos (length s)).
  rewrite indexFrom_shift. split.
  - destruct (indexFrom pat (drop p s) 0) as [j'|] eqn:E; [|done].
    simpl. intros [= <-]. apply indexFrom_Some in E as (Hl & Hm & Hn).
    rewrite drop_drop in Hm. rewrite length_drop in Hl.
    split; [lia|]. split; [done|].
    intros k Hk. specialize (Hn (k - p)%nat). rewrite drop_drop in Hn.
    replace (p + (k - p))%nat with k in Hn by lia. apply Hn. lia.
  - intros (Hl & Hm & Hn).
    destruct (indexFrom_is_Some pat (drop p s) (j - p)%nat) as [j' E].
    { rewrite drop_drop. by replace (p + (j - p))%nat with j by lia. }
    rewrite E. simpl. f_equal.
    apply indexFrom_Some in E as (Hl' & Hm' & Hn').
    rewrite drop_drop in Hm'.
    destruct (decide (p + j' < j)%nat) as [Hlt|Hge].
    { rewrite Hn in Hm' by lia. done. }
    destruct (decide (j < p + j')%nat) as [Hlt|Hge'].
    { specialize (Hn' (j - p)%nat). rewrite drop_drop in Hn'.
      replace (p + (j - p))%nat with j in Hn' by lia.
      rewrite Hn' in Hm by lia. done. }
    lia.
Qed.

Lemma indexOf_None s pat pos :
  indexOf s pat pos = None <->
  forall k, (Nat.min pos (length s) <= k)%nat ->
            startsWith (drop k s) pat = false.
Proof.
  unfold indexOf. set (p := Nat.min pos (length s)).
  rewrite indexFrom_shift. split.
  - destruct (indexFrom pat (drop p s) 0) as [j'|] eqn:E; [done|].
    intros _ k Hk. pose proof (indexFrom_None _ _ (k - p)%nat E) as Hn.
    rewrite drop_drop in Hn. by replace (p + (k - p))%nat with k in Hn by lia.
  - intros Hn. destruct (indexFrom pat (drop p s) 0) as [j'|] eqn:E; [|done].
    apply indexFrom_Some in E as (_ & Hm & _). rewrite drop_drop in Hm.
    rewrite Hn in Hm by lia. done.
Qed.

Lemma indexOf_bound s pat pos j :
  indexOf s pat pos = Some j -> (j + length pat <= length s)%nat.
Proof.
  intros (Hl & Hm & _)%indexOf_Some. apply startsWith_length in Hm.
  rewrite length_drop in Hm. lia.
Qed.

Lemma includes_true s pat :
  includes s pat = true <-> exists a b, s = a ++ pat ++ b.
Proof.
  unfold includes. split.
  - destruct (indexOf s pat 0) as [j|] eqn:E; [|done]. intros _.
    apply indexOf_Some in E as (_ & [r Hr]%startsWith_spec & _).
    exists (take j s), r. by rewrite <- Hr, take_drop.
  - intros (a & b & ->).
    destruct (indexOf (a ++ pat ++ b) pat 0) eqn:E; [done|].
    rewrite indexOf_None in E. specialize (E (length a)).
    rewrite drop_app_length, startsWith_app in E. simpl in E.
    discriminate E. lia.
Qed.

Lemma includes_false s pat :
  includes s pat = false <-> forall a b, s <> a ++ pat ++ b.
Proof.
  rewrite <- not_true_iff_false, includes_true. split.
  - intros H a b E. apply H. eauto.
  - intros H (a & b & E). by eapply H.
Qed.

Lemma splitGo_skip sep k s : splitGo sep k s = splitGo sep 0 (drop k s).
Proof.
  revert k. induction s as [|c s IH]; intros [|k]; simpl; try done.
Qed.

Lemma splitGo_not_nil sep k s : splitGo sep k s <> [].
Proof.
  revert k. induction s as [|c s IH]; intros [|k]; simpl; try done.
  destruct (startsWith (c :: s) sep); [done|].
  by destruct (splitGo sep 0 s).
Qed.

Lemma split_not_nil s sep : split s sep <> [].
Proof. apply splitGo_not_nil. Qed.

Lemma split_nil sep : split [] sep = [[]].
Proof. done. Qed.

Lemma split_match c r sep :
  sep <> [] -> startsWith (c :: r) sep = true ->
  split (c :: r) sep = [] :: split (drop (length sep) (c :: r)) sep.
Proof.
  intros Hsep Hm. unfold split. simpl. rewrite Hm, splitGo_skip.
  destruct sep as [|x sep]; [done|]. simpl. by rewrite Nat.sub_0_r.
Qed.

Lemma split_nomatch c r sep :
  startsWith (c :: r) sep = false ->
  exists piece pieces,
    split r sep = piece :: pieces /\ split (c :: r) sep = (c :: piece) :: pieces.
Proof.
  intros Hm. unfold split. simpl. rewrite Hm.
  destruct (splitGo sep 0 r) as [|piece pieces] eqn:E.
  - by apply splitGo_not_nil in E.
  - eauto.
Qed.

Lemma join_cons sep x l :
  l <> [] -> join sep (x :: l) = x ++ sep ++ join sep l.
Proof. by destruct l. Qed.

Lemma join_singleton sep x : join sep [x] = x.
Proof. done. Qed.

(** Splitting and joining with the same separator gives the string back. *)
Lemma join_split s sep : sep <> [] -> join sep (split s sep) = s.
Proof.
  intros Hsep. remember (length s) as n eqn:Hn.
  revert s Hn. induction (lt_wf n) as [n _ IH]; intros s ->.
  destruct s as [|c r]; [done|].
  destruct (startsWith (c :: r) sep) eqn:Hm.
  - rewrite split_match by done.
    rewrite join_cons by apply split_not_nil. simpl.
    rewrite (IH (length (drop (length sep) (c :: r)))); [|  |done].
    + apply startsWith_spec in Hm as [r' Hr]. rewrite Hr at 2.
      rewrite Hr, drop_app_length. done.
    + rewrite length_drop. destruct sep; [done|]. simpl. lia.
  - destruct (split_nomatch _ _ _ Hm) as (piece & pieces & E1 & E2).
    rewrite E2. specialize (IH (length r) ltac:(simpl; lia) r eq_refl).
    rewrite E1 in IH. destruct pieces as [|y pieces]; simpl in *.
    + by rewrite IH.
    + by rewrite <- IH.
Qed.

Lemma join_elem_substring sep l piece :
  piece ∈ l -> exists a b, join sep l = a ++ piece ++ b.
Proof.
  induction l as [|x l IH]; [by intros ?%elem_of_nil|].
  intros [->|Hin]%elem_of_cons.
  - destruct l as [|y l].
    + exists [], []. simpl. by rewrite app_nil_r.
    + by exists [], (sep ++ join sep (y :: l)).
  - destruct (IH Hin) as (a & b & E).
    rewrite join_cons by (intros ->; by apply elem_of_nil in Hin).
    exists (x ++ sep ++ a), b. rewrite E. by rewrite <- !app_assoc.
Qed.

(** Every piece of a split is a substring of the string. *)
Lemma split_elem_substring s sep piece :
  sep <> [] -> piece ∈ split s sep -> exists a b, s = a ++ piece ++ b.
Proof.
  intros Hsep Hin.
  destruct (join_elem_substring sep _ _ Hin) as (a & b & E).
  rewrite join_split in E by done. eauto.
Qed.

Lemma split_elem_includes s sep piece pat :
  sep <> [] -> piece ∈ split s sep ->
  includes s pat = false -> includes piece pat = false.
Proof.
  intros Hsep Hin Hs. apply not_true_iff_false.
  intros (a & b & ->)%includes_true.
  destruct (split_elem_substring _ _ _ Hsep Hin) as (a' & b' & E).
  rewrite includes_false in Hs. apply (Hs (a' ++ a) (b ++ b')).
  rewrite E. by rewrite <- !app_assoc.
Qed.

Lemma indexOf_0 s pat : indexOf s pat 0 = indexFrom pat s 0.
Proof. done. Qed.

(** [s.split(sep)[0]] is the text before the first separator, or all of
    [s] when it holds no separator. *)
Lemma firstPiece_spec s sep :
  sep <> [] ->
  firstPiece s sep =
    match indexOf s sep 0 with
    | Some j => take j s
    | None => s
    end.
Proof.
  intros Hsep. unfold firstPiece. rewrite indexOf_0.
  induction s as [|c r IH].
  - simpl. destruct sep; [done|]. done.
  - destruct (startsWith (c :: r) sep) eqn:Hm.
    + rewrite split_match by done. simpl. by rewrite Hm.
    + destruct (split_nomatch _ _ _ Hm) as (piece & pieces & E1 & E2).
      rewrite E2. rewrite E1 in IH. simpl. rewrite Hm.
      rewrite indexFrom_shift. rewrite IH.
      by destruct (indexFrom sep r 0).
Qed.

Lemma firstPiece_no_sep s sep :
  sep <> [] -> includes s sep = false -> firstPiece s sep = s.
Proof.
  intros Hsep Hs. rewrite firstPiece_spec by done. unfold includes in Hs.
  by destruct (indexOf s sep 0).
Qed.

Lemma firstPiece_prefix s sep :
  sep <> [] -> exists r, s = firstPiece s sep ++ r.
Proof.
  intros Hsep. rewrite firstPiece_spec by done.
  destruct (indexOf s sep 0) as [j|].
  - exists (drop j s). by rewrite take_drop.
  - exists []. by rewrite app_nil_r.
Qed.

(** The text before the first separator holds no separator. *)
Lemma firstPiece_clean s sep :
  sep <> [] -> includes (firstPiece s sep) sep = false.
Proof.
  intros Hsep. rewrite firstPiece_spec by done.
  destruct (indexOf s sep 0) as [j|] eqn:E.
  - apply not_true_iff_false. intros (a & b & Hab)%includes_true.
    apply indexOf_Some in E as (Hl & Hm & Hn).
    assert (Hlen : (length a + length sep + length b = j)%nat).
    { apply (f_equal length) in Hab. rewrite length_take in Hab.
      rewrite !length_app in Hab. lia. }
    assert (Hs : s = a ++ sep ++ (b ++ drop j s)).
    { rewrite <- (take_drop j s) at 1. rewrite Hab. by rewrite <- !app_assoc. }
    assert (Hd : startsWith (drop (length a) s) sep = true).
    { rewrite Hs, drop_app_length. apply startsWith_app. }
    rewrite Hn in Hd; [done|].
    destruct sep; [done|]. simpl in Hlen. lia.
  - unfold includes. by rewrite E.
Qed.

Lemma includes_unit s c : includes s [c] = true <-> c ∈ s.
Proof.
  rewrite includes_true. split.
  - intros (a & b & ->). apply elem_of_app. right. by left.
  - intros (a & b & ->)%list_elem_of_split. by exists a, b.
Qed.

Lemma includes_unit_false s c : includes s [c] = false <-> c ∉ s.
Proof. by rewrite <- not_true_iff_false, includes_unit. Qed.

Lemma elem_of_join c sep l :
  c ∈ join sep l -> c ∈ sep \/ exists x, x ∈ l /\ c ∈ x.
Proof.
  induction l as [|x l IH]; [by intros ?%elem_of_nil|].
  destruct l as [|y l].
  - intros H. right. exists x. split; [by left | done].
  - rewrite join_cons by done.
    intros [H|[H|H]%elem_of_app]%elem_of_app.
    + right. exists x. split; [by left | done].
    + by left.
    + destruct (IH H) as [?|(z & Hz & Hc)]; [by left|].
      right. exists z. split; [by right | done].
Qed.

(** Splitting at a single code unit. *)
Lemma split_unit_cons c x r :
  split (x :: r) [c] =
    if c =? x then [] :: split r [c]
    else match split r [c] with
         | piece :: pieces => (x :: piece) :: pieces
         | [] => [[x]]
         end.
Proof. unfold split. simpl. by rewrite andb_true_r. Qed.

Lemma split_unit_free c s : c ∉ s -> split s [c] = [s].
Proof.
  induction s as [|x r IH]; [done|].
  intros [Hne Hr]%not_elem_of_cons. rewrite split_unit_cons, (IH Hr).
  by destruct (Z.eqb_spec c x).
Qed.

Lemma split_unit_app c s r :
  c ∉ s -> split (s ++ c :: r) [c] = s :: split r [c].
Proof.
  induction s as [|x s IH]; intros Hs; simpl.
  - by rewrite split_unit_cons, Z.eqb_refl.
  - apply not_elem_of_cons in Hs as [Hne Hs].
    rewrite split_unit_cons, (IH Hs). by destruct (Z.eqb_spec c x).
Qed.

Lemma split_unit_pieces c s piece : piece ∈ split s [c] -> c ∉ piece.
Proof.
  revert piece. induction s as [|x r IH]; intros piece.
  - intros ->%list_elem_of_singleton. apply not_elem_of_nil.
  - rewrite split_unit_cons. destruct (Z.eqb_spec c x) as [->|Hne].
    + intros [->|Hin]%elem_of_cons; [apply not_elem_of_nil | by apply IH].
    + destruct (split r [c]) as [|p ps] eqn:E.
      * intros ->%list_elem_of_singleton.
        by intros [?|?%elem_of_nil]%elem_of_cons.
      * intros [->|Hin]%elem_of_cons.
        -- intros [?|Hp]%elem_of_cons; [done|].
           by apply (IH p); [left|].
        -- apply IH. by right.
Qed.


(** Joining pieces that hold no separator unit and splitting again gives
    the pieces back. *)
Lemma split_join_unit c l :
  l <> [] -> Forall (fun piece => c ∉ piece) l -> split (join [c] l) [c] = l.
Proof.
  induction l as [|x l IH]; [done|]. intros _ Hall.
  inversion Hall as [|? ? Hx Hl]; subst.
  destruct l as [|y l].
  - simpl. by apply split_unit_free.
  - rewrite join_cons by done.
    change (x ++ [c] ++ join [c] (y :: l)) with (x ++ c :: join [c] (y :: l)).
    rewrite split_unit_app by done. by rewrite IH.
Qed.

End StringFacts.

(** * Facts about the rewrite engine *)

Section RewriteFacts.

Import Rewrite.

Implicit Types content T : list Z.
Implicit Types lines : list (list Z).

Lemma nl_not_nil : nl <> [].
Proof. done. Qed.

Lemma trailingCommentStart_not_nil : trailingCommentStart <> [].
Proof. done. Qed.

Lemma filter_fresh (marker : list Z) lines :
  marker ∉ lines -> filter (fun l => l <> marker) lines = lines.
Proof.
  induction lines as [|l lines IH]; [done|].
  intros [Hne Hnin]%not_elem_of_cons.
  rewrite filter_cons_True by done. by rewrite IH.
Qed.

(** Every iteration of the loop in [stripMultiLineLogComments] moves [i]
    forward: any fuel above [length content - i] gives the same result. *)
Lemma stripMultiLoop_fuel f1 f2 content i acc :
  (length content - i < f1)%nat -> (length content - i < f2)%nat ->
  stripMultiLoop f1 content i acc = stripMultiLoop f2 content i acc.
Proof.
  revert f2 i acc. induction f1 as [|f1 IH]; intros [|f2] i acc H1 H2; try lia.
  simpl. destruct (length content <=? i)%nat eqn:Hi; [done|].
  apply Nat.leb_gt in Hi.
  destruct (indexOf content multiLineCommentStart i) as [cs|] eqn:Ecs; [|done].
  destruct (indexOf content multiLineCommentEnd cs) as [ce|] eqn:Ece; [|done].
  apply indexOf_Some in Ecs as (Hcs & _).
  apply indexOf_Some in Ece as (Hce & _).
  apply IH; lia.
Qed.

Lemma stripTrailing_id T :
  includes T trailingCommentStart = false -> stripTrailingLogComments T = T.
Proof.
  intros HT. unfold stripTrailingLogComments.
  rewrite <- (join_split T nl nl_not_nil) at 2. f_equal.
  rewrite <- (map_id (split T nl)) at 2. apply map_ext_in.
  intros l Hl%list_elem_of_In.
  by rewrite (split_elem_includes _ _ _ _ nl_not_nil Hl HT).
Qed.

Lemma stripMulti_id T :
  includes T multiLineCommentStart = false -> stripMultiLineLogComments T = T.
Proof.
  intros HT. unfold stripMultiLineLogComments. simpl.
  destruct T as [|c T]; [done|]. simpl length.
  change (S (length T) <=? 0)%nat with false. cbv iota.
  unfold includes in HT.
  by destruct (indexOf (c :: T) multiLineCommentStart 0).
Qed.

(** An occurrence of a pattern without line break in joined lines lies
    within one line. *)
Lemma includes_join_inv pat lines :
  pat <> [] -> 10 ∉ pat -> includes (join nl lines) pat = true ->
  exists l, l ∈ lines /\ includes l pat = true.
Proof.
  intros Hpat Hnl. induction lines as [|x lines IH].
  - intros (a & b & E)%includes_true. simpl in E.
    symmetry in E. apply app_eq_nil in E as [_ [E _]%app_eq_nil]. done.
  - destruct lines as [|y lines].
    { intros H. exists x. split; [by left | done]. }
    rewrite join_cons by done. intros (a & b & E)%includes_true.
    symmetry in E. apply app_eq_inv in E as [(k & Ea & Ek)|(k & Ex & Ek)].
    all: simpl in Ek.
    + destruct k as [|c k].
      * destruct pat as [|p pat]; [done|]. injection Ek as Hp _.
        exfalso. apply Hnl. rewrite <- Hp. by left.
      * injection Ek as _ Ej.
        destruct IH as (l & Hl & Hinc).
        { apply includes_true. eauto. }
        exists l. split; [by right | done].
    + exists x. split; [by left|]. apply includes_true.
      apply app_eq_inv in Ek as [(k2 & Ek2 & Eb)|(k2 & Ek2 & Eb)].
      * destruct k2 as [|c k2].
        -- exists a, []. rewrite app_nil_r in Ek2. by rewrite app_nil_r, Ex, Ek2.
        -- injection Eb as Hc _. exfalso. apply Hnl.
           rewrite Ek2, <- Hc. apply elem_of_app. right. by left.
      * exists a, k2. by rewrite Ex, Ek2.
Qed.

(** After the trailing pass no trailing marker is left. *)
Lemma stripTrailing_clean T :
  includes (stripTrailingLogComments T) trailingCommentStart = false.
Proof.
  apply not_true_iff_false. intros H.
  apply includes_join_inv in H as (l' & Hl' & Hinc); [|done|compute_done].
  apply list_elem_of_fmap in Hl' as (l & -> & Hl).
  destruct (includes l trailingCommentStart) eqn:E.
  - by rewrite firstPiece_clean in Hinc.
  - congruence.
Qed.

(** The trailing pass creates no occurrence of a pattern without line
    break. *)
Lemma stripTrailing_preserves_absent T pat :
  pat <> [] -> 10 ∉ pat -> includes T pat = false ->
  includes (stripTrailingLogComments T) pat = false.
Proof.
  intros Hpat Hnl HT. apply not_true_iff_false. intros H.
  apply includes_join_inv in H as (l' & Hl' & Hinc); [|done..].
  apply list_elem_of_fmap in Hl' as (l & -> & Hl).
  pose proof (split_elem_includes _ _ _ pat nl_not_nil Hl HT) as Hlp.
  destruct (includes l trailingCommentStart); [|congruence].
  destruct (firstPiece_prefix l trailingCommentStart) as [r Hr]; [done|].
  apply includes_true in Hinc as (a & b & E).
  rewrite includes_false in Hlp. apply (Hlp a (b ++ r)).
  rewrite Hr at 1. rewrite E. by rewrite <- !app_assoc.
Qed.

Lemma scanLine_found chars depth :
  scanLine chars depth = inl tt -> chars <> [].
Proof. by destruct chars. Qed.

Lemma scanLines_Some rest i col depth j :
  scanLines rest i col depth = Some j ->
  (i <= j)%nat /\ exists l, rest !! (j - i)%nat = Some l /\ l <> [].
Proof.
  revert i col depth. induction rest as [|l rest IH]; intros i col depth; [done|].
  simpl. destruct (scanLine (drop col l) depth) as [[]|d'] eqn:E.
  - intros [= <-]. split; [lia|]. exists l. rewrite Nat.sub_diag.
    split; [done|]. apply scanLine_found in E. intros ->.
    by rewrite drop_nil in E.
  - intros (Hle & l' & Hl' & Hne)%IH. split; [lia|]. exists l'.
    replace (j - i)%nat with (S (j - S i)) by lia. done.
Qed.

(** The line on which a call ends exists and is not empty. *)
Lemma findCallEndLineIndex_line startLine startColumn lines index :
  findCallEndLineIndex startLine startColumn lines = Some index ->
  exists l, lines !! index = Some l /\ truthy l = true.
Proof.
  unfold findCallEndLineIndex.
  destruct (lineAt lines (startLine - 1)) as [l0|]; [|done].
  destruct (negb (truthy l0)); [done|].
  destruct (indexOf l0 [openParen] _) as [p|]; [|done].
  destruct (S p =? length l0)%nat.
  all: intros (Hle & l & Hl & Hne)%scanLines_Some.
  all: rewrite lookup_drop in Hl.
  all: exists l; split; [|by destruct l].
  all: rewrite <- Hl; f_equal; lia.
Qed.

Lemma mathMin_in xs :
  mathMin xs = Infinity \/ exists c, mathMin xs = Fin c /\ Fin c ∈ xs.
Proof.
  induction xs as [|x xs IH]; [by left|]. simpl.
  destruct x as [a|], IH as [E|(c & E & Hc)]; rewrite E; simpl.
  - right. exists a. split; [done | by left].
  - right. destruct (Z.min_spec a c) as [[_ ->]|[_ ->]].
    + exists a. split; [done | by left].
    + exists c. split; [done | by right].
  - by left.
  - right. exists c. split; [done | by right].
Qed.

Lemma mathMin_le xs c :
  Fin c ∈ xs -> exists c', mathMin xs = Fin c' /\ c' <= c.
Proof.
  induction xs as [|x xs IH]; [by intros ?%elem_of_nil|].
  intros [<-|Hin]%elem_of_cons; simpl.
  - destruct (mathMin xs) as [b|]; simpl; eexists; split; try done; lia.
  - destruct (IH Hin) as (c' & -> & Hle).
    destruct x as [a|]; simpl; eexists; split; try done; lia.
Qed.

Lemma mathMin_least xs m :
  Fin m ∈ xs -> (forall c, Fin c ∈ xs -> m <= c) -> mathMin xs = Fin m.
Proof.
  intros Hin Hleast. destruct (mathMin_le _ _ Hin) as (c' & E & Hle).
  destruct (mathMin_in xs) as [E'|(c & E' & Hc)]; [congruence|].
  rewrite E' in E. injection E as ->. apply Hleast in Hc.
  rewrite E'. f_equal. lia.
Qed.

Lemma columnOrInfinity_Fin entries c :
  Fin c ∈ map columnOrInfinity entries <->
  exists e, e ∈ entries /\ column e = Some c /\ c <> 0.
Proof.
  rewrite list_elem_of_fmap. unfold columnOrInfinity. split.
  - intros (e & He & Hin). exists e. split; [done|].
    destruct (column e) as [c'|]; [|done].
    destruct (Z.eqb_spec c' 0); [done|]. by injection He as ->.
  - intros (e & Hin & Hc & Hne). exists e. split; [|done].
    rewrite Hc. by destruct (Z.eqb_spec c 0).
Qed.

Lemma applyWrites_absorb ws i v lines :
  <[i := v]> (applyWrites ws (<[i := v]> lines)) = <[i := v]> (applyWrites ws lines).
Proof.
  revert lines. induction ws as [|[i' v'] ws IH]; intros lines; simpl.
  - apply list_insert_insert_eq.
  - destruct (decide (i' = i)) as [->|Hne].
    + by rewrite list_insert_insert_eq.
    + rewrite list_insert_insert_ne by done. apply IH.
Qed.

Lemma applyWrites_snoc ws w lines :
  applyWrites (ws ++ [w]) lines = <[w.1 := w.2]> (applyWrites ws lines).
Proof. unfold applyWrites. by rewrite fold_left_app. Qed.

Lemma applyWrites_idempotent ws lines :
  applyWrites ws (applyWrites ws lines) = applyWrites ws lines.
Proof.
  induction ws as [|w ws IH] using rev_ind; [done|].
  rewrite !applyWrites_snoc, applyWrites_absorb. by rewrite IH.
Qed.

(** ** The call-end search, on the text read as one sequence of code units *)

Lemma depthFrom_nil d : depthFrom d [] = d.
Proof. unfold depthFrom, countUnit. simpl. lia. Qed.

Lemma depthFrom_cons d c us :
  depthFrom d (c :: us) = depthFrom (stepDepth d c) us.
Proof.
  unfold depthFrom, countUnit, stepDepth. rewrite !filter_cons.
  destruct (Z.eqb_spec c openParen) as [->|Ho].
  - rewrite decide_True by done.
    rewrite (decide_False (P := openParen = closeParen)) by done.
    simpl length. lia.
  - rewrite (decide_False (P := c = openParen)) by done.
    destruct (Z.eqb_spec c closeParen) as [->|Hc].
    + rewrite decide_True by done. simpl length. lia.
    + rewrite decide_False by done. lia.
Qed.

Lemma scanLine_firstZero chars d i more :
  firstZero d (map (pair i) chars ++ more) =
    match scanLine chars d with
    | inl _ => Some i
    | inr d' => firstZero d' more
    end.
Proof.
  revert d. induction chars as [|c chars IH]; intros d; [done|].
  simpl. fold (stepDepth d c).
  destruct (stepDepth d c =? 0); [done | apply IH].
Qed.

Lemma scanLines_firstZero rest i col d :
  scanLines rest i col d =
    firstZero d
      match rest with
      | [] => []
      | l :: rest' => map (pair i) (drop col l) ++ unitsOfLines (S i) rest'
      end.
Proof.
  revert i col d. induction rest as [|l rest IH]; intros i col d; [done|].
  simpl. rewrite scanLine_firstZero.
  destruct (scanLine (drop col l) d) as [|d']; [done|].
  rewrite IH. by destruct rest.
Qed.

(** [firstZero] returns the line of the first unit after which the depth
    is 0. *)
Lemma firstZero_Some d units j :
  d <> 0 -> firstZero d units = Some j ->
  exists n u,
    units !! n = Some (j, u) /\
    depthFrom d (map snd (take (S n) units)) = 0 /\
    forall n', (n' <= n)%nat -> depthFrom d (map snd (take n' units)) <> 0.
Proof.
  revert d. induction units as [|[i c] units IH]; intros d Hd; [done|].
  simpl. destruct (Z.eqb_spec (stepDepth d c) 0) as [Hz|Hnz].
  - intros [= <-]. exists 0%nat, c. split; [done|]. split.
    + simpl. by rewrite depthFrom_cons, depthFrom_nil.
    + intros n' Hn'. replace n' with 0%nat by lia. by rewrite depthFrom_nil.
  - intros (n & u & Hn & Hz & Hmin)%IH; [|done]. exists (S n), u.
    split; [done|]. split.
    + simpl. by rewrite depthFrom_cons.
    + intros [|n'] Hn'; [by rewrite depthFrom_nil|]. simpl.
      rewrite depthFrom_cons. apply Hmin. lia.
Qed.

Lemma firstZero_None d units n :
  d <> 0 -> firstZero d units = None ->
  depthFrom d (map snd (take n units)) <> 0.
Proof.
  revert d n. induction units as [|[i c] units IH]; intros d n Hd.
  - intros _. by rewrite take_nil, depthFrom_nil.
  - simpl. destruct (Z.eqb_spec (stepDepth d c) 0) as [Hz|Hnz]; [done|].
    intros Hnone. destruct n as [|n]; [by rewrite depthFrom_nil|]. simpl.
    rewrite depthFrom_cons. by apply IH.
Qed.

Lemma startsWith_drop_unit (l : list Z) k c :
  startsWith (drop k l) [c] = true <-> l !! k = Some c.
Proof.
  rewrite <- (Nat.add_0_r k) at 2. rewrite <- lookup_drop.
  destruct (drop k l) as [|x r]; simpl; [done|].
  rewrite andb_true_r, Z.eqb_eq. split; [by intros -> | by intros [= ->]].
Qed.

(** Once the opening parenthesis is found at index [p] of the anchor
    line, the search is [firstZero] on the units that follow it. *)
Lemma findCallEndLineIndex_firstZero lineNumber anchor lines l p :
  lineAt lines (lineNumber - 1) = Some l ->
  indexOf l [openParen] (clampPosition anchor (length l)) = Some p ->
  findCallEndLineIndex lineNumber anchor lines =
    firstZero 1 (unitsAfter lines (Z.to_nat (lineNumber - 1)) (S p)).
Proof.
  intros Hl Hp. unfold findCallEndLineIndex. rewrite Hl.
  pose proof (indexOf_bound _ _ _ _ Hp) as Hb. simpl in Hb.
  destruct l as [|c0 l0] eqn:El; [simpl in Hb; lia|]. simpl negb. cbv iota.
  rewrite <- El in *. rewrite Hp.
  unfold lineAt in Hl. destruct (lineNumber - 1 <? 0); [done|].
  unfold unitsAfter.
  rewrite (drop_S _ _ _ Hl).
  destruct (Nat.eqb_spec (S p) (length l)) as [E|E].
  - rewrite scanLines_firstZero, E, drop_all. simpl.
    by destruct (drop (S (Z.to_nat (lineNumber - 1))) lines).
  - by rewrite scanLines_firstZero.
Qed.

(** ** Lines that carry a trailing comment without parentheses *)

(** The marker cannot start inside the original line and end in the
    comment that follows it. *)
Lemma firstPiece_annotated l0 r :
  includes l0 trailingCommentStart = false ->
  firstPiece (l0 ++ trailingCommentStart ++ r) trailingCommentStart = l0.
Proof.
  intros Hclean. rewrite firstPiece_spec by done.
  assert (E : indexOf (l0 ++ trailingCommentStart ++ r) trailingCommentStart 0
              = Some (length l0)).
  { apply indexOf_Some. split; [rewrite length_app; simpl; lia|].
    split; [by rewrite drop_app_length, startsWith_app|].
    intros k [_ Hk]. rewrite drop_app_le by lia.
    apply not_true_iff_false. intros Hm.
    rewrite includes_false in Hclean.
    assert (Hu : l0 = take k l0 ++ drop k l0) by (by rewrite take_drop).
    assert (Hlen : (0 < length (drop k l0))%nat) by (rewrite length_drop; lia).
    destruct (drop k l0) as [|a [|b [|c [|d [|e u]]]]]; simpl in Hlen; [lia|..].
    1-4: vm_compute in Hm; repeat case_match; done.
    apply (Hclean (take k l0) u). rewrite Hu at 1. f_equal.
    change ((a :: b :: c :: d :: e :: u) ++ trailingCommentStart ++ r)
      with (a :: b :: c :: d :: e :: (u ++ trailingCommentStart ++ r)) in Hm.
    apply startsWith_spec in Hm as [r' Hr]. by injection Hr as -> -> -> -> -> _. }
  by rewrite E, take_app_length.
Qed.

Lemma firstPiece_of_annotated l0 l :
  includes l0 trailingCommentStart = false ->
  annotated l0 l -> firstPiece l trailingCommentStart = l0.
Proof.
  intros Hclean [->|(r & _ & ->)].
  - by apply firstPiece_no_sep.
  - by apply firstPiece_annotated.
Qed.

Lemma indexOf_clamp s pat n :
  indexOf s pat (Nat.min n (length s)) = indexOf s pat n.
Proof. unfold indexOf. by rewrite <- Nat.min_assoc, Nat.min_id. Qed.

(** Text without the unit [x] after a line does not change where [x] is
    found in the line. *)
Lemma indexOf_unit_app l0 c x n :
  x ∉ c -> indexOf (l0 ++ c) [x] n = indexOf l0 [x] n.
Proof.
  intros Hx. destruct (indexOf l0 [x] n) as [p|] eqn:E.
  - pose proof (indexOf_bound _ _ _ _ E) as Hb. simpl in Hb.
    apply indexOf_Some in E as (Hle & Hm & Hmin).
    apply indexOf_Some. rewrite length_app. split; [lia|]. split.
    + apply startsWith_drop_unit. rewrite lookup_app_l by lia.
      by apply startsWith_drop_unit.
    + intros k Hk. apply not_true_iff_false.
      rewrite startsWith_drop_unit, lookup_app_l by lia.
      rewrite <- startsWith_drop_unit, Hmin; [done | lia].
  - rewrite indexOf_None in E. apply indexOf_None.
    intros k Hk. apply not_true_iff_false. rewrite startsWith_drop_unit.
    rewrite length_app in Hk.
    destruct (decide (k < length l0)%nat) as [Hlt|Hge].
    + rewrite lookup_app_l by done.
      rewrite <- startsWith_drop_unit, E; [done | lia].
    + rewrite lookup_app_r by lia. intros Hc. apply Hx.
      apply list_elem_of_lookup. eauto.
Qed.

Lemma indexOf_at_end s x : indexOf s [x] (length s) = None.
Proof.
  destruct (indexOf s [x] (length s)) as [p|] eqn:E; [|done].
  pose proof (indexOf_bound _ _ _ _ E) as Hb.
  apply indexOf_Some in E as (Hle & _). simpl in Hb. lia.
Qed.

Lemma comment_no_openParen r :
  openParen ∉ r -> openParen ∉ trailingCommentStart ++ r.
Proof.
  intros Hr [H|H]%elem_of_app; [|done]. revert H. compute_done.
Qed.

Lemma comment_no_closeParen r :
  closeParen ∉ r -> closeParen ∉ trailingCommentStart ++ r.
Proof.
  intros Hr [H|H]%elem_of_app; [|done]. revert H. compute_done.
Qed.

Lemma openParen_annotated l0 l anchor :
  annotated l0 l ->
  indexOf l [openParen] (clampPosition anchor (length l)) =
  indexOf l0 [openParen] (clampPosition anchor (length l0)).
Proof.
  intros [->|(r & (Hn & Ho & Hc) & ->)]; [done|].
  pose proof (comment_no_openParen r Ho) as Hx.
  destruct anchor as [z|]; simpl.
  - by rewrite !indexOf_clamp, indexOf_unit_app.
  - by rewrite !indexOf_at_end.
Qed.

Lemma firstZero_skip d i c more :
  d <> 0 -> openParen ∉ c -> closeParen ∉ c ->
  firstZero d (map (pair i) c ++ more) = firstZero d more.
Proof.
  intros Hd. induction c as [|x c IH]; [done|].
  intros [Ho Hoc]%not_elem_of_cons [Hc Hcc]%not_elem_of_cons. simpl.
  unfold stepDepth.
  destruct (Z.eqb_spec x openParen); [done|].
  destruct (Z.eqb_spec x closeParen); [done|].
  destruct (Z.eqb_spec d 0); [done|]. by apply IH.
Qed.

Lemma firstZero_app_cong d us more more' :
  (forall d', d' <> 0 -> firstZero d' more = firstZero d' more') ->
  d <> 0 -> firstZero d (us ++ more) = firstZero d (us ++ more').
Proof.
  intros Hmore. revert d. induction us as [|[i x] us IH]; intros d Hd; simpl.
  - by apply Hmore.
  - destruct (Z.eqb_spec (stepDepth d x) 0); [done | by apply IH].
Qed.

(** Trailing comments without parentheses do not change the scan. *)
Lemma firstZero_annotated d i rest0 rest :
  Forall2 annotated rest0 rest -> d <> 0 ->
  firstZero d (unitsOfLines i rest) = firstZero d (unitsOfLines i rest0).
Proof.
  intros Hall. revert d i. induction Hall as [|l0 l rest0 rest Hl _ IH];
    intros d i Hd; [done|].
  simpl. destruct Hl as [->|(r & (Hn & Ho & Hc) & ->)].
  - apply firstZero_app_cong; [|done]. intros d' Hd'. by apply IH.
  - rewrite map_app, <- app_assoc. apply firstZero_app_cong; [|done].
    intros d' Hd'. rewrite firstZero_skip; [by apply IH|done|..].
    + by apply comment_no_openParen.
    + by apply comment_no_closeParen.
Qed.

Lemma lineAt_annotated lines0 lines index :
  Forall2 annotated lines0 lines ->
  match lineAt lines0 index with
  | Some l0 => exists l, lineAt lines index = Some l /\ annotated l0 l
  | None => lineAt lines index = None
  end.
Proof.
  intros Hall. unfold lineAt. destruct (index <? 0); [done|].
  destruct (lines0 !! Z.to_nat index) as [l0|] eqn:E.
  - by eapply Forall2_lookup_l.
  - apply lookup_ge_None. apply lookup_ge_None in E.
    apply Forall2_length in Hall. lia.
Qed.

(** The call-end search gives the same line on the annotated lines as on
    the original ones. *)
Lemma findCallEndLineIndex_annotated lineNumber anchor lines0 lines :
  Forall2 annotated lines0 lines ->
  findCallEndLineIndex lineNumber anchor lines =
  findCallEndLineIndex lineNumber anchor lines0.
Proof.
  intros Hall. pose proof (lineAt_annotated _ _ (lineNumber - 1) Hall) as Hat.
  destruct (lineAt lines0 (lineNumber - 1)) as [l0|] eqn:El0.
  - destruct Hat as (l & El & Hl).
    pose proof (openParen_annotated l0 l anchor Hl) as Eidx.
    destruct (indexOf l0 [openParen] _) as [p|] eqn:Ep0.
    + rewrite (findCallEndLineIndex_firstZero _ _ _ _ _ El Eidx).
      rewrite (findCallEndLineIndex_firstZero _ _ _ _ _ El0 Ep0).
      pose proof (indexOf_bound _ _ _ _ Ep0) as Hb. simpl in Hb.
      unfold lineAt in El, El0. destruct (lineNumber - 1 <? 0); [done|].
      unfold unitsAfter. rewrite (drop_S _ _ _ El), (drop_S _ _ _ El0).
      assert (Hrest : forall d, d <> 0 ->
        firstZero d (unitsOfLines (S (Z.to_nat (lineNumber - 1)))
                       (drop (S (Z.to_nat (lineNumber - 1))) lines)) =
        firstZero d (unitsOfLines (S (Z.to_nat (lineNumber - 1)))
                       (drop (S (Z.to_nat (lineNumber - 1))) lines0))).
      { intros d Hd. apply firstZero_annotated; [|done]. by apply Forall2_drop. }
      destruct Hl as [->|(r & (Hn & Ho & Hc) & ->)].
      * by apply firstZero_app_cong.
      * rewrite drop_app_le by lia. rewrite map_app, <- app_assoc.
        apply firstZero_app_cong; [|done]. intros d Hd.
        rewrite firstZero_skip; [by apply Hrest | done | ..].
        -- by apply comment_no_openParen.
        -- by apply comment_no_closeParen.
    + unfold findCallEndLineIndex. rewrite El, El0, Eidx, Ep0.
      by destruct (negb (truthy l)), (negb (truthy l0)).
  - unfold findCallEndLineIndex. by rewrite Hat, El0.
Qed.

Lemma plain_join_no_unit x entries :
  x ∉ js ", " -> Forall (fun e => x ∉ result e) entries ->
  x ∉ js " " ++ join (js ", ") (map result entries).
Proof.
  intros Hsep Hall [H|H]%elem_of_app.
  - apply list_elem_of_singleton in H. subst x. apply Hsep. compute_done.
  - apply elem_of_join in H as [H|(r & Hr & Hx)]; [done|].
    apply list_elem_of_fmap in Hr as (e & -> & He).
    rewrite Forall_forall in Hall. apply list_elem_of_In in He.
    exact (Hall e He Hx).
Qed.

Lemma applyGroup_annotated marker lines0 lines group :
  Forall (fun l0 => includes l0 trailingCommentStart = false) lines0 ->
  Forall2 annotated lines0 lines ->
  Forall plainResult group.2 ->
  applyGroup marker lines group =
    match groupWrite lines0 group with
    | Some w => <[w.1 := w.2]> lines
    | None => lines
    end /\
  Forall2 annotated lines0 (applyGroup marker lines group).
Proof.
  intros Hclean Hall Hplain. destruct group as [k es]. simpl in Hplain.
  unfold applyGroup, groupWrite. simpl fst. simpl snd.
  rewrite (findCallEndLineIndex_annotated _ _ lines0 lines Hall).
  destruct (findCallEndLineIndex k (leftMostColumn es) lines0) as [i|] eqn:Ef;
    [|done].
  destruct (findCallEndLineIndex_line _ _ _ _ Ef) as (l0 & El0 & Ht0).
  destruct (Forall2_lookup_l _ _ _ _ _ Hall El0) as (l & El & Hl).
  rewrite El, El0.
  assert (Ht : truthy l = true).
  { destruct Hl as [->|(r & _ & ->)]; [done|]. by destruct l0. }
  rewrite Ht. simpl negb. cbv iota.
  assert (Hex : existsb (fun e => includes (result e) nl) es = false).
  { apply not_true_iff_false. intros (e & Hin & He)%existsb_exists.
    rewrite Forall_forall in Hplain.
    apply includes_unit in He. by destruct (Hplain e Hin) as (Hn & _). }
  rewrite Hex.
  assert (Hc0 : includes l0 trailingCommentStart = false).
  { rewrite Forall_forall in Hclean.
    eapply Hclean, list_elem_of_In, list_elem_of_lookup_2, El0. }
  rewrite (firstPiece_of_annotated _ _ Hc0 Hl).
  split; [done|].
  rewrite <- (list_insert_id lines0 i l0 El0) at 1.
  apply Forall2_insert; [done|]. right.
  exists (js " " ++ join (js ", ") (map result es)).
  split; [|done]. split; [|split].
  - apply plain_join_no_unit; [compute_done|].
    eapply Forall_impl; [|exact Hplain]. by intros e (? & _ & _).
  - apply plain_join_no_unit; [compute_done|].
    eapply Forall_impl; [|exact Hplain]. by intros e (_ & ? & _).
  - apply plain_join_no_unit; [compute_done|].
    eapply Forall_impl; [|exact Hplain]. by intros e (_ & _ & ?).
Qed.

Lemma fold_applyGroup_annotated marker lines0 groups lines :
  Forall (fun l0 => includes l0 trailingCommentStart = false) lines0 ->
  Forall2 annotated lines0 lines ->
  Forall (fun group => Forall plainResult group.2) groups ->
  fold_left (applyGroup marker) groups lines =
    applyWrites (omap (groupWrite lines0) groups) lines /\
  Forall2 annotated lines0 (fold_left (applyGroup marker) groups lines).
Proof.
  intros Hclean Hall Hplain. revert lines Hall.
  induction Hplain as [|group groups Hg _ IH]; intros lines Hall; [done|].
  destruct (applyGroup_annotated marker _ _ _ Hclean Hall Hg) as [E Hall'].
  simpl. destruct (IH _ Hall') as [E' Hall'']. split; [|done].
  rewrite E'. rewrite E. by destruct (groupWrite lines0 group).
Qed.

(** The lines of such a run hold no line break and differ from a marker
    that is not a line of the text and holds no trailing marker. *)
Lemma annotated_no_nl lines0 lines :
  Forall (fun l0 => 10 ∉ l0) lines0 -> Forall2 annotated lines0 lines ->
  Forall (fun l => 10 ∉ l) lines.
Proof.
  intros Hnl Hall. induction Hall as [|l0 l lines0 lines Hl _ IH]; [done|].
  inversion Hnl as [|? ? Hl0 Hrest]; subst. constructor; [|by apply IH].
  destruct Hl as [->|(r & (Hn & _ & _) & ->)]; [done|].
  intros [H|[H|H]%elem_of_app]%elem_of_app; [done| |done].
  revert H. compute_done.
Qed.

Lemma annotated_fresh (marker : list Z) lines0 lines :
  marker ∉ lines0 -> includes marker trailingCommentStart = false ->
  Forall2 annotated lines0 lines -> marker ∉ lines.
Proof.
  intros Hfresh Hm Hall. induction Hall as [|l0 l lines0 lines Hl _ IH];
    [apply not_elem_of_nil|].
  apply not_elem_of_cons in Hfresh as [Hne Hfresh].
  apply not_elem_of_cons. split; [|by apply IH].
  destruct Hl as [->|(r & _ & ->)]; [done|]. intros ->.
  rewrite includes_false in Hm. by apply (Hm l0 r).
Qed.

Lemma pushEntry_Forall (P : LogEntry -> Prop) k e obj :
  P e -> Forall (fun group => Forall P group.2) obj ->
  Forall (fun group => Forall P group.2) (pushEntry k e obj).
Proof.
  intros He. induction 1 as [|[k' es] obj Hes Hobj IH]; simpl.
  - by repeat constructor.
  - destruct (k =? k').
    + constructor; [|done]. simpl. apply Forall_app. by repeat constructor.
    + destruct (isArrayIndex k && _).
      * by repeat constructor.
      * by constructor.
Qed.

Lemma groupByLine_Forall (P : LogEntry -> Prop) entries :
  Forall P entries ->
  Forall (fun group => Forall P group.2) (groupByLine entries).
Proof.
  intros Hall. unfold groupByLine.
  assert (Hgen : forall obj,
    Forall (fun group => Forall P group.2) obj ->
    Forall (fun group => Forall P group.2)
      (fold_left (fun obj e => pushEntry (line e) e obj) entries obj)).
  { induction Hall as [|e entries He _ IH]; intros obj Hobj; [done|].
    simpl. apply IH. by apply pushEntry_Forall. }
  by apply Hgen.
Qed.

End RewriteFacts.

(** * The claims about the rewrite engine *)

Section RewriteClaims.

Import Rewrite.

(** C10: applying an empty entry set gives the text back, byte for byte.
    The marker drawn by [randomUUID()] for the run is assumed fresh: it is
    not one of the lines of the text. *)
Theorem apply_no_entries clearLineMarker content :
  clearLineMarker ∉ split content nl ->
  applyLogEntriesToFileContent clearLineMarker content [] = content.
Proof.
  intros Hfresh. unfold applyLogEntriesToFileContent. simpl.
  rewrite filter_fresh by done. apply join_split, nl_not_nil.
Qed.

Lemma apply_no_entries_witness :
  (exampleMarker ∉ split (js "f(1)" ++ nl ++ js "g(2) //=> 2") nl) /\
  applyLogEntriesToFileContent exampleMarker
    (js "f(1)" ++ nl ++ js "g(2) //=> 2") []
  = js "f(1)" ++ nl ++ js "g(2) //=> 2".
Proof.
  assert (H : exampleMarker ∉ split (js "f(1)" ++ nl ++ js "g(2) //=> 2") nl)
    by compute_done.
  split; [exact H | exact (apply_no_entries _ _ H)].
Defined.

(** C9, as the code has it: [strip] is the identity on a text that holds
    neither marker, and stripping twice is stripping once on every text
    that holds no block-open marker (the trailing pass leaves no trailing
    marker behind and creates no block-open marker). *)
Theorem strip_identity_and_idempotent T :
  (includes T trailingCommentStart = false ->
   includes T multiLineCommentStart = false ->
   stripLogEntriesFromFileContent T = T) /\
  (includes T multiLineCommentStart = false ->
   stripLogEntriesFromFileContent (stripLogEntriesFromFileContent T)
   = stripLogEntriesFromFileContent T).
Proof.
  assert (Hid : forall T',
    includes T' trailingCommentStart = false ->
    includes T' multiLineCommentStart = false ->
    stripLogEntriesFromFileContent T' = T').
  { intros T' H1 H2. unfold stripLogEntriesFromFileContent.
    rewrite stripTrailing_id by done. by apply stripMulti_id. }
  split; [apply Hid|]. intros Hblock.
  assert (Hnb : includes (stripTrailingLogComments T) multiLineCommentStart = false).
  { apply stripTrailing_preserves_absent; [done|compute_done|done]. }
  assert (E : stripLogEntriesFromFileContent T = stripTrailingLogComments T).
  { unfold stripLogEntriesFromFileContent. by apply stripMulti_id. }
  rewrite E. apply Hid; [apply stripTrailing_clean | done].
Qed.

Lemma strip_identity_and_idempotent_witness :
  stripLogEntriesFromFileContent (js "f(1)" ++ nl ++ js "g(2)")
    = js "f(1)" ++ nl ++ js "g(2)" /\
  stripLogEntriesFromFileContent
    (stripLogEntriesFromFileContent (js "f(1) //=> 1" ++ nl ++ js "g(2)"))
    = stripLogEntriesFromFileContent (js "f(1) //=> 1" ++ nl ++ js "g(2)").
Proof.
  split.
  - apply (proj1 (strip_identity_and_idempotent _)); reflexivity.
  - apply (proj2 (strip_identity_and_idempotent _)); reflexivity.
Defined.

(** C9 as stated fails: removing a block can splice a trailing marker
    together, which a second [strip] then removes. *)
Lemma strip_not_idempotent :
  let T := js "x ///*=> " ++ nl ++ js "*/" ++ nl ++ js "=> y" in
  stripLogEntriesFromFileContent T = js "x //=> y" /\
  stripLogEntriesFromFileContent (stripLogEntriesFromFileContent T) = js "x" /\
  stripLogEntriesFromFileContent (stripLogEntriesFromFileContent T)
    <> stripLogEntriesFromFileContent T.
Proof. split; [|split]; [reflexivity | reflexivity | by vm_compute]. Qed.

(** C2: stripping after applying does not give the stripped text back
    when the annotated call ends on the last line: the block is closed by
    [*/] with no line break after it, which [stripMultiLineLogComments]
    does not recognise as the end of a block. *)
Theorem strip_after_apply_last_line clearLineMarker :
  length clearLineMarker = 36%nat ->
  let T := js "f(1)" in
  let E := [entryAt 1 (Some 1) (js "a" ++ nl ++ js "b")] in
  stripLogEntriesFromFileContent T = T /\
  stripLogEntriesFromFileContent
    (applyLogEntriesToFileContent clearLineMarker
       (stripLogEntriesFromFileContent T) E)
  = js "f(1)" ++ nl ++ js "/*=> a" ++ nl ++ js "     b" ++ nl ++ js "*/".
Proof.
  intros Hlen T E. split; [reflexivity|].
  change (stripLogEntriesFromFileContent T) with T.
  unfold applyLogEntriesToFileContent.
  set (lines := fold_left _ _ _).
  assert (Hlines : lines =
    [js "f(1)" ++ nl ++ js "/*=> a" ++ nl ++ js "     b" ++ nl ++ js "*/"])
    by reflexivity.
  rewrite Hlines, filter_fresh; [reflexivity|].
  intros ->%list_elem_of_singleton. vm_compute in Hlen. discriminate.
Qed.

Lemma strip_after_apply_last_line_witness :
  stripLogEntriesFromFileContent (js "f(1)") = js "f(1)" /\
  stripLogEntriesFromFileContent
    (applyLogEntriesToFileContent exampleMarker
       (stripLogEntriesFromFileContent (js "f(1)"))
       [entryAt 1 (Some 1) (js "a" ++ nl ++ js "b")])
  = js "f(1)" ++ nl ++ js "/*=> a" ++ nl ++ js "     b" ++ nl ++ js "*/".
Proof. exact (strip_after_apply_last_line exampleMarker eq_refl). Defined.

(** On an indented line the indentation written before the block stays
    behind and moves onto the next line. *)
Example strip_after_apply_indented :
  let T := js "  f(1)" ++ nl ++ js "g(2)" in
  let E := [entryAt 1 (Some 3) (js "a" ++ nl ++ js "b")] in
  stripLogEntriesFromFileContent T = T /\
  stripLogEntriesFromFileContent
    (applyLogEntriesToFileContent exampleMarker
       (stripLogEntriesFromFileContent T) E)
  = js "  f(1)" ++ nl ++ js "  g(2)".
Proof. split; reflexivity. Qed.

(** C7: when no result of a group holds a line break, the group becomes
    one trailing comment on the line where the call ends, the results
    joined by a comma and a space; the example of the specification is
    rewritten as it says. *)
Theorem trailing_form clearLineMarker lines lineNumber entries index :
  findCallEndLineIndex lineNumber (leftMostColumn entries) lines = Some index ->
  (forall e, e ∈ entries -> includes (result e) nl = false) ->
  (exists line,
     lines !! index = Some line /\
     applyGroup clearLineMarker lines (lineNumber, entries) =
       <[index := firstPiece line trailingCommentStart ++ js " //=> " ++
                  join (js ", ") (map result entries)]> lines) /\
  (forall marker, length marker = 36%nat ->
     applyLogEntriesToFileContent marker
       (js "p(['Hello','world'].join(', '))")
       [mkLogEntry (js "/proj/a.js") 1 (Some 1)
          ([dquote] ++ js "Hello, world" ++ [dquote])]
     = js "p(['Hello','world'].join(', ')) //=> " ++
       [dquote] ++ js "Hello, world" ++ [dquote]).
Proof.
  intros Hfind Hsingle. split.
  - destruct (findCallEndLineIndex_line _ _ _ _ Hfind) as (line & Hline & Ht).
    exists line. split; [done|]. unfold applyGroup.
    rewrite Hfind, Hline, Ht. simpl negb. cbv iota.
    assert (Hex : existsb (fun e => includes (result e) nl) entries = false).
    { apply not_true_iff_false. intros (e & Hin & He)%existsb_exists.
      apply list_elem_of_In in Hin. by rewrite Hsingle in He. }
    rewrite Hex. reflexivity.
  - intros marker Hlen. unfold applyLogEntriesToFileContent.
    set (lines' := fold_left _ _ _).
    assert (Hlines : lines' =
      [js "p(['Hello','world'].join(', ')) //=> " ++
       [dquote] ++ js "Hello, world" ++ [dquote]]) by reflexivity.
    rewrite Hlines, filter_fresh; [reflexivity|].
    intros ->%list_elem_of_singleton. vm_compute in Hlen. discriminate.
Qed.

Lemma trailing_form_witness :
  let lines := [js "const s = twice("; js "  p(1), p(2))"] in
  let entries := [entryAt 1 (Some 11) (js "2"); entryAt 1 (Some 11) (js "4")] in
  exists line,
    lines !! 1%nat = Some line /\
    applyGroup exampleMarker lines (1, entries) =
      <[1%nat := firstPiece line trailingCommentStart ++ js " //=> " ++
                 join (js ", ") (map result entries)]> lines.
Proof.
  intros lines entries.
  refine (proj1 (trailing_form exampleMarker lines 1 entries 1 eq_refl _)).
  intros e He. repeat (apply elem_of_cons in He as [->|He]; [reflexivity|]).
  by apply elem_of_nil in He.
Defined.

(** C4, as the code has it: the anchor column is the least column among
    the entries whose column is known and not 0, raised to 1 when it is
    below 1; when no entry has such a column the anchor is [Infinity], no
    parenthesis is found from there and the group is left out. *)
Theorem anchor_column entries :
  (forall m,
     (exists e, e ∈ entries /\ column e = Some m /\ m <> 0) ->
     (forall e c, e ∈ entries -> column e = Some c -> c <> 0 -> m <= c) ->
     leftMostColumn entries = Fin (Z.max 1 m)) /\
  ((forall e, e ∈ entries -> column e = None \/ column e = Some 0) ->
   leftMostColumn entries = Infinity /\
   forall clearLineMarker lineNumber lines,
     applyGroup clearLineMarker lines (lineNumber, entries) = lines).
Proof.
  split.
  - intros m Hm Hleast. unfold leftMostColumn.
    rewrite (mathMin_least _ m); [done| |].
    + by apply columnOrInfinity_Fin.
    + intros c (e & Hin & Hc & Hne)%columnOrInfinity_Fin. eauto.
  - intros Hnone.
    assert (E : leftMostColumn entries = Infinity).
    { unfold leftMostColumn.
      destruct (mathMin_in (map columnOrInfinity entries))
        as [->|(c & _ & (e & Hin & Hc & Hne)%columnOrInfinity_Fin)]; [done|].
      destruct (Hnone e Hin); congruence. }
    split; [done|]. intros marker lineNumber lines.
    unfold applyGroup. rewrite E.
    assert (Hf : findCallEndLineIndex lineNumber Infinity lines = None).
    { unfold findCallEndLineIndex.
      destruct (lineAt lines (lineNumber - 1)) as [l|]; [|done].
      destruct (negb (truthy l)); [done|].
      destruct (indexOf l [openParen] _) as [j|] eqn:Ej; [|done].
      pose proof (indexOf_bound _ _ _ _ Ej) as Hb.
      apply indexOf_Some in Ej as (Hl & _). simpl in Hb, Hl. lia. }
    by rewrite Hf.
Qed.

Lemma anchor_column_witness :
  leftMostColumn
    [entryAt 3 None (js "a"); entryAt 3 (Some 9) (js "b");
     entryAt 3 (Some 5) (js "c"); entryAt 3 (Some 0) (js "d")] = Fin 5 /\
  applyGroup exampleMarker [js "f(1)"] (1, [entryAt 1 None (js "a")]) = [js "f(1)"].
Proof.
  split.
  - refine (proj1 (anchor_column _) 5 _ _).
    + exists (entryAt 3 (Some 5) (js "c")). split; [|done].
      do 2 right. by left.
    + intros e c He Hc Hne.
      repeat (apply elem_of_cons in He as [->|He];
              [simpl in Hc; try discriminate Hc; injection Hc as <-; lia|]).
      by apply elem_of_nil in He.
  - refine (proj2 (proj2 (anchor_column _) _) _ _ _).
    intros e He. apply list_elem_of_singleton in He as ->. by left.
Defined.

(** C4 as stated fails where no entry of the group has a known column:
    the anchor column is not 1 but [Infinity], and a call that an anchor
    of 1 would find is left without annotation. *)
Lemma anchor_column_unknown_not_1 :
  let entries := [entryAt 1 None (js "a")] in
  leftMostColumn entries = Infinity /\
  leftMostColumn entries <> Fin 1 /\
  findCallEndLineIndex 1 (Fin 1) [js "f(1)"] = Some 0%nat /\
  applyLogEntriesToFileContent exampleMarker (js "f(1)") entries = js "f(1)".
Proof. repeat split; done. Qed.

(** C6: the call-end search.  When the anchor line is missing or holds
    no opening parenthesis at or after the anchor position, nothing is
    found.  Otherwise, from just past the first such parenthesis, the
    search reads the rest of the text across the lines with the depth
    starting at 1 and returns the line of the first unit after which the
    depth is 0; it finds nothing when the text ends before that.  A group
    for which nothing is found leaves the lines as they are. *)
Theorem call_end_search lineNumber anchor lines :
  let index := lineNumber - 1 in
  let found := findCallEndLineIndex lineNumber anchor lines in
  (lineAt lines index = None -> found = None) /\
  (forall l,
     lineAt lines index = Some l ->
     (forall k, (clampPosition anchor (length l) <= k)%nat ->
                l !! k <> Some openParen) ->
     found = None) /\
  (forall l p,
     lineAt lines index = Some l ->
     (clampPosition anchor (length l) <= p)%nat ->
     l !! p = Some openParen ->
     (forall k, (clampPosition anchor (length l) <= k < p)%nat ->
                l !! k <> Some openParen) ->
     let units := unitsAfter lines (Z.to_nat index) (S p) in
     (forall j,
        found = Some j <->
        exists n u,
          units !! n = Some (j, u) /\
          depthAfter (map snd (take (S n) units)) = 0 /\
          forall n', (n' <= n)%nat ->
                     depthAfter (map snd (take n' units)) <> 0) /\
     (found = None <->
      forall n, depthAfter (map snd (take n units)) <> 0)) /\
  (found = None ->
   forall clearLineMarker entries,
     leftMostColumn entries = anchor ->
     applyGroup clearLineMarker lines (lineNumber, entries) = lines).
Proof.
  intros index found. split; [|split; [|split]].
  - intros Hl. unfold found, findCallEndLineIndex. fold index. by rewrite Hl.
  - intros l Hl Hno. unfold found, findCallEndLineIndex. fold index.
    rewrite Hl. destruct (negb (truthy l)); [done|].
    destruct (indexOf l [openParen] _) as [p|] eqn:Ep; [|done].
    apply indexOf_Some in Ep as (Hle & Hm%startsWith_drop_unit & _).
    exfalso. apply (Hno p); [|done].
    pose proof (Nat.le_min_r (clampPosition anchor (length l)) (length l)).
    destruct anchor; simpl in *; lia.
  - intros l p Hl Hle Hp Hfirst units.
    assert (Hclamp : Nat.min (clampPosition anchor (length l)) (length l)
                     = clampPosition anchor (length l)).
    { destruct anchor; simpl; lia. }
    assert (Ep : indexOf l [openParen] (clampPosition anchor (length l)) = Some p).
    { apply indexOf_Some. rewrite Hclamp. split.
      - apply lookup_lt_Some in Hp. lia.
      - split; [by apply startsWith_drop_unit|].
        intros k Hk. apply not_true_iff_false.
        rewrite startsWith_drop_unit. by apply Hfirst. }
    assert (Ef : found = firstZero 1 units)
      by exact (findCallEndLineIndex_firstZero _ _ _ _ _ Hl Ep).
    assert (Hsome : forall j, found = Some j ->
      exists n u, units !! n = Some (j, u) /\
        depthAfter (map snd (take (S n) units)) = 0 /\
        forall n', (n' <= n)%nat -> depthAfter (map snd (take n' units)) <> 0).
    { intros j Hj. rewrite Ef in Hj. by apply firstZero_Some in Hj. }
    assert (Hnone : found = None ->
      forall n, depthAfter (map snd (take n units)) <> 0).
    { intros Hn n. rewrite Ef in Hn. by apply firstZero_None. }
    split.
    + intros j. split; [apply Hsome|].
      intros (n & u & Hn & Hz & Hmin).
      destruct found as [j'|] eqn:Efound.
      * destruct (Hsome j' eq_refl) as (n' & u' & Hn' & Hz' & Hmin').
        destruct (Nat.lt_trichotomy n n') as [Hlt|[->|Hgt]].
        -- exfalso. by apply (Hmin' (S n)); [lia|].
        -- rewrite Hn in Hn'. by injection Hn' as ->.
        -- exfalso. by apply (Hmin (S n')); [lia|].
      * exfalso. by apply (Hnone eq_refl (S n)).
    + split; [apply Hnone|]. intros Hall.
      destruct found as [j'|] eqn:Efound; [|done].
      destruct (Hsome j' eq_refl) as (n' & u' & _ & Hz' & _).
      by apply Hall in Hz'.
  - intros Hnone marker entries Hanchor. unfold applyGroup.
    rewrite Hanchor. fold found. by rewrite Hnone.
Qed.

(** C1, as the code has it: on a text without trailing markers (what the
    watcher passes to [apply], and what [strip] returns on a text without
    blocks) and for entries whose results hold neither a line break nor a
    parenthesis, applying the entries a second time changes nothing.  The
    markers drawn by [randomUUID()] in the two runs are assumed fresh:
    they are no line of the text and contain no trailing marker. *)
Theorem apply_twice_trailing marker1 marker2 S E :
  includes S trailingCommentStart = false ->
  Forall plainResult E ->
  marker1 ∉ split S nl -> includes marker1 trailingCommentStart = false ->
  marker2 ∉ split S nl -> includes marker2 trailingCommentStart = false ->
  applyLogEntriesToFileContent marker2
    (applyLogEntriesToFileContent marker1 S E) E
  = applyLogEntriesToFileContent marker1 S E.
Proof.
  intros HS HE Hf1 Hm1 Hf2 Hm2.
  set (lines0 := split S nl) in *.
  assert (Hclean : Forall (fun l0 => includes l0 trailingCommentStart = false)
                     lines0).
  { apply Forall_forall. intros l Hl%list_elem_of_In.
    by apply (split_elem_includes _ _ _ _ nl_not_nil Hl). }
  assert (Hnl : Forall (fun l0 => 10 ∉ l0) lines0).
  { apply Forall_forall. intros l Hl%list_elem_of_In.
    by apply (split_unit_pieces 10 S). }
  assert (Hrefl : Forall2 annotated lines0 lines0).
  { apply Forall_Forall2_diag, Forall_forall. intros l _. by left. }
  pose proof (groupByLine_Forall plainResult E HE) as HG.
  set (W := omap (groupWrite lines0) (groupByLine E)).
  destruct (fold_applyGroup_annotated marker1 _ _ _ Hclean Hrefl HG)
    as [E1 Hann1].
  assert (Hrun1 : applyLogEntriesToFileContent marker1 S E
                  = join nl (applyWrites W lines0)).
  { unfold applyLogEntriesToFileContent. fold lines0. rewrite E1.
    rewrite filter_fresh; [done|]. rewrite E1 in Hann1.
    by apply (annotated_fresh _ lines0). }
  rewrite Hrun1. rewrite E1 in Hann1. fold W in Hann1.
  unfold applyLogEntriesToFileContent at 1.
  rewrite (split_join_unit 10).
  - destruct (fold_applyGroup_annotated marker2 _ _ _ Hclean Hann1 HG)
      as [E2 Hann2].
    fold W in E2. rewrite applyWrites_idempotent in E2.
    rewrite E2. rewrite filter_fresh; [done|].
    by apply (annotated_fresh _ lines0).
  - intros Hnil. apply (split_not_nil S nl), nil_length_inv.
    apply Forall2_length in Hann1. by rewrite Hnil in Hann1.
  - by apply (annotated_no_nl lines0).
Qed.

Lemma apply_twice_trailing_witness :
  let S := stripLogEntriesFromFileContent
             (js "const s = p(1) //=> 0" ++ nl ++ js "p(s + s)") in
  let E := [entryAt 1 (Some 11) (js "1"); entryAt 2 (Some 1) (js "2")] in
  applyLogEntriesToFileContent exampleMarker S E
    = js "const s = p(1) //=> 1" ++ nl ++ js "p(s + s) //=> 2" /\
  applyLogEntriesToFileContent exampleMarker
    (applyLogEntriesToFileContent exampleMarker S E) E
  = applyLogEntriesToFileContent exampleMarker S E.
Proof.
  intros S E. split; [reflexivity|].
  apply apply_twice_trailing; [reflexivity| |compute_done|reflexivity
                              |compute_done|reflexivity].
  repeat constructor; compute_done.
Defined.

(** C1 as stated fails: a block written for one call moves the lines
    below it, so on the second run an entry for a later line meets
    another call. *)
Lemma apply_twice_differs :
  let T := js "f(1)" ++ nl ++ js "g(2)" ++ nl ++ js "x" ++ nl ++ js "y" ++ nl
           ++ js "h(3)" in
  let E := [entryAt 1 (Some 1) (js "a" ++ nl ++ js "b");
            entryAt 5 (Some 1) (js "c")] in
  let once :=
    applyLogEntriesToFileContent exampleMarker
      (stripLogEntriesFromFileContent T) E in
  let twice := applyLogEntriesToFileContent exampleMarker once E in
  once = js "f(1)" ++ nl ++ js "/*=> a" ++ nl ++ js "     b" ++ nl ++ js "*/"
         ++ nl ++ js "g(2)" ++ nl ++ js "x" ++ nl ++ js "y" ++ nl
         ++ js "h(3) //=> c" /\
  twice = js "f(1)" ++ nl ++ js "/*=> a" ++ nl ++ js "     b" ++ nl ++ js "*/"
          ++ nl ++ js "g(2) //=> c" ++ nl ++ js "x" ++ nl ++ js "y" ++ nl
          ++ js "h(3) //=> c" /\
  twice <> once.
Proof. split; [|split]; [reflexivity | reflexivity | by vm_compute]. Qed.

(** A parenthesis in a result also breaks it, without any block: the
    comment written for line 2 is read by the scan that starts on line 1. *)
Example apply_twice_parenthesis_differs :
  let T := js "f(" ++ nl ++ js " g(2)" ++ nl ++ js ")" ++ nl ++ js "h)" in
  let E := [entryAt 1 (Some 1) (js "A"); entryAt 2 (Some 1) (js "(")] in
  let once := applyLogEntriesToFileContent exampleMarker T E in
  let twice := applyLogEntriesToFileContent exampleMarker once E in
  stripLogEntriesFromFileContent T = T /\
  once = js "f(" ++ nl ++ js " g(2) //=> (" ++ nl ++ js ") //=> A" ++ nl
         ++ js "h)" /\
  twice = js "f(" ++ nl ++ js " g(2) //=> (" ++ nl ++ js ") //=> A" ++ nl
          ++ js "h) //=> A".
Proof. repeat split; reflexivity. Qed.

End RewriteClaims.

(** * Facts about [path.resolve] and [path.relative] *)

Section PathFacts.

Implicit Types seg : list Z.
Implicit Types segs acc : list (list Z).

Lemma split_unit_app_all c a b :
  split (a ++ c :: b) [c] = split a [c] ++ split b [c].
Proof.
  induction a as [|x a IH]; simpl.
  - by rewrite split_unit_cons, Z.eqb_refl.
  - rewrite !split_unit_cons, IH. destruct (c =? x); [done|].
    pose proof (split_not_nil a [c]) as Hne.
    by destruct (split a [c]).
Qed.

Lemma normalizeSegments_app b acc xs ys :
  normalizeSegments b acc (xs ++ ys) =
  normalizeSegments b (reverse (normalizeSegments b acc xs)) ys.
Proof.
  revert acc. induction xs as [|seg xs IH]; intros acc; simpl.
  - by rewrite reverse_involutive.
  - repeat case_decide; try done; destruct acc; try done;
      repeat case_decide; done.
Qed.

Lemma normalizeSegments_normal acc segs :
  Forall (fun seg => 47 ∉ seg) segs -> Forall normalSegment acc ->
  Forall normalSegment (normalizeSegments false acc segs).
Proof.
  intros Hsegs. revert acc.
  induction Hsegs as [|seg segs Hseg _ IH]; intros acc Hacc; simpl.
  - by apply Forall_reverse.
  - case_decide as Hd; [by apply IH|].
    case_decide as Hdd.
    + destruct acc as [|top acc]; [by apply IH|].
      inversion Hacc as [|? ? Htop Hacc']; subst.
      case_decide; [by apply IH|]. by apply IH.
    + apply IH. constructor; [|done]. repeat split; try done; naive_solver.
Qed.


Lemma normalizeSegments_push acc ys :
  Forall normalSegment ys ->
  normalizeSegments false acc (ys ++ [[]]) = reverse acc ++ ys.
Proof.
  intros Hys. revert acc. induction Hys as [|seg ys Hseg _ IH]; intros acc.
  - simpl. by rewrite app_nil_r.
  - simpl. destruct Hseg as (H1 & H2 & H3 & _).
    rewrite decide_False by (by intros [?|?]).
    rewrite decide_False by done.
    rewrite IH, reverse_cons, <- app_assoc. done.
Qed.

Lemma resolveLoop_acc paths (tail : list Z) :
  resolveLoop paths tail =
    ((resolveLoop paths []).1 ++ tail, (resolveLoop paths []).2).
Proof.
  revert tail. induction paths as [|p paths IH]; intros tail; [done|].
  cbn [resolveLoop]. destruct p as [|c p]; [apply IH|].
  destruct (isAbsolute (c :: p)).
  - cbn [fst snd]. by rewrite app_nil_r, <- !app_assoc.
  - rewrite (IH ((c :: p) ++ slash ++ tail)), (IH ((c :: p) ++ slash ++ [])).
    cbn [fst snd]. by rewrite app_nil_r, <- !app_assoc.
Qed.

(** With an absolute working directory the loop of [resolve] ends on an
    absolute path, and what it built ends with a slash. *)
Lemma resolveLoop_absolute cwd paths :
  isAbsolute cwd = true ->
  (resolveLoop (paths ++ [cwd]) []).2 = true /\
  exists y, (resolveLoop (paths ++ [cwd]) []).1 = y ++ slash.
Proof.
  intros Hcwd. induction paths as [|p paths IH].
  - cbn [app resolveLoop]. destruct cwd as [|c cwd]; [done|]. rewrite Hcwd.
    cbn [fst snd]. split; [done|]. exists (c :: cwd). by rewrite app_nil_r.
  - change ((p :: paths) ++ [cwd]) with (p :: (paths ++ [cwd])).
    cbn [resolveLoop]. destruct p as [|c p]; [done|].
    destruct (isAbsolute (c :: p)).
    + cbn [fst snd]. split; [done|]. exists (c :: p). by rewrite app_nil_r.
    + rewrite resolveLoop_acc. cbn [fst snd]. destruct IH as [-> (y & ->)].
      split; [done|]. exists (y ++ slash ++ c :: p).
      by rewrite app_nil_r, <- !app_assoc.
Qed.

(** With an absolute working directory, [resolve] returns a slash
    followed by normalised segments joined by slashes. *)
Lemma resolve_absolute cwd args :
  isAbsolute cwd = true ->
  exists y,
    (resolveLoop (reverse args ++ [cwd]) []).1 = y ++ slash /\
    resolve cwd args =
      slash ++ join slash (normalizeSegments false [] (split y slash)) /\
    Forall normalSegment (normalizeSegments false [] (split y slash)).
Proof.
  intros Hcwd.
  destruct (resolveLoop_absolute cwd (reverse args) Hcwd) as [Ha (y & Ey)].
  exists y. split; [done|]. split.
  - unfold resolve. destruct (resolveLoop (reverse args ++ [cwd]) [])
      as [X a] eqn:E. simpl in Ha, Ey. subst a X. cbn [negb].
    change (y ++ slash) with (y ++ 47 :: []).
    change slash with [47] at 1.
    rewrite split_unit_app_all, normalizeSegments_app. simpl.
    by rewrite reverse_involutive.
  - apply normalizeSegments_normal; [|done].
    apply Forall_forall. intros seg Hseg%list_elem_of_In.
    by apply (split_unit_pieces 47 y).
Qed.


Lemma normal_no_slash segs :
  Forall normalSegment segs -> Forall (fun seg => 47 ∉ seg) segs.
Proof. apply Forall_impl. by intros seg (_ & _ & _ & ?). Qed.







End PathFacts.

(** * Facts about the log protocol *)

Section LogFacts.

Import Log.

(** ** Numbers written in decimal and read back by [parseInt] *)












(** ** [decodeURIComponent] undoes [encodeURIComponent] *)












(** ** Locations *)








Lemma parseFileLocationFromString_column location loc :
  parseFileLocationFromString location = Some loc -> locColumn loc <> None.
Proof.
  unfold parseFileLocationFromString.
  destruct (split location (js ":") !! 0%nat) as [raw|]; [|done].
  destruct (split location (js ":") !! 1%nat) as [lineStr|]; [|done].
  destruct (truthy raw && truthy lineStr); [|done].
  destruct (parseInt lineStr) as [l|]; [|done].
  destruct (split location (js ":") !! 2%nat) as [columnStr|]; [|done].
  destruct (truthy columnStr); [|done].
  destruct (parseInt columnStr) as [c|]; [|done].
  by intros [= <-].
Qed.


(** ** [trim] *)






End LogFacts.

(** * The claims about the log protocol *)

Section LogClaims.

Import Log.




(** C3: a log line whose location has a path and a line and no column is
    not decoded, although the column of an entry is optional and
    [stringifyLogEntry] writes such lines; no entry that [parseLogEntry]
    returns has an unknown column. *)
Theorem parseLogEntry_needs_column cwd logFilePath :
  parseLogEntry cwd logFilePath (js "a.js:3 :: x") = Normal None /\
  (forall log entry,
     parseLogEntry cwd logFilePath log = Normal (Some entry) ->
     column entry <> None) /\
  (forall entry log,
     column entry = None ->
     relative cwd logFilePath (filePath entry) = js "a.js" ->
     line entry = 3 -> result entry = js "x" ->
     stringifyLogEntry cwd logFilePath entry = Normal log ->
     parseLogEntry cwd logFilePath log = Normal None).
Proof.
  split; [reflexivity|]. split.
  - intros log entry. unfold parseLogEntry.
    destruct (indexOf log delimiter 0) as [i|]; [|done].
    destruct (decodeURIComponent _) as [r|]; [|done]. cbn [bind].
    destruct (parseFileLocationFromString _) as [loc|] eqn:E; [|done].
    intros [= <-]. simpl. by apply parseFileLocationFromString_column in E.
  - intros entry log Hcol Hrel Hline Hres. unfold stringifyLogEntry.
    rewrite Hcol, Hrel, Hline, Hres. intros [= <-]. reflexivity.
Qed.

Section StackTraceClaim.

Variable value : Type.
Variable inspect : value -> list Z.


End StackTraceClaim.


(** A frame with a function name gives the location between the
    parentheses, with or without the [file://] prefix. *)
Example stack_trace_named_frame :
  parseLogEntryFromStackTrace unit (fun _ => js "42")
    (js "Error" ++ nl ++ js "    at p (/pkg/dist/index.js:7:19)" ++ nl
     ++ js "    at Object.run (/proj/a.js:4:5)" ++ nl
     ++ js "    at node:internal/main:1:1") tt
  = Some (mkLogEntry (js "/proj/a.js") 4 (Some 5) (js "42")) /\
  parseLogEntryFromStackTrace unit (fun _ => js "42")
    (js "Error" ++ nl ++ js "    at p (/pkg/dist/index.js:7:19)") tt = None /\
  parseLogEntryFromStackTrace unit (fun _ => js "42")
    (js "Error" ++ nl ++ js "    at p (/pkg/dist/index.js:7:19)" ++ nl
     ++ js "    at <anonymous>") tt = None.
Proof. repeat split; reflexivity. Qed.

End LogClaims.

(** * Further facts about the rewrite engine *)

Section RewriteMore.

Import Rewrite.

Implicit Types lines : list (list Z).

Lemma stripTrailing_lines T :
  stripTrailingLogComments T = join nl (map stripTrailingLine (split T nl)).
Proof. done. Qed.

Lemma split_lines_no_nl T : Forall (fun l => 10 ∉ l) (split T nl).
Proof.
  apply Forall_forall. intros l Hl%list_elem_of_In.
  by apply (split_unit_pieces 10 T).
Qed.

Lemma split_lines_clean T pat :
  includes T pat = false -> Forall (fun l => includes l pat = false) (split T nl).
Proof.
  intros HT. apply Forall_forall. intros l Hl%list_elem_of_In.
  by apply (split_elem_includes T nl l pat).
Qed.

Lemma commented_refl lines : Forall2 commented lines lines.
Proof. induction lines; constructor; [by left|done]. Qed.

Lemma stripTrailingLine_commented l0 l :
  includes l0 trailingCommentStart = false ->
  commented l0 l -> stripTrailingLine l = l0.
Proof.
  intros Hc [->|(r & _ & ->)]; unfold stripTrailingLine.
  - by rewrite Hc.
  - rewrite firstPiece_annotated by done.
    replace (includes _ _) with true; [done|].
    symmetry. apply includes_true. by exists l0, r.
Qed.

Lemma stripTrailingLine_commented_all lines0 lines :
  Forall (fun l0 => includes l0 trailingCommentStart = false) lines0 ->
  Forall2 commented lines0 lines -> map stripTrailingLine lines = lines0.
Proof.
  intros Hclean Hall. induction Hall as [|l0 l lines0 lines Hl _ IH]; [done|].
  inversion Hclean; subst. simpl.
  by rewrite (stripTrailingLine_commented l0 l), IH.
Qed.

Lemma commented_no_nl lines0 lines :
  Forall (fun l0 => 10 ∉ l0) lines0 -> Forall2 commented lines0 lines ->
  Forall (fun l => 10 ∉ l) lines.
Proof.
  intros Hnl Hall. induction Hall as [|l0 l lines0 lines Hl _ IH]; [done|].
  inversion Hnl as [|? ? Hl0 Hrest]; subst. constructor; [|by apply IH].
  destruct Hl as [->|(r & Hn & ->)]; [done|].
  intros [H|[H|H]%elem_of_app]%elem_of_app; [done| |done].
  revert H. compute_done.
Qed.

Lemma commented_fresh (marker : list Z) lines0 lines :
  marker ∉ lines0 -> includes marker trailingCommentStart = false ->
  Forall2 commented lines0 lines -> marker ∉ lines.
Proof.
  intros Hfresh Hm Hall. induction Hall as [|l0 l lines0 lines Hl _ IH];
    [apply not_elem_of_nil|].
  apply not_elem_of_cons in Hfresh as [Hne Hfresh].
  apply not_elem_of_cons. split; [|by apply IH].
  destruct Hl as [->|(r & _ & ->)]; [done|]. intros ->.
  rewrite includes_false in Hm. by apply (Hm l0 r).
Qed.

Lemma no_multiLineResult entries :
  Forall (fun e => 10 ∉ result e) entries ->
  existsb (fun e => includes (result e) nl) entries = false.
Proof.
  intros Hall. apply not_true_iff_false.
  intros (e & Hin & He)%existsb_exists.
  rewrite Forall_forall in Hall. apply includes_unit in He.
  exact (Hall e Hin He).
Qed.

(** A group whose results are on one line does not use the marker. *)
Lemma applyGroup_marker marker1 marker2 lines group :
  Forall (fun e => 10 ∉ result e) group.2 ->
  applyGroup marker1 lines group = applyGroup marker2 lines group.
Proof.
  intros Hone. destruct group as [k es]. unfold applyGroup.
  by rewrite (no_multiLineResult es Hone).
Qed.

Lemma fold_applyGroup_marker marker1 marker2 groups lines :
  Forall (fun group => Forall (fun e => 10 ∉ result e) group.2) groups ->
  fold_left (applyGroup marker1) groups lines =
  fold_left (applyGroup marker2) groups lines.
Proof.
  intros Hall. revert lines.
  induction Hall as [|group groups Hg _ IH]; intros lines; [done|].
  simpl. by rewrite IH, (applyGroup_marker marker1 marker2).
Qed.

Lemma applyGroup_commented marker lines0 lines group :
  Forall (fun l0 => includes l0 trailingCommentStart = false) lines0 ->
  Forall2 commented lines0 lines ->
  Forall (fun e => 10 ∉ result e) group.2 ->
  Forall2 commented lines0 (applyGroup marker lines group).
Proof.
  intros Hclean Hall Hone. destruct group as [k es]. simpl in Hone.
  unfold applyGroup.
  destruct (findCallEndLineIndex k (leftMostColumn es) lines) as [i|]; [|done].
  destruct (lines !! i) as [l|] eqn:El; [|done].
  destruct (negb (truthy l)); [done|].
  rewrite (no_multiLineResult es Hone).
  destruct (Forall2_lookup_r _ _ _ _ _ Hall El) as (l0 & El0 & Hl).
  assert (Hc0 : includes l0 trailingCommentStart = false).
  { rewrite Forall_forall in Hclean.
    eapply Hclean, list_elem_of_In, list_elem_of_lookup_2, El0. }
  pose proof (stripTrailingLine_commented l0 l Hc0 Hl) as Hstrip.
  assert (Hfirst : firstPiece l trailingCommentStart = l0).
  { destruct Hl as [->|(r & _ & ->)].
    - by apply firstPiece_no_sep; [apply trailingCommentStart_not_nil|].
    - by apply firstPiece_annotated. }
  rewrite Hfirst.
  rewrite <- (list_insert_id lines0 i l0 El0) at 1.
  apply Forall2_insert; [done|]. right.
  exists (js " " ++ join (js ", ") (map result es)). split; [|done].
  apply plain_join_no_unit; [compute_done|done].
Qed.

Lemma fold_applyGroup_commented marker lines0 groups lines :
  Forall (fun l0 => includes l0 trailingCommentStart = false) lines0 ->
  Forall2 commented lines0 lines ->
  Forall (fun group => Forall (fun e => 10 ∉ result e) group.2) groups ->
  Forall2 commented lines0 (fold_left (applyGroup marker) groups lines).
Proof.
  intros Hclean Hall Hone. revert lines Hall.
  induction Hone as [|group groups Hg _ IH]; intros lines Hall; [done|].
  simpl. by apply IH, applyGroup_commented.
Qed.

(** The lines of the result of a run whose results are all on one line. *)
Lemma apply_commented marker S E :
  includes S trailingCommentStart = false ->
  Forall (fun e => 10 ∉ result e) E ->
  marker ∉ split S nl ->
  includes marker trailingCommentStart = false ->
  let lines := fold_left (applyGroup marker) (groupByLine E) (split S nl) in
  applyLogEntriesToFileContent marker S E = join nl lines /\
  split (join nl lines) nl = lines /\
  Forall2 commented (split S nl) lines.
Proof.
  intros HS Hone Hfresh Hm lines.
  assert (Hall : Forall2 commented (split S nl) lines).
  { apply fold_applyGroup_commented;
      [by apply split_lines_clean|apply commented_refl|].
    by apply (groupByLine_Forall (fun e => 10 ∉ result e)). }
  split; [|split; [|done]].
  - unfold applyLogEntriesToFileContent. fold lines.
    rewrite filter_fresh; [done|]. by apply (commented_fresh _ (split S nl)).
  - apply (split_join_unit 10).
    + intros Hnil. apply Forall2_length in Hall. rewrite Hnil in Hall.
      by destruct (split S nl) eqn:E0; [apply split_not_nil in E0|].
    + apply (commented_no_nl (split S nl)); [apply split_lines_no_nl|done].
Qed.

Lemma stripTrailing_apply marker S E :
  includes S trailingCommentStart = false ->
  Forall (fun e => 10 ∉ result e) E ->
  marker ∉ split S nl ->
  includes marker trailingCommentStart = false ->
  stripTrailingLogComments (applyLogEntriesToFileContent marker S E) = S.
Proof.
  intros HS Hone Hfresh Hm.
  destruct (apply_commented marker S E HS Hone Hfresh Hm) as (-> & Hsplit & Hall).
  rewrite stripTrailing_lines, Hsplit.
  rewrite (stripTrailingLine_commented_all (split S nl));
    [|by apply split_lines_clean|done].
  by apply join_split.
Qed.

End RewriteMore.

(** * Further properties of the rewrite engine *)

Section RewriteProperties.

Import Rewrite.

(** When no result holds a line break, [apply] keeps the lines of the
    text: the result has as many lines, and each is the line of the text,
    or that line followed by a trailing comment. *)
Theorem apply_single_line_keeps_code marker S E :
  includes S trailingCommentStart = false ->
  Forall (fun e => 10 ∉ result e) E ->
  marker ∉ split S nl ->
  includes marker trailingCommentStart = false ->
  Forall2 commented (split S nl)
    (split (applyLogEntriesToFileContent marker S E) nl).
Proof.
  intros HS Hone Hfresh Hm.
  destruct (apply_commented marker S E HS Hone Hfresh Hm) as (-> & -> & Hall).
  done.
Qed.

Lemma apply_single_line_keeps_code_witness :
  let S := js "f(1)" ++ nl ++ js "x" ++ nl ++ js "g(')')" in
  let E := [entryAt 1 (Some 1) (js "1"); entryAt 3 (Some 1) (js "')'")] in
  applyLogEntriesToFileContent exampleMarker S E
    = js "f(1) //=> 1" ++ nl ++ js "x" ++ nl ++ js "g(')') //=> ')'" /\
  Forall2 commented (split S nl)
    (split (applyLogEntriesToFileContent exampleMarker S E) nl).
Proof.
  intros S E. split; [reflexivity|].
  apply apply_single_line_keeps_code;
    [reflexivity| |compute_done|reflexivity].
  repeat constructor; compute_done.
Defined.

(** When no result holds a line break, stripping undoes [apply]: the
    trailing pass gives the text back, and [strip] of the result is
    [strip] of the text. *)
Theorem strip_undoes_single_line_apply marker S E :
  includes S trailingCommentStart = false ->
  Forall (fun e => 10 ∉ result e) E ->
  marker ∉ split S nl ->
  includes marker trailingCommentStart = false ->
  stripTrailingLogComments (applyLogEntriesToFileContent marker S E) = S /\
  stripLogEntriesFromFileContent (applyLogEntriesToFileContent marker S E)
    = stripLogEntriesFromFileContent S.
Proof.
  intros HS Hone Hfresh Hm.
  pose proof (stripTrailing_apply marker S E HS Hone Hfresh Hm) as Hstrip.
  split; [done|]. unfold stripLogEntriesFromFileContent.
  by rewrite Hstrip, (stripTrailing_id S HS).
Qed.

Lemma strip_undoes_single_line_apply_witness :
  let S := js "f(1)" ++ nl ++ js "x" ++ nl ++ js "g(')')" in
  let E := [entryAt 1 (Some 1) (js "1"); entryAt 3 (Some 1) (js "')'")] in
  stripTrailingLogComments (applyLogEntriesToFileContent exampleMarker S E)
    = S /\
  stripLogEntriesFromFileContent
    (applyLogEntriesToFileContent exampleMarker S E)
    = stripLogEntriesFromFileContent S.
Proof.
  intros S E.
  apply strip_undoes_single_line_apply;
    [reflexivity| |compute_done|reflexivity].
  repeat constructor; compute_done.
Defined.

(** The rewrite of the watcher reaches a fixed point: when no result
    holds a line break, rewriting the text it wrote with the same entries
    gives that text again, whatever the module file held before. *)
Theorem newModuleContent_fixed_point marker1 marker2 T E :
  Forall (fun e => 10 ∉ result e) E ->
  marker1 ∉ split (stripTrailingLogComments T) nl ->
  includes marker1 trailingCommentStart = false ->
  marker2 ∉ split (stripTrailingLogComments T) nl ->
  includes marker2 trailingCommentStart = false ->
  Watch.newModuleContent marker2 (Watch.newModuleContent marker1 T E) E
  = Watch.newModuleContent marker1 T E.
Proof.
  intros Hone Hf1 Hm1 Hf2 Hm2. unfold Watch.newModuleContent.
  pose proof (stripTrailing_clean T) as HS.
  rewrite (stripTrailing_apply marker1 _ E HS Hone Hf1 Hm1).
  unfold applyLogEntriesToFileContent.
  rewrite (fold_applyGroup_marker marker2 marker1);
    [|by apply (groupByLine_Forall (fun e => 10 ∉ result e))].
  destruct (apply_commented marker1 _ E HS Hone Hf1 Hm1) as (_ & _ & H1).
  rewrite !filter_fresh; [done|..].
  - by apply (commented_fresh _ (split (stripTrailingLogComments T) nl)).
  - by apply (commented_fresh _ (split (stripTrailingLogComments T) nl)).
Qed.

Lemma newModuleContent_fixed_point_witness :
  let T := js "f((1)) //=> 0" ++ nl ++ js "g(2)" in
  let E := [entryAt 1 (Some 1) (js "(1"); entryAt 2 (Some 1) (js "2")] in
  Watch.newModuleContent exampleMarker T E
    = js "f((1)) //=> (1" ++ nl ++ js "g(2) //=> 2" /\
  Watch.newModuleContent exampleMarker
    (Watch.newModuleContent exampleMarker T E) E
  = Watch.newModuleContent exampleMarker T E.
Proof.
  intros T E. split; [reflexivity|].
  apply newModuleContent_fixed_point;
    [|compute_done|reflexivity|compute_done|reflexivity].
  repeat constructor; compute_done.
Defined.

End RewriteProperties.

(** * Facts about the two passes of [strip] *)

Section StripFacts.

Import Rewrite.

Lemma firstPiece_cut s sep :
  sep <> [] -> includes s sep = true ->
  exists r, s = firstPiece s sep ++ sep ++ r.
Proof.
  intros Hsep Hinc. rewrite firstPiece_spec by done. unfold includes in Hinc.
  destruct (indexOf s sep 0) as [j|] eqn:E; [|done].
  apply indexOf_Some in E as (_ & Hstart & _).
  apply startsWith_spec in Hstart as [r Hr]. exists r.
  by rewrite <- Hr, take_drop.
Qed.

Lemma stripTrailingLine_spec l0 :
  (stripTrailingLine l0 = l0 \/
   exists r, l0 = stripTrailingLine l0 ++ trailingCommentStart ++ r) /\
  includes (stripTrailingLine l0) trailingCommentStart = false.
Proof.
  unfold stripTrailingLine.
  destruct (includes l0 trailingCommentStart) eqn:E; [|by split; [left|]].
  split; [right|].
  - apply firstPiece_cut; [apply trailingCommentStart_not_nil|done].
  - apply firstPiece_clean, trailingCommentStart_not_nil.
Qed.

Lemma stripTrailingLine_no_nl l0 : 10 ∉ l0 -> 10 ∉ stripTrailingLine l0.
Proof.
  intros Hl0 Hin. apply Hl0.
  destruct (stripTrailingLine_spec l0) as [[<-|[r Hr]] _]; [done|].
  rewrite Hr. apply elem_of_app. by left.
Qed.

Lemma stripTrailing_split T :
  split (stripTrailingLogComments T) nl = map stripTrailingLine (split T nl).
Proof.
  rewrite stripTrailing_lines. apply (split_join_unit 10).
  - destruct (split T nl) eqn:E; [by apply split_not_nil in E|done].
  - apply Forall_fmap. eapply Forall_impl; [|apply split_lines_no_nl].
    intros l. apply stripTrailingLine_no_nl.
Qed.

Lemma join_sublist sep (l1 l2 : list (list Z)) :
  Forall2 sublist l1 l2 -> join sep l1 `sublist_of` join sep l2.
Proof.
  induction 1 as [|x y l1 l2 Hxy Hall IH]; [done|].
  destruct Hall as [|x' y' l1 l2 Hxy' Hall].
  - by rewrite !join_singleton.
  - rewrite !join_cons by done. apply sublist_app; [done|].
    by apply sublist_app.
Qed.

Lemma stripTrailing_sublist T : stripTrailingLogComments T `sublist_of` T.
Proof.
  rewrite <- (join_split T nl nl_not_nil) at 2. rewrite stripTrailing_lines.
  apply join_sublist. apply Forall2_fmap_l, Forall_Forall2_diag.
  apply Forall_forall. intros l _. simpl.
  destruct (stripTrailingLine_spec l) as [[E|[r Hr]] _];
    [by rewrite E|].
  rewrite Hr at 2. by apply sublist_inserts_r.
Qed.

Lemma stripMultiLoop_sublist fuel content i acc :
  (i <= length content)%nat ->
  exists r, stripMultiLoop fuel content i acc = acc ++ r /\
            r `sublist_of` drop i content.
Proof.
  revert i acc. induction fuel as [|fuel IH]; intros i acc Hi; simpl.
  { exists []. rewrite app_nil_r. split; [done|apply sublist_nil_l]. }
  destruct (length content <=? i)%nat.
  { exists []. rewrite app_nil_r. split; [done|apply sublist_nil_l]. }
  destruct (indexOf content multiLineCommentStart i) as [cs|] eqn:Es;
    [|by exists (sliceFrom content i)].
  destruct (indexOf content multiLineCommentEnd cs) as [ce|] eqn:Ee;
    [|by exists (sliceFrom content i)].
  pose proof (indexOf_bound _ _ _ _ Ee) as Hbound.
  apply indexOf_Some in Es as ((Hs1 & Hs2) & _).
  apply indexOf_Some in Ee as ((He1 & He2) & _).
  change (length multiLineCommentEnd) with 3%nat in *.
  destruct (IH (ce + 3)%nat (acc ++ slice content i cs)) as (r & -> & Hr);
    [lia|].
  exists (slice content i cs ++ r). split; [by rewrite app_assoc|].
  rewrite <- (take_drop (cs - i) (drop i content)). unfold slice.
  apply sublist_app; [done|]. etrans; [exact Hr|].
  rewrite drop_drop.
  replace (ce + 3)%nat with ((i + (cs - i)) + (ce + 3 - cs))%nat by lia.
  rewrite <- (drop_drop content (ce + 3 - cs)). apply sublist_drop.
Qed.

Lemma stripMulti_sublist T : stripMultiLineLogComments T `sublist_of` T.
Proof.
  unfold stripMultiLineLogComments.
  destruct (stripMultiLoop_sublist (S (length T)) T 0 []) as (r & -> & Hr);
    [lia|].
  by rewrite drop_0 in Hr.
Qed.

End StripFacts.

(** * Properties of [strip] *)

Section StripProperties.

Import Rewrite.

(** The trailing pass keeps the lines of the text and cuts each at its
    first trailing marker; it leaves no trailing marker behind, and
    running it again changes nothing. *)
Theorem stripTrailingLogComments_cuts_lines T :
  Forall2
    (fun l0 l =>
       (l = l0 \/ exists r, l0 = l ++ trailingCommentStart ++ r) /\
       includes l trailingCommentStart = false)
    (split T nl) (split (stripTrailingLogComments T) nl) /\
  includes (stripTrailingLogComments T) trailingCommentStart = false /\
  stripTrailingLogComments (stripTrailingLogComments T)
    = stripTrailingLogComments T.
Proof.
  split; [|split].
  - rewrite stripTrailing_split. apply Forall2_fmap_r, Forall_Forall2_diag.
    apply Forall_forall. intros l _. apply stripTrailingLine_spec.
  - apply stripTrailing_clean.
  - apply stripTrailing_id, stripTrailing_clean.
Qed.

(** [strip] only removes text: its result, and the result of each of its
    two passes, is the text with some code units left out. *)
Theorem strip_only_removes T :
  stripTrailingLogComments T `sublist_of` T /\
  stripMultiLineLogComments T `sublist_of` T /\
  stripLogEntriesFromFileContent T `sublist_of` T.
Proof.
  split; [apply stripTrailing_sublist|]. split; [apply stripMulti_sublist|].
  unfold stripLogEntriesFromFileContent.
  etrans; [apply stripMulti_sublist|apply stripTrailing_sublist].
Qed.

End StripProperties.

(** * Facts about the call search and the groups *)

Section CallFacts.

Import Rewrite.

Lemma indexOf_unit_absent (l : list Z) c pos :
  c ∉ l -> indexOf l [c] pos = None.
Proof.
  intros Hc. apply indexOf_None. intros k _.
  apply not_true_iff_false. intros Hk%startsWith_drop_unit.
  by apply list_elem_of_lookup_2 in Hk.
Qed.

Lemma indexOf_unit_present (l : list Z) c pos j :
  indexOf l [c] pos = Some j -> l !! j = Some c.
Proof.
  intros (_ & Hj & _)%indexOf_Some. by apply startsWith_drop_unit.
Qed.

Lemma scanLines_bounds rest i col depth j :
  scanLines rest i col depth = Some j -> (i <= j < i + length rest)%nat.
Proof.
  intros Hscan. destruct (scanLines_Some _ _ _ _ _ Hscan) as (Hij & l & El & _).
  apply lookup_lt_Some in El. lia.
Qed.

(** The key of every group is the line of one of its entries. *)
Lemma pushEntry_keys e obj :
  Forall (fun group => exists e', e' ∈ group.2 /\ line e' = group.1) obj ->
  Forall (fun group => exists e', e' ∈ group.2 /\ line e' = group.1)
    (pushEntry (line e) e obj).
Proof.
  induction 1 as [|[k' es] obj Hes Hobj IH]; simpl.
  - constructor; [|done]. exists e. split; [by left|done].
  - destruct (line e =? k').
    + constructor; [|done]. destruct Hes as (e' & He' & Hk).
      exists e'. split; [|done]. apply elem_of_app. by left.
    + destruct (isArrayIndex (line e) && _).
      * constructor; [|by constructor]. exists e. split; [by left|done].
      * by constructor.
Qed.

Lemma groupByLine_keys entries :
  Forall (fun group => exists e, e ∈ group.2 /\ line e = group.1)
    (groupByLine entries).
Proof.
  unfold groupByLine.
  assert (Hgen : forall obj,
    Forall (fun group => exists e, e ∈ group.2 /\ line e = group.1) obj ->
    Forall (fun group => exists e, e ∈ group.2 /\ line e = group.1)
      (fold_left (fun obj e => pushEntry (line e) e obj) entries obj)).
  { induction entries as [|e entries IH]; intros obj Hobj; [done|].
    simpl. by apply IH, pushEntry_keys. }
  by apply Hgen.
Qed.

(** No call is found on a line that is missing or holds no opening
    parenthesis. *)
Lemma findCallEndLineIndex_no_paren lineNumber anchor lines :
  (forall l, lineAt lines (lineNumber - 1) = Some l -> openParen ∉ l) ->
  findCallEndLineIndex lineNumber anchor lines = None.
Proof.
  intros Hno. unfold findCallEndLineIndex.
  destruct (lineAt lines (lineNumber - 1)) as [l|]; [|done].
  destruct (negb (truthy l)); [done|].
  by rewrite indexOf_unit_absent by by apply Hno.
Qed.

Lemma fold_applyGroup_no_call marker groups lines :
  Forall (fun group =>
            forall l, lineAt lines (group.1 - 1) = Some l -> openParen ∉ l)
    groups ->
  fold_left (applyGroup marker) groups lines = lines.
Proof.
  induction 1 as [|[k es] groups Hg _ IH]; [done|].
  cbn [fold_left].
  replace (applyGroup marker lines (k, es)) with lines; [done|].
  unfold applyGroup. by rewrite (findCallEndLineIndex_no_paren k _ lines Hg).
Qed.

End CallFacts.

(** * Properties of the call search *)

Section CallProperties.

Import Rewrite.

(** Where [findCallEndLineIndex] finds the end of a call, the start
    line is a line of the text with an opening parenthesis, and the line
    found is that line or one below it, within the text, and not empty:
    a comment is never written above the call it belongs to. *)
Theorem findCallEndLineIndex_bounds lineNumber anchor lines j :
  findCallEndLineIndex lineNumber anchor lines = Some j ->
  1 <= lineNumber <= Z.of_nat (length lines) /\
  (exists l0, lines !! Z.to_nat (lineNumber - 1) = Some l0 /\ openParen ∈ l0) /\
  lineNumber - 1 <= Z.of_nat j < Z.of_nat (length lines) /\
  (exists l, lines !! j = Some l /\ l <> []).
Proof.
  intros Hfound.
  destruct (findCallEndLineIndex_line _ _ _ _ Hfound) as (l & El & Hl).
  revert Hfound. unfold findCallEndLineIndex, lineAt.
  destruct (Z.ltb_spec (lineNumber - 1) 0) as [|Hpos]; [done|].
  destruct (lines !! Z.to_nat (lineNumber - 1)) as [l0|] eqn:El0; [|done].
  destruct (negb (truthy l0)); [done|].
  destruct (indexOf l0 [openParen] _) as [q|] eqn:Eq; [|done].
  apply indexOf_unit_present, list_elem_of_lookup_2 in Eq.
  pose proof (lookup_lt_Some _ _ _ El0) as Hlt0.
  intros Hscan.
  assert (Hj : (Z.to_nat (lineNumber - 1) <= j < length lines)%nat).
  { destruct (S q =? length l0)%nat;
      apply scanLines_bounds in Hscan; rewrite length_drop in Hscan; lia. }
  split; [lia|]. split; [by exists l0|]. split; [lia|].
  exists l. split; [done|]. by destruct l.
Qed.

Lemma findCallEndLineIndex_bounds_witness :
  let lines := [js "x"; js "f(a,"; js "  g(b)"; js ")"; js "y"] in
  findCallEndLineIndex 2 (Fin 1) lines = Some 3%nat /\
  (1 <= 2 <= Z.of_nat (length lines) /\
   (exists l0, lines !! Z.to_nat (2 - 1) = Some l0 /\ openParen ∈ l0) /\
   2 - 1 <= Z.of_nat 3 < Z.of_nat (length lines) /\
   (exists l, lines !! 3%nat = Some l /\ l <> [])).
Proof.
  intros lines.
  assert (H : findCallEndLineIndex 2 (Fin 1) lines = Some 3%nat)
    by reflexivity.
  split; [exact H | exact (findCallEndLineIndex_bounds 2 (Fin 1) lines 3 H)].
Defined.

(** Entries that point at no call are ignored: when every entry points
    at a line that is missing (a line number below 1 or past the end) or
    holds no opening parenthesis, [apply] gives the text back. *)
Theorem apply_ignores_entries_without_call marker S E :
  marker ∉ split S nl ->
  (forall e l, e ∈ E -> lineAt (split S nl) (line e - 1) = Some l ->
               openParen ∉ l) ->
  applyLogEntriesToFileContent marker S E = S.
Proof.
  intros Hfresh Hno. unfold applyLogEntriesToFileContent.
  rewrite fold_applyGroup_no_call.
  - rewrite filter_fresh by done. apply join_split, nl_not_nil.
  - pose proof (groupByLine_keys E) as Hkeys.
    pose proof (groupByLine_Forall (fun e => e ∈ E) E) as Hin.
    assert (Hall : Forall (fun e => e ∈ E) E)
      by (apply Forall_forall; by intros e He%list_elem_of_In).
    specialize (Hin Hall).
    apply Forall_forall. intros group Hg l Hl.
    rewrite Forall_forall in Hkeys, Hin.
    destruct (Hkeys group Hg) as (e & He & Hk).
    specialize (Hin group Hg). rewrite Forall_forall in Hin.
    apply list_elem_of_In in He.
    apply (Hno e l); [by apply Hin|by rewrite Hk].
Qed.

Lemma apply_ignores_entries_without_call_witness :
  let S := js "const x = 1" ++ nl ++ js "f(x)" in
  let E := [entryAt 1 (Some 7) (js "1"); entryAt 3 (Some 1) (js "2");
            entryAt 0 None (js "3" ++ nl ++ js "4")] in
  applyLogEntriesToFileContent exampleMarker S E = S.
Proof.
  intros S E. apply apply_ignores_entries_without_call; [compute_done|].
  intros e l He. unfold E in He.
  repeat (apply elem_of_cons in He as [->|He]);
    [..|by apply elem_of_nil in He];
    intros Hl; vm_compute in Hl; try discriminate Hl.
  injection Hl as <-. compute_done.
Defined.

End CallProperties.

(** * Further facts about paths and the encoding of results *)

Section LogMore.

Import Log.

(** [path.resolve] leaves a resolved path as it is. *)
Lemma resolve_normal cwd (segs : list (list Z)) :
  Forall normalSegment segs ->
  resolve cwd [slash ++ join slash segs] = slash ++ join slash segs.
Proof.
  intros Hn. unfold resolve.
  change (reverse [slash ++ join slash segs] ++ [cwd])
    with ((47 :: join slash segs) :: [cwd]).
  cbn [resolveLoop isAbsolute]. rewrite Z.eqb_refl. cbn [negb].
  do 2 f_equal.
  change ((47 :: join slash segs) ++ slash ++ [])
    with ([] ++ 47 :: (join slash segs ++ 47 :: [])).
  unfold slash. rewrite !split_unit_app_all.
  change (split [] [47]) with [[] : list Z].
  change ([[]] ++ ?x) with ([] :: x). cbn [normalizeSegments].
  rewrite decide_True by by left.
  destruct segs as [|seg segs]; [done|].
  rewrite split_join_unit; [|done|by apply normal_no_slash].
  by rewrite normalizeSegments_push.
Qed.

Lemma resolve_idempotent cwd cwd' args :
  isAbsolute cwd = true ->
  isAbsolute (resolve cwd args) = true /\
  resolve cwd' [resolve cwd args] = resolve cwd args.
Proof.
  intros Hcwd. destruct (resolve_absolute cwd args Hcwd) as (y & _ & -> & Hn).
  split; [done|]. by apply resolve_normal.
Qed.




End LogMore.

(** * Further properties of the log protocol and the probe *)

Section LogProperties.

Import Log.

(** The file path of an entry that [parseLogEntry] returns is resolved:
    it is absolute, and [path.resolve] leaves it as it is, whatever the
    working directory. *)
Theorem parseLogEntry_resolved_path cwd logFilePath log entry :
  isAbsolute cwd = true ->
  parseLogEntry cwd logFilePath log = Normal (Some entry) ->
  isAbsolute (filePath entry) = true /\
  forall cwd', resolve cwd' [filePath entry] = filePath entry.
Proof.
  intros Hcwd. unfold parseLogEntry.
  destruct (indexOf log delimiter 0) as [i|]; [|done].
  destruct (decodeURIComponent _) as [r|]; [|done]. cbn [bind].
  destruct (parseFileLocationFromString _) as [loc|]; [|done].
  intros [= <-]. cbn [filePath].
  split; [|intros cwd']; by apply resolve_idempotent.
Qed.

Lemma parseLogEntry_resolved_path_witness :
  let cwd := js "/proj" in
  let logFilePath := js "/pkg/srepl.txt" in
  let log := js "../.././proj//src/../a.js?cb=1:3:5 :: x%20y" in
  let entry := mkLogEntry (js "/proj/a.js") 3 (Some 5) (js "x y") in
  parseLogEntry cwd logFilePath log = Normal (Some entry) /\
  isAbsolute (filePath entry) = true /\
  forall cwd', resolve cwd' [filePath entry] = filePath entry.
Proof.
  intros cwd logFilePath log entry.
  assert (H : parseLogEntry cwd logFilePath log = Normal (Some entry))
    by reflexivity.
  split; [exact H|].
  exact (parseLogEntry_resolved_path cwd logFilePath log entry eq_refl H).
Defined.

Section Probe.

Variable value : Type.
Variable inspect : value -> list Z.


End Probe.


End LogProperties.

(** * Facts about well-formed strings and the text of files *)

Section WellFormedFacts.






Lemma toWellFormed_id s : wellFormed s = true -> toWellFormed s = s.
Proof.
  remember (length s) as n eqn:Hn. revert s Hn.
  induction (lt_wf n) as [n _ IH]; intros s -> Hs.
  destruct s as [|x a]; [done|].
  cbn [toWellFormed wellFormed] in *. destruct (isHighSurrogate x).
  - destruct a as [|x2 a2]; [done|].
    apply andb_true_iff in Hs as [-> Hs].
    by rewrite (IH (length a2) ltac:(simpl; lia) a2 eq_refl Hs).
  - apply andb_true_iff in Hs as [[_ ->%negb_true_iff]%andb_true_iff Hs].
    by rewrite (IH (length a) ltac:(simpl; lia) a eq_refl Hs).
Qed.


End WellFormedFacts.

(** * Facts about what the probe writes and the watcher reads *)

Section ProbeFacts.

Import Log.








Section Probe.

Variable value : Type.
Variable inspect : value -> list Z.


End Probe.


Lemma omap_cons_eq {A B} (f : A -> option B) x l :
  omap f (x :: l) =
    match f x with Some y => y :: omap f l | None => omap f l end.
Proof. done. Qed.




Section Writes.

Variable value : Type.
Variable inspect : value -> list Z.


End Writes.

End ProbeFacts.

(** * Properties of the probe and the watcher together *)

Section WatchProperties.

Import Log.

Section Probes.

Variable value : Type.
Variable inspect : value -> list Z.


End Probes.


End WatchProperties.

(** * Facts about the steps of the watcher *)

Section WatchFacts.

Import Log Rewrite.

Lemma readLogLines_cases cwd logFilePath evalFilePath logLines acc :
  ((exists logLine, logLine ∈ logLines /\
                    parseLogEntry cwd logFilePath logLine = Throw) /\
   Watch.readLogLines cwd logFilePath evalFilePath logLines acc = Throw) \/
  ((forall logLine, logLine ∈ logLines ->
                    parseLogEntry cwd logFilePath logLine <> Throw) /\
   Watch.readLogLines cwd logFilePath evalFilePath logLines acc =
     Normal (acc ++ omap (entryOfLine cwd logFilePath evalFilePath) logLines)).
Proof.
  revert acc. induction logLines as [|logLine logLines IH]; intros acc.
  { right. split; [by intros ? ?%elem_of_nil|]. by rewrite app_nil_r. }
  cbn [Watch.readLogLines]. rewrite omap_cons_eq. unfold entryOfLine at 1.
  destruct (parseLogEntry cwd logFilePath logLine) as [log|] eqn:E;
    [|left; split; [exists logLine; split; [by left|done]|done]].
  cbn [bind].
  assert (Hstep : forall acc' kept,
    ((exists l, l ∈ logLines /\ parseLogEntry cwd logFilePath l = Throw) /\
     Watch.readLogLines cwd logFilePath evalFilePath logLines acc' = Throw) \/
    ((forall l, l ∈ logLines -> parseLogEntry cwd logFilePath l <> Throw) /\
     Watch.readLogLines cwd logFilePath evalFilePath logLines acc' =
       Normal (acc' ++ omap (entryOfLine cwd logFilePath evalFilePath) logLines)) ->
    acc' = acc ++ kept ->
    ((exists l, l ∈ logLine :: logLines /\
                parseLogEntry cwd logFilePath l = Throw) /\
     Watch.readLogLines cwd logFilePath evalFilePath logLines acc' = Throw) \/
    ((forall l, l ∈ logLine :: logLines ->
                parseLogEntry cwd logFilePath l <> Throw) /\
     Watch.readLogLines cwd logFilePath evalFilePath logLines acc' =
       Normal (acc ++ kept ++
               omap (entryOfLine cwd logFilePath evalFilePath) logLines))).
  { intros acc' kept [[(l & Hl & HT) ->]|[Hno ->]] ->.
    - left. split; [|done]. exists l. split; [by right|done].
    - right. split; [|by rewrite app_assoc].
      intros l [->|Hl]%elem_of_cons; [by rewrite E|by apply Hno]. }
  destruct log as [log|].
  - case_decide.
    + apply (Hstep (acc ++ [log]) [log]); [apply IH|done].
    + apply (Hstep acc []); [apply IH|by rewrite app_nil_r].
  - apply (Hstep acc []); [apply IH|by rewrite app_nil_r].
Qed.

Lemma resetFiles_fold (fs0 : files) (filePaths : list (list Z)) (fs : files)
    (path : list Z) :
  fold_left (fun fs f => writeFile fs f.1 f.2)
    (map (fun f => (f.1, stripLogEntriesFromFileContent f.2))
       (omap id
          (map (fun path =>
                  match readFile fs0 path with
                  | Some content => Some (path, content)
                  | None => None
                  end) filePaths))) fs !! path =
  match fs0 !! path with
  | Some content =>
      if decide (path ∈ filePaths) then Some (resetContent content)
      else fs !! path
  | None => fs !! path
  end.
Proof.
  revert fs. induction filePaths as [|q filePaths IH]; intros fs.
  { cbn. by destruct (fs0 !! path). }
  cbn [map]. rewrite omap_cons_eq. unfold readFile at 1.
  destruct (fs0 !! q) as [c|] eqn:Eq; cbn [id map fold_left fst snd].
  - rewrite IH. unfold writeFile.
    destruct (fs0 !! path) as [content|] eqn:Ep.
    + destruct (decide (path ∈ filePaths)) as [Hin|Hnin].
      * by rewrite decide_True by by right.
      * destruct (decide (path = q)) as [->|Hne].
        -- rewrite decide_True by by left.
           rewrite lookup_insert_eq. unfold resetContent. congruence.
        -- rewrite lookup_insert_ne by done.
           rewrite decide_False; [done|].
           by intros [?|?]%elem_of_cons.
    + rewrite lookup_insert_ne; [done|]. intros ->. congruence.
  - rewrite IH. destruct (fs0 !! path) as [content|] eqn:Ep; [|done].
    destruct (decide (path ∈ filePaths)) as [Hin|Hnin].
    + by rewrite decide_True by by right.
    + rewrite decide_False; [done|].
      intros [->|?]%elem_of_cons; [congruence|done].
Qed.

(** A group none of whose entries has a column other than 0 is left out. *)
Lemma applyGroup_no_column marker lines lineNumber entries :
  (forall e, e ∈ entries -> column e = None \/ column e = Some 0) ->
  applyGroup marker lines (lineNumber, entries) = lines.
Proof.
  intros Hnone.
  assert (E : leftMostColumn entries = Infinity).
  { unfold leftMostColumn.
    destruct (mathMin_in (map columnOrInfinity entries))
      as [->|(c & _ & (e & Hin & Hc & Hne)%columnOrInfinity_Fin)]; [done|].
    destruct (Hnone e Hin); congruence. }
  unfold applyGroup. rewrite E.
  assert (Hf : findCallEndLineIndex lineNumber Infinity lines = None).
  { unfold findCallEndLineIndex.
    destruct (lineAt lines (lineNumber - 1)) as [l|]; [|done].
    destruct (negb (truthy l)); [done|].
    cbn [clampPosition]. by rewrite indexOf_at_end. }
  by rewrite Hf.
Qed.

Lemma apply_no_column marker S E :
  marker ∉ split S nl ->
  (forall e, e ∈ E -> column e = None \/ column e = Some 0) ->
  applyLogEntriesToFileContent marker S E = S.
Proof.
  intros Hfresh Hnone. unfold applyLogEntriesToFileContent.
  assert (Hgroups : Forall (fun group =>
            Forall (fun e => column e = None \/ column e = Some 0) group.2)
            (groupByLine E)).
  { apply groupByLine_Forall, Forall_forall.
    intros e He%list_elem_of_In. by apply Hnone. }
  assert (Hfold : fold_left (applyGroup marker) (groupByLine E) (split S nl)
                  = split S nl).
  { induction Hgroups as [|[k es] groups Hg _ IH]; [done|].
    cbn [fold_left]. rewrite applyGroup_no_column; [done|].
    intros e He%list_elem_of_In. rewrite Forall_forall in Hg. by apply Hg. }
  rewrite Hfold, filter_fresh by done. apply join_split, nl_not_nil.
Qed.

End WatchFacts.

(** * Properties of the steps of the watcher *)

Section WatchSteps.

Import Log Rewrite.

(** Reading the log throws exactly when [parseLogEntry] throws on one of
    its lines; otherwise the entries read are those of the lines that
    decode to an entry for the file that was evaluated, in the order of
    the lines, the other lines being skipped. *)
Theorem readLogEntries_reads_or_throws cwd logFilePath evalFilePath logContent :
  (Watch.readLogEntries cwd logFilePath evalFilePath logContent = Throw <->
   exists logLine,
     logLine ∈ split logContent nl /\
     parseLogEntry cwd logFilePath logLine = Throw) /\
  (forall logEntries,
     Watch.readLogEntries cwd logFilePath evalFilePath logContent
       = Normal logEntries ->
     logEntries =
       omap (entryOfLine cwd logFilePath evalFilePath) (split logContent nl) /\
     Forall (fun e => filePath e = evalFilePath) logEntries).
Proof.
  unfold Watch.readLogEntries.
  destruct (readLogLines_cases cwd logFilePath evalFilePath
              (split logContent nl) []) as [[Hex ->]|[Hno ->]].
  - split; [done|]. by intros ? [=].
  - split.
    + split; [done|]. intros (l & Hl & HT). by apply Hno in Hl.
    + intros ? [= <-]. split; [done|]. cbn [app].
      apply Forall_forall. intros e He%list_elem_of_In.
      apply list_elem_of_omap in He as (l & _ & He).
      unfold entryOfLine in He.
      destruct (parseLogEntry cwd logFilePath l) as [[log|]|]; try done.
      case_decide; [|done]. by injection He as <-.
Qed.

(** [resetFiles] strips every file of the list that can be read, and
    does nothing else: a file that is not in the list keeps its text, and
    no file is created. *)
Theorem resetFiles_strips_listed_files (fs : files)
    (filePaths : list (list Z)) (path : list Z) :
  Watch.resetFiles fs filePaths !! path =
    match fs !! path with
    | Some content =>
        if decide (path ∈ filePaths)
        then Some (toWellFormed (stripLogEntriesFromFileContent content))
        else Some content
    | None => None
    end.
Proof.
  unfold Watch.resetFiles. rewrite resetFiles_fold.
  by destruct (fs !! path).
Qed.

(** [resetFiles] restores a file the watcher annotated: when the file
    holds what [apply] made of a text without markers, with results that
    hold no line break, it holds that text again afterwards. *)
Theorem resetFiles_restores (fs : files) filePaths path marker S E :
  path ∈ filePaths ->
  fs !! path = Some (applyLogEntriesToFileContent marker S E) ->
  includes S trailingCommentStart = false ->
  includes S multiLineCommentStart = false ->
  wellFormed S = true ->
  Forall (fun e => 10 ∉ result e) E ->
  marker ∉ split S nl ->
  includes marker trailingCommentStart = false ->
  Watch.resetFiles fs filePaths !! path = Some S.
Proof.
  intros Hin Hfile HS Hblock Hwf Hone Hfresh Hm.
  unfold Watch.resetFiles. rewrite resetFiles_fold, Hfile.
  rewrite decide_True by done. unfold resetContent.
  unfold stripLogEntriesFromFileContent.
  rewrite (stripTrailing_apply marker S E HS Hone Hfresh Hm).
  by rewrite (stripMulti_id S Hblock), toWellFormed_id.
Qed.

Lemma resetFiles_restores_witness :
  let S := js "f(1)" ++ nl ++ js "g(2)" in
  let E := [entryAt 1 (Some 1) (js "1"); entryAt 2 (Some 1) (js "2")] in
  let fs : files :=
    {[ js "/proj/a.js" := applyLogEntriesToFileContent exampleMarker S E;
       js "/proj/b.js" := js "h(3) //=> 3" ]} in
  fs !! js "/proj/a.js" = Some (js "f(1) //=> 1" ++ nl ++ js "g(2) //=> 2") /\
  Watch.resetFiles fs [js "/proj/a.js"] !! js "/proj/a.js" = Some S.
Proof.
  intros S E fs. split; [reflexivity|].
  apply (resetFiles_restores fs [js "/proj/a.js"] (js "/proj/a.js")
           exampleMarker S E);
    [compute_done|reflexivity|reflexivity|reflexivity|reflexivity|
    |compute_done|reflexivity].
  repeat constructor; compute_done.
Defined.

(** The entries mapped through a source map all belong to the module
    file and have a column; they keep the order of the entries read, and
    no result of an entry of another file, or with a column that is
    unknown or 0, is among them.  Without a source map the entries are
    passed on as they are. *)
Theorem mappedLogEntries_of_module consumer moduleFilePath evalFilePath
    logEntries :
  let mapped :=
    Watch.mappedLogEntries consumer moduleFilePath evalFilePath logEntries in
  match consumer with
  | None => mapped = logEntries
  | Some originalPositionFor =>
      Forall (fun e => filePath e = moduleFilePath /\ column e <> None) mapped /\
      map result mapped `sublist_of`
        map result
          (filter (fun e => filePath e = evalFilePath /\ column e <> None /\
                            column e <> Some 0) logEntries)
  end.
Proof.
  intros mapped. unfold mapped. clear mapped.
  destruct consumer as [opf|]; [|done]. cbn [Watch.mappedLogEntries].
  induction logEntries as [|e es [IH1 IH2]]; [by split|].
  rewrite omap_cons_eq.
  destruct (Watch.mapLogEntry opf moduleFilePath evalFilePath e)
    as [e'|] eqn:Em.
  - assert (He : (filePath e = evalFilePath /\ column e <> None /\
                  column e <> Some 0) /\
                 filePath e' = moduleFilePath /\ column e' <> None /\
                 result e' = result e).
    { revert Em. unfold Watch.mapLogEntry.
      destruct (column e) as [c|]; [|done].
      destruct (Z.eqb_spec c 0); [done|].
      destruct (opf (line e) c) as [[l|] [col|]]; try done.
      case_decide; [|done]. intros [= <-]. cbn.
      repeat split; (done || congruence). }
    destruct He as (HP & Hf & Hc & Hr).
    rewrite filter_cons_True by done. split; [by constructor|].
    cbn [map]. rewrite Hr. by apply sublist_skip.
  - split; [done|].
    destruct (decide (filePath e = evalFilePath /\ column e <> None /\
                      column e <> Some 0)).
    + rewrite filter_cons_True by done. by apply sublist_cons.
    + by rewrite filter_cons_False.
Qed.

(** An entry that the source map places at column 1 gets the column 0,
    which [apply] takes for an unknown column: when the source map places
    every entry at column 1, the watcher writes no annotation. *)
Theorem source_map_column_1_not_annotated originalPositionFor
    moduleFilePath evalFilePath marker moduleContent logEntries :
  (forall e c l col,
     e ∈ logEntries -> column e = Some c ->
     originalPositionFor (line e) c = (Some l, Some col) -> col = 1) ->
  marker ∉ split (stripTrailingLogComments moduleContent) nl ->
  Watch.newModuleContent marker moduleContent
    (Watch.mappedLogEntries (Some originalPositionFor) moduleFilePath
       evalFilePath logEntries)
  = stripTrailingLogComments moduleContent.
Proof.
  intros Hone Hfresh. unfold Watch.newModuleContent.
  apply apply_no_column; [done|].
  intros e' He'. cbn [Watch.mappedLogEntries] in He'.
  apply list_elem_of_omap in He' as (e & He & Hmap).
  unfold Watch.mapLogEntry in Hmap.
  destruct (column e) as [c|] eqn:Ec; [|done].
  destruct (c =? 0); [done|].
  destruct (originalPositionFor (line e) c) as [[l|] [col|]] eqn:Eo; try done.
  case_decide; [|done]. injection Hmap as <-. right. cbn [column].
  by rewrite (Hone e c l col He Ec Eo).
Qed.

Lemma source_map_column_1_not_annotated_witness :
  let originalPositionFor := fun l c : Z => (Some (l - 1), Some 1) in
  let logEntries := [mkLogEntry (js "/proj/dist/a.js") 3 (Some 2) (js "1")] in
  let moduleContent := js "{" ++ nl ++ js " p(1)" ++ nl ++ js "}" in
  Watch.mappedLogEntries (Some originalPositionFor) (js "/proj/src/a.ts")
    (js "/proj/dist/a.js") logEntries
    = [mkLogEntry (js "/proj/src/a.ts") 2 (Some 0) (js "1")] /\
  Watch.newModuleContent exampleMarker moduleContent
    (Watch.mappedLogEntries (Some originalPositionFor) (js "/proj/src/a.ts")
       (js "/proj/dist/a.js") logEntries)
  = stripTrailingLogComments moduleContent.
Proof.
  intros originalPositionFor logEntries moduleContent. split; [reflexivity|].
  apply source_map_column_1_not_annotated; [|compute_done].
  intros e c l col _ _ [= _ <-]. reflexivity.
Defined.

End WatchSteps.

(** * Facts about blocks and the block pass of [strip] *)

Section BlockFacts.

Import Rewrite.

Implicit Types s pat : list Z.

(** [s] holds [pat] at position [k]. *)
Lemma startsWith_lookup s pat k :
  startsWith (drop k s) pat = true <->
  forall i, (i < length pat)%nat -> s !! (k + i)%nat = pat !! i.
Proof.
  revert s k. induction pat as [|c pat IH]; intros s k.
  { split; [intros _ i Hi; simpl in Hi; lia|done]. }
  cbn [startsWith]. destruct (drop k s) as [|x r] eqn:E.
  - split; [done|]. intros H. specialize (H 0%nat ltac:(simpl; lia)).
    rewrite Nat.add_0_r in H. simpl in H.
    apply lookup_lt_Some in H. apply (f_equal length) in E.
    rewrite length_drop in E. simpl in E. lia.
  - assert (Hx : s !! k = Some x).
    { pose proof (lookup_drop s k 0) as H0.
      by rewrite E, Nat.add_0_r in H0. }
    assert (Hr : drop (S k) s = r)
      by (by rewrite <- Nat.add_1_r, <- drop_drop, E).
    rewrite andb_true_iff, Z.eqb_eq, <- Hr, IH. split.
    + intros [-> H] [|i] Hi; [by rewrite Nat.add_0_r|].
      rewrite <- Nat.add_succ_comm. apply H. simpl in Hi. lia.
    + intros H. split.
      * specialize (H 0%nat ltac:(simpl; lia)).
        rewrite Nat.add_0_r, Hx in H. by injection H.
      * intros i Hi. rewrite Nat.add_succ_comm.
        apply (H (S i)). simpl. lia.
Qed.

Lemma startsWith_includes s pat k :
  startsWith (drop k s) pat = true -> includes s pat = true.
Proof.
  intros [x Hx]%startsWith_spec. apply includes_true.
  exists (take k s), x. by rewrite <- Hx, take_drop.
Qed.

(** The first occurrence of [pat] in [p ++ pat ++ r] is at the end of
    [p], when [p] followed by [pat] less its last unit does not hold
    [pat]. *)
Lemma indexOf_app_here p pat r pos :
  (pos <= length p)%nat ->
  includes (p ++ take (length pat - 1) pat) pat = false ->
  indexOf (p ++ pat ++ r) pat pos = Some (length p).
Proof.
  intros Hpos Hno. apply indexOf_Some. rewrite !length_app. split; [lia|].
  split; [by rewrite drop_app_length, startsWith_app|].
  intros k Hk. apply not_true_iff_false. intros Hat.
  apply not_true_iff_false in Hno. apply Hno.
  apply (startsWith_includes _ _ k). apply startsWith_lookup.
  intros i Hi. rewrite startsWith_lookup in Hat. rewrite <- (Hat i Hi).
  destruct (decide (k + i < length p)%nat).
  - by rewrite !lookup_app_l by lia.
  - rewrite !lookup_app_r by lia.
    rewrite lookup_app_l by lia. rewrite lookup_take_lt by lia. done.
Qed.

(** The same when the first unit of [pat] does not occur again in it. *)
Lemma indexOf_app_first a pat r pos c pat' :
  pat = c :: pat' -> c ∉ pat' ->
  (pos <= length a)%nat ->
  includes a pat = false ->
  indexOf (a ++ pat ++ r) pat pos = Some (length a).
Proof.
  intros Hpat Hc Hpos Hno. apply indexOf_Some. rewrite !length_app.
  split; [lia|]. split; [by rewrite drop_app_length, startsWith_app|].
  intros k Hk. apply not_true_iff_false. intros Hat.
  rewrite startsWith_lookup in Hat.
  destruct (decide (k + length pat <= length a)%nat) as [Hin|Hout].
  - apply not_true_iff_false in Hno. apply Hno.
    apply (startsWith_includes _ _ k), startsWith_lookup.
    intros i Hi. rewrite <- (Hat i Hi). by rewrite lookup_app_l by lia.
  - specialize (Hat (length a - k)%nat ltac:(lia)).
    rewrite lookup_app_r in Hat by lia.
    replace (k + (length a - k) - length a)%nat with 0%nat in Hat by lia.
    rewrite Hpat in Hat. cbn [app lookup list_lookup] in Hat.
    destruct (length a - k)%nat as [|n] eqn:En; [lia|].
    cbn in Hat. symmetry in Hat. by apply list_elem_of_lookup_2 in Hat.
Qed.

Lemma indexOf_shift pre b pat i :
  indexOf (pre ++ b) pat (length pre + i) =
  (fun j => (length pre + j)%nat) <$> indexOf b pat i.
Proof.
  unfold indexOf. rewrite length_app, Nat.add_min_distr_l.
  rewrite drop_app_add'  by done.
  rewrite (indexFrom_shift pat _ (length pre + _)).
  rewrite (indexFrom_shift pat _ (Nat.min i (length b))).
  destruct (indexFrom pat (drop (Nat.min i (length b)) b) 0); simpl; [|done].
  f_equal. lia.
Qed.

Lemma stripMultiLoop_shift fuel content pre b i acc :
  content = pre ++ b -> i = length pre ->
  stripMultiLoop fuel content i acc = acc ++ stripMultiLoop fuel b 0 [].
Proof.
  revert content pre b i acc.
  induction fuel as [|fuel IH]; intros content pre b i acc -> ->;
    [by rewrite app_nil_r|].
  cbn [stripMultiLoop]. rewrite length_app.
  destruct (Nat.leb_spec (length pre + length b) (length pre)),
           (Nat.leb_spec (length b) 0); try lia; [by rewrite app_nil_r|].
  pose proof (indexOf_shift pre b multiLineCommentStart 0) as Hs.
  rewrite Nat.add_0_r in Hs. rewrite Hs.
  destruct (indexOf b multiLineCommentStart 0) as [cs|] eqn:Es; cbn [fmap option_fmap option_map];
    [|unfold sliceFrom; by rewrite drop_app_length, drop_0].
  rewrite indexOf_shift.
  destruct (indexOf b multiLineCommentEnd cs) as [ce|] eqn:Ee; cbn [fmap option_fmap option_map];
    [|unfold sliceFrom; by rewrite drop_app_length, drop_0].
  pose proof (indexOf_bound _ _ _ _ Ee) as Hbound.
  change (length multiLineCommentEnd) with 3%nat in *.
  assert (Hslice : slice (pre ++ b) (length pre) (length pre + cs)
                   = slice b 0 cs).
  { unfold slice. rewrite drop_app_length, drop_0. f_equal. lia. }
  rewrite Hslice.
  rewrite (IH (pre ++ b) (pre ++ take (ce + 3) b) (drop (ce + 3) b));
    [|by rewrite <- app_assoc, take_drop
     |rewrite length_app, length_take; lia].
  rewrite (IH b (take (ce + 3) b) (drop (ce + 3) b) _ ([] ++ slice b 0 cs));
    [|by rewrite take_drop|rewrite length_take; lia].
  by rewrite <- app_assoc.
Qed.

(** The block pass removes a block that a line break follows, and goes
    on behind it. *)
Lemma stripMulti_block a body b :
  includes a multiLineCommentStart = false ->
  includes (multiLineCommentStart ++ body ++ js "*/") multiLineCommentEnd
    = false ->
  stripMultiLineLogComments
    (a ++ multiLineCommentStart ++ body ++ multiLineCommentEnd ++ b)
  = a ++ stripMultiLineLogComments b.
Proof.
  intros Ha Hbody. unfold stripMultiLineLogComments.
  set (content := a ++ multiLineCommentStart ++ body ++ multiLineCommentEnd ++ b).
  assert (Hlen : length content = (length a + 4 + length body + 3 + length b)%nat).
  { unfold content. rewrite !length_app. simpl. lia. }
  assert (Hslice : slice content 0 (length a) = a).
  { unfold slice, content. by rewrite Nat.sub_0_r, drop_0, take_app_length. }
  remember (stripMultiLoop (S (length b)) b 0 []) as stripped eqn:Hstripped.
  cbn [stripMultiLoop].
  destruct (Nat.leb_spec (length content) 0); [lia|].
  unfold content at 1.
  rewrite (indexOf_app_first a multiLineCommentStart _ 0 47 [42; 61; 62]);
    [|done|compute_done|lia|done].
  pose proof (indexOf_shift a (multiLineCommentStart ++ body
                ++ multiLineCommentEnd ++ b) multiLineCommentEnd 0) as Hs.
  rewrite Nat.add_0_r in Hs. fold content in Hs. rewrite Hs.
  replace (multiLineCommentStart ++ body ++ multiLineCommentEnd ++ b)
    with ((multiLineCommentStart ++ body) ++ multiLineCommentEnd ++ b)
    by (by rewrite <- app_assoc).
  rewrite indexOf_app_here; [|lia|by rewrite <- app_assoc].
  cbn [fmap option_fmap option_map].
  change (length multiLineCommentEnd) with 3%nat.
  rewrite (stripMultiLoop_shift _ content
             (a ++ multiLineCommentStart ++ body ++ multiLineCommentEnd) b);
    [|unfold content; by rewrite <- !app_assoc
     |rewrite !length_app; simpl; lia].
  rewrite Hslice. cbn [app]. f_equal. subst stripped.
  apply stripMultiLoop_fuel; lia.
Qed.

(** The block pass leaves a block that no line break follows. *)
Lemma stripMulti_open_block a rest :
  includes a multiLineCommentStart = false ->
  includes (multiLineCommentStart ++ rest) multiLineCommentEnd = false ->
  stripMultiLineLogComments (a ++ multiLineCommentStart ++ rest)
  = a ++ multiLineCommentStart ++ rest.
Proof.
  intros Ha Hrest. unfold stripMultiLineLogComments.
  set (content := a ++ multiLineCommentStart ++ rest).
  assert (Hlen : length content = (length a + 4 + length rest)%nat).
  { unfold content. rewrite !length_app. simpl. lia. }
  cbn [stripMultiLoop].
  destruct (Nat.leb_spec (length content) 0); [lia|].
  unfold content at 1.
  rewrite (indexOf_app_first a multiLineCommentStart _ 0 47 [42; 61; 62]);
    [|done|compute_done|lia|done].
  pose proof (indexOf_shift a (multiLineCommentStart ++ rest)
                multiLineCommentEnd 0) as Hs.
  rewrite Nat.add_0_r in Hs. fold content in Hs. rewrite Hs.
  unfold includes in Hrest.
  destruct (indexOf (multiLineCommentStart ++ rest) multiLineCommentEnd 0);
    [done|].
  cbn [fmap option_fmap option_map]. unfold sliceFrom. by rewrite drop_0.
Qed.

Lemma join_middle sep (xs : list (list Z)) y zs :
  join sep (xs ++ y :: zs) =
  concat (map (fun x => x ++ sep) xs) ++ y
  ++ concat (map (fun z => sep ++ z) zs).
Proof.
  induction xs as [|x xs IH].
  - cbn [app map concat]. induction zs as [|z zs IHz].
    + by rewrite join_singleton, app_nil_r.
    + rewrite join_cons by done. cbn [map concat].
      destruct zs as [|z' zs].
      * rewrite join_singleton. cbn [map concat]. by rewrite app_nil_r.
      * rewrite join_cons by done. rewrite join_cons in IHz by done.
        apply (f_equal (drop (length y))) in IHz.
        rewrite !drop_app_length in IHz.
        rewrite <- IHz. by rewrite <- !app_assoc.
  - cbn [app map concat]. rewrite join_cons by by destruct xs.
    by rewrite IH, <- !app_assoc.
Qed.

(** Entries of one line make one group. *)
Lemma groupByLine_single k E :
  E <> [] -> (forall e, e ∈ E -> line e = k) -> groupByLine E = [(k, E)].
Proof.
  intros Hne Hk. unfold groupByLine.
  assert (Hgen : forall es es0,
    (forall e, e ∈ es -> line e = k) ->
    fold_left (fun obj e => pushEntry (line e) e obj) es [(k, es0)]
    = [(k, es0 ++ es)]).
  { induction es as [|e es IH]; intros es0 Hes; [by rewrite app_nil_r|].
    cbn [fold_left pushEntry]. rewrite (Hes e) by by left.
    rewrite Z.eqb_refl, IH; [by rewrite <- app_assoc|].
    intros e' He'. apply Hes. by right. }
  destruct E as [|e E]; [done|]. cbn [fold_left pushEntry].
  rewrite (Hk e) by by left. rewrite Hgen; [done|].
  intros e' He'. apply Hk. by right.
Qed.

Lemma split_unit_prefix c h s :
  c ∉ h ->
  exists s1 ss, split s [c] = s1 :: ss /\ split (h ++ s) [c] = (h ++ s1) :: ss.
Proof.
  intros Hc. induction h as [|x h IH].
  - destruct (split s [c]) as [|s1 ss] eqn:E; [by apply split_not_nil in E|].
    by exists s1, ss.
  - apply not_elem_of_cons in Hc as [Hx Hc].
    destruct (IH Hc) as (s1 & ss & E1 & E2). exists s1, ss. split; [done|].
    cbn [app]. rewrite split_unit_cons, E2.
    by destruct (Z.eqb_spec c x).
Qed.

Lemma join_head sep (l : list (list Z)) :
  exists t, (forall x, join sep (x :: l) = x ++ t) /\
            forall u, u ∈ t -> u ∈ sep \/ exists piece, piece ∈ l /\ u ∈ piece.
Proof.
  destruct l as [|y l].
  - exists []. split; [intros x; by rewrite join_singleton, app_nil_r|].
    by intros u ?%elem_of_nil.
  - exists (sep ++ join sep (y :: l)). split; [intros x; by apply join_cons|].
    intros u [Hu|Hu]%elem_of_app; [by left|]. by apply elem_of_join in Hu.
Qed.

Lemma join_app sep (xs ys : list (list Z)) :
  xs <> [] -> ys <> [] ->
  join sep (xs ++ ys) = join sep xs ++ sep ++ join sep ys.
Proof.
  intros Hxs Hys. induction xs as [|x xs IH]; [done|].
  destruct xs as [|x' xs].
  - cbn [app]. by rewrite join_singleton, join_cons.
  - cbn [app] in *. rewrite (join_cons sep x (x' :: xs ++ ys)) by done.
    rewrite IH by done. rewrite (join_cons sep x (x' :: xs)) by done.
    by rewrite <- !app_assoc.
Qed.

Lemma prefixLines_app_nl s t prefix :
  prefixLines (s ++ nl ++ t) prefix =
  prefixLines s prefix ++ nl ++ prefixLines t prefix.
Proof.
  unfold prefixLines. change (s ++ nl ++ t) with (s ++ 10 :: t).
  unfold nl. rewrite split_unit_app_all, map_app.
  apply join_app.
  - destruct (split s [10]) eqn:E; [by apply split_not_nil in E|done].
  - destruct (split t [10]) eqn:E; [by apply split_not_nil in E|done].
Qed.

Lemma prefixLines_line s prefix : 10 ∉ s -> prefixLines s prefix = prefix ++ s.
Proof.
  intros Hs. unfold prefixLines, nl. by rewrite split_unit_free.
Qed.

Lemma prefixLines_head h s prefix :
  10 ∉ h ->
  exists q, prefixLines (h ++ s) prefix = prefix ++ h ++ q /\
            forall u, u ∈ q -> u ∈ s \/ u ∈ prefix \/ u = 10.
Proof.
  intros Hh. unfold prefixLines, nl.
  destruct (split_unit_prefix 10 h s Hh) as (s1 & ss & E1 & ->).
  cbn [map].
  destruct (join_head [10] (map (fun l => prefix ++ l) ss)) as (t & Ht & Hu).
  exists (s1 ++ t). rewrite Ht. split; [by rewrite <- !app_assoc|].
  assert (Hpiece : forall piece u, piece ∈ s1 :: ss -> u ∈ piece -> u ∈ s).
  { intros piece u Hp Hin. rewrite <- E1 in Hp.
    destruct (split_elem_substring s [10] piece) as (a & b & ->); [done..|].
    rewrite !elem_of_app. auto. }
  intros u [Hin|Hin]%elem_of_app.
  - left. apply (Hpiece s1); [by left|done].
  - destruct (Hu u Hin) as [Hsep|(piece & Hp & Hin')].
    + right. right. by apply list_elem_of_singleton in Hsep.
    + apply list_elem_of_fmap in Hp as (l0 & -> & Hl0).
      apply elem_of_app in Hin' as [?|?]; [by right; left|].
      left. apply (Hpiece l0); [by right|done].
Qed.

Lemma prefixLines_units s prefix u :
  u ∈ prefixLines s prefix -> u ∈ s \/ u ∈ prefix \/ u = 10.
Proof.
  intros Hu. destruct (prefixLines_head [] s prefix) as (q & E & Hq);
    [apply not_elem_of_nil|].
  cbn [app] in E. rewrite E in Hu.
  apply elem_of_app in Hu as [?|Hu]; [by right; left|by apply Hq].
Qed.

(** The slashes of a block are its first and its last code unit, when
    its text holds none. *)
Lemma block_slashes body i :
  47 ∉ body ->
  (multiLineCommentStart ++ body ++ js "*/") !! i = Some 47 ->
  i = 0%nat \/ i = (4 + length body + 1)%nat.
Proof.
  intros Hbody Hi.
  change multiLineCommentStart with [47; 42; 61; 62] in Hi.
  destruct (decide (i < 4)%nat) as [Hlt|Hge].
  { rewrite lookup_app_l in Hi by (simpl; lia).
    destruct i as [|[|[|[|i]]]]; first [by left | done | lia]. }
  rewrite lookup_app_r in Hi by (simpl; lia). cbn [length] in Hi.
  destruct (decide (i - 4 < length body)%nat) as [Hlt|Hge'].
  { rewrite lookup_app_l in Hi by lia.
    by apply list_elem_of_lookup_2 in Hi. }
  rewrite lookup_app_r in Hi by lia.
  destruct (i - 4 - length body)%nat as [|[|m]] eqn:E; [done| |done].
  right. lia.
Qed.

Lemma block_no_end body :
  47 ∉ body ->
  includes (multiLineCommentStart ++ body ++ js "*/") multiLineCommentEnd
  = false.
Proof.
  intros Hbody. apply not_true_iff_false. intros (x & y & E)%includes_true.
  assert (Hlen : length (multiLineCommentStart ++ body ++ js "*/")
                 = length (x ++ multiLineCommentEnd ++ y)) by by rewrite E.
  rewrite !length_app in Hlen. cbn [length] in Hlen.
  change (length multiLineCommentStart) with 4%nat in Hlen.
  change (length multiLineCommentEnd) with 3%nat in Hlen.
  change (length (js "*/")) with 2%nat in Hlen.
  destruct (block_slashes body (length x + 1) Hbody); [|lia..].
  rewrite E, lookup_app_r by lia.
  by replace (length x + 1 - length x)%nat with 1%nat by lia.
Qed.

Lemma block_no_trailing indent body :
  47 ∉ indent -> 47 ∉ body ->
  includes (indent ++ multiLineCommentStart ++ body ++ js "*/")
    trailingCommentStart = false.
Proof.
  intros Hindent Hbody. apply not_true_iff_false.
  intros (x & y & E)%includes_true.
  assert (Hlen : length (indent ++ multiLineCommentStart ++ body ++ js "*/")
                 = length (x ++ trailingCommentStart ++ y)) by by rewrite E.
  rewrite !length_app in Hlen.
  change (length multiLineCommentStart) with 4%nat in Hlen.
  change (length trailingCommentStart) with 5%nat in Hlen.
  change (length (js "*/")) with 2%nat in Hlen.
  assert (Hat : forall n, (n = 1 \/ n = 2)%nat ->
            (indent ++ multiLineCommentStart ++ body ++ js "*/")
              !! (length x + n)%nat = Some 47).
  { intros n Hn. rewrite E, lookup_app_r by lia.
    replace (length x + n - length x)%nat with n by lia.
    by destruct Hn as [-> | ->]. }
  assert (Hpos : forall n, (n = 1 \/ n = 2)%nat ->
            (length x + n = length indent)%nat \/
            (length x + n = length indent + (4 + length body + 1))%nat).
  { intros n Hn. specialize (Hat n Hn).
    destruct (decide (length x + n < length indent)%nat).
    { rewrite lookup_app_l in Hat by lia.
      by apply list_elem_of_lookup_2 in Hat. }
    rewrite lookup_app_r in Hat by lia.
    destruct (block_slashes body _ Hbody Hat); lia. }
  destruct (Hpos 1%nat ltac:(lia)), (Hpos 2%nat ltac:(lia)); lia.
Qed.

(** The indented block comment: the indentation, the block-open marker,
    a text without slash, and the end of the comment. *)
Lemma prefixLines_blockComment results indent :
  Forall (fun r => 47 ∉ r) results -> 47 ∉ indent ->
  exists body,
    prefixLines (blockComment results) indent
    = indent ++ multiLineCommentStart ++ body ++ js "*/" /\
    (47 ∉ body).
Proof.
  intros Hres Hindent. unfold blockComment.
  set (R := sliceFrom _ 5).
  assert (HR : 47 ∉ R).
  { unfold R, sliceFrom. intros Hin%subseteq_drop.
    apply prefixLines_units in Hin as [Hin|[Hin|Hin]]; [| |done].
    - apply elem_of_join in Hin as [Hin|(r & Hr & Hin)].
      + revert Hin. compute_done.
      + rewrite Forall_forall in Hres. apply list_elem_of_In in Hr.
        by apply (Hres r).
    - revert Hin. compute_done. }
  replace (multiLineCommentStart ++ js " " ++ R ++ nl ++ js "*/")
    with (((multiLineCommentStart ++ js " ") ++ R) ++ nl ++ js "*/")
    by (by rewrite <- !app_assoc).
  rewrite prefixLines_app_nl, (prefixLines_line (js "*/")) by compute_done.
  destruct (prefixLines_head (multiLineCommentStart ++ js " ") R indent)
    as (q & -> & Hq); [compute_done|].
  exists (js " " ++ q ++ nl ++ indent). split; [by rewrite <- !app_assoc|].
  rewrite !elem_of_app. intros [H|[H|[H|H]]]; [revert H; compute_done| | |done].
  - by destruct (Hq 47 H) as [?|[?|?]].
  - revert H. compute_done.
Qed.

Lemma backtrackIndent_no_slash line caret : 47 ∉ backtrackIndent line caret.
Proof.
  unfold backtrackIndent. intros (c & E & _)%list_elem_of_fmap.
  by destruct (c =? tab).
Qed.

(** What a group with a result of several lines does to the lines of a
    text without markers. *)
Lemma applyGroup_block marker lines k E j l :
  Forall (fun l0 => includes l0 trailingCommentStart = false) lines ->
  Forall (fun l0 => includes l0 multiLineCommentStart = false) lines ->
  (exists e, e ∈ E /\ 10 ∈ result e) ->
  findCallEndLineIndex k (leftMostColumn E) lines = Some j ->
  lines !! j = Some l ->
  applyGroup marker lines (k, E) =
    <[j := l ++ nl ++
           prefixLines (blockComment (map result E))
             (backtrackIndent l (numPred (leftMostColumn E)))]> lines.
Proof.
  intros Hclean Hblock (e & He & Hnl) Hfind Hl. unfold applyGroup.
  rewrite Hfind, Hl.
  destruct (findCallEndLineIndex_line _ _ _ _ Hfind) as (l' & Hl' & Ht).
  rewrite Hl in Hl'. injection Hl' as <-. rewrite Ht. cbn [negb].
  assert (Hex : existsb (fun e => includes (result e) nl) E = true).
  { apply existsb_exists. exists e. split; [by apply list_elem_of_In|].
    by apply includes_unit. }
  rewrite Hex.
  assert (Hc : includes l trailingCommentStart = false).
  { rewrite Forall_forall in Hclean.
    eapply Hclean, list_elem_of_In, list_elem_of_lookup_2, Hl. }
  rewrite firstPiece_no_sep by (done || apply trailingCommentStart_not_nil).
  rewrite list_lookup_insert_ne by lia.
  destruct (lines !! S j) as [next|] eqn:En; [|done].
  assert (Hn : includes next multiLineCommentStart = false).
  { rewrite Forall_forall in Hblock.
    eapply Hblock, list_elem_of_In, list_elem_of_lookup_2, En. }
  by rewrite Hn, andb_false_r.
Qed.

Lemma includes_units x pat c :
  includes x pat = true -> c ∈ pat -> c ∈ x.
Proof.
  intros (a & b & ->)%includes_true Hc. rewrite !elem_of_app. auto.
Qed.

Lemma elem_of_list_insert (lines : list (list Z)) i v x :
  x ∈ <[i := v]> lines -> x = v \/ x ∈ lines.
Proof.
  intros [n Hn]%list_elem_of_lookup. destruct (decide (i = n)) as [->|Hne].
  - left. pose proof (lookup_lt_Some _ _ _ Hn) as Hlt.
    rewrite length_insert in Hlt.
    rewrite list_lookup_insert_eq in Hn by done. by injection Hn.
  - right. rewrite list_lookup_insert_ne in Hn by done.
    by apply list_elem_of_lookup_2 in Hn.
Qed.

Lemma includes_lines_false pat (lines : list (list Z)) :
  pat <> [] -> 10 ∉ pat ->
  Forall (fun l => includes l pat = false) lines ->
  includes (join nl lines) pat = false.
Proof.
  intros Hpat Hnl Hall. apply not_true_iff_false. intros Hinc.
  destruct (includes_join_inv pat lines Hpat Hnl Hinc) as (l & Hl & Hin).
  rewrite Forall_forall in Hall. apply list_elem_of_In in Hl.
  by rewrite (Hall l Hl) in Hin.
Qed.

(** The text [apply] makes of a text without markers and the entries of
    one call, one of which has a result of several lines: the text up to
    the line where the call ends, the indented block, the rest. *)
Lemma apply_block_text marker T E k j l :
  includes T trailingCommentStart = false ->
  includes T multiLineCommentStart = false ->
  E <> [] ->
  (forall e, e ∈ E -> line e = k /\ (47 ∉ result e)) ->
  (exists e, e ∈ E /\ 10 ∈ result e) ->
  marker ∉ split T nl -> 10 ∉ marker ->
  findCallEndLineIndex k (leftMostColumn E) (split T nl) = Some j ->
  split T nl !! j = Some l ->
  exists body,
    (47 ∉ body) /\
    applyLogEntriesToFileContent marker T E =
      (concat (map (fun x => x ++ nl) (take j (split T nl))) ++ l ++ nl
       ++ backtrackIndent l (numPred (leftMostColumn E)))
      ++ multiLineCommentStart ++ body ++ js "*/"
      ++ concat (map (fun z => nl ++ z) (drop (S j) (split T nl))) /\
    includes (applyLogEntriesToFileContent marker T E) trailingCommentStart
      = false.
Proof.
  intros HT Hblock Hne Hall Hmulti Hfresh Hm Hfind Hl.
  set (lines := split T nl) in *.
  set (indent := backtrackIndent l (numPred (leftMostColumn E))).
  pose proof (split_lines_clean T _ HT) as Hclean. fold lines in Hclean.
  pose proof (split_lines_clean T _ Hblock) as Hclean'. fold lines in Hclean'.
  destruct (prefixLines_blockComment (map result E) indent)
    as (body & EB & Hbody).
  { apply Forall_fmap, Forall_forall. intros e He%list_elem_of_In.
    by apply Hall. }
  { apply backtrackIndent_no_slash. }
  assert (Happly : applyLogEntriesToFileContent marker T E =
            join nl (<[j := l ++ nl ++ indent ++ multiLineCommentStart
                             ++ body ++ js "*/"]> lines)).
  { unfold applyLogEntriesToFileContent. fold lines.
    rewrite (groupByLine_single k E Hne) by (intros e He; by apply Hall).
    cbn [fold_left].
    rewrite (applyGroup_block marker lines k E j l) by done.
    fold indent. rewrite EB. rewrite filter_fresh; [done|].
    intros [Hin|Hin]%elem_of_list_insert; [|done].
    apply Hm. rewrite Hin, !elem_of_app. right. left. by left. }
  exists body. split; [done|]. rewrite Happly. split.
  - rewrite insert_take_drop by (by eapply lookup_lt_Some).
    rewrite join_middle. by rewrite <- !app_assoc.
  - apply includes_lines_false;
      [apply trailingCommentStart_not_nil|compute_done|].
    apply Forall_forall. intros x [Hx|Hx]%list_elem_of_In%elem_of_list_insert.
    + subst x. change (l ++ nl ++ ?b) with (join nl [l; b]).
      apply includes_lines_false;
        [apply trailingCommentStart_not_nil|compute_done|].
      constructor; [|constructor; [|done]].
      * rewrite Forall_forall in Hclean.
        eapply Hclean, list_elem_of_In, list_elem_of_lookup_2, Hl.
      * apply block_no_trailing; [apply backtrackIndent_no_slash|done].
    + rewrite Forall_forall in Hclean. by apply Hclean, list_elem_of_In.
Qed.

(** The text before a block holds no block-open marker. *)
Lemma before_block_clean (lines : list (list Z)) j l indent :
  Forall (fun l0 => includes l0 multiLineCommentStart = false) lines ->
  lines !! j = Some l -> 47 ∉ indent ->
  includes (concat (map (fun x => x ++ nl) (take j lines)) ++ l ++ nl ++ indent)
    multiLineCommentStart = false.
Proof.
  intros Hclean Hl Hindent.
  replace (concat (map (fun x => x ++ nl) (take j lines)) ++ l ++ nl ++ indent)
    with (join nl (take (S j) lines ++ indent :: [])).
  - apply includes_lines_false; [done|compute_done|].
    apply Forall_app. split; [by apply Forall_take|].
    constructor; [|done]. apply not_true_iff_false. intros Hinc.
    apply Hindent. apply (includes_units _ _ 47 Hinc). compute_done.
  - rewrite join_middle, (take_S_r _ _ _ Hl), map_app, concat_app.
    cbn [map concat]. by rewrite !app_nil_r, <- !app_assoc.
Qed.

Lemma after_block_clean (lines : list (list Z)) n :
  Forall (fun l0 => includes l0 multiLineCommentStart = false) lines ->
  includes (join nl (drop n lines)) multiLineCommentStart = false.
Proof.
  intros Hclean. apply includes_lines_false; [done|compute_done|].
  by apply Forall_drop.
Qed.

Lemma backtrackIndent_units line caret u :
  u ∈ backtrackIndent line caret -> u = tab \/ u = space.
Proof.
  unfold backtrackIndent. intros (c & -> & _)%list_elem_of_fmap.
  destruct (c =? tab); auto.
Qed.

End BlockFacts.

(** * Properties of blocks *)

Section BlockProperties.

Import Rewrite.

(** The block pass of [strip] on a text whose first block-open marker
    follows [a]: a block that ends with [*/] and a line break is removed
    with that line break, and the pass goes on behind it; when no [*/]
    with a line break follows the marker, the text is left as it is. *)
Theorem stripMultiLineLogComments_first_block a :
  includes a multiLineCommentStart = false ->
  (forall body b,
     includes (multiLineCommentStart ++ body ++ js "*/") multiLineCommentEnd
       = false ->
     stripMultiLineLogComments
       (a ++ multiLineCommentStart ++ body ++ multiLineCommentEnd ++ b)
     = a ++ stripMultiLineLogComments b) /\
  (forall rest,
     includes (multiLineCommentStart ++ rest) multiLineCommentEnd = false ->
     stripMultiLineLogComments (a ++ multiLineCommentStart ++ rest)
     = a ++ multiLineCommentStart ++ rest).
Proof.
  intros Ha. split.
  - intros body b Hbody. by apply stripMulti_block.
  - intros rest Hrest. by apply stripMulti_open_block.
Qed.

Lemma stripMultiLineLogComments_first_block_witness :
  stripMultiLineLogComments
    (js "f(1)" ++ nl ++ js "/*=> a" ++ nl ++ js "     b" ++ nl ++ js "*/"
     ++ nl ++ js "g(2)" ++ nl ++ js "/*=> c" ++ nl ++ js "*/")
  = js "f(1)" ++ nl ++ js "g(2)" ++ nl ++ js "/*=> c" ++ nl ++ js "*/".
Proof.
  exact (proj1 (stripMultiLineLogComments_first_block (js "f(1)" ++ nl)
                  eq_refl)
           (js " a" ++ nl ++ js "     b" ++ nl)
           (js "g(2)" ++ nl ++ js "/*=> c" ++ nl ++ js "*/") eq_refl).
Defined.

(** Stripping after a block was applied.  For a text without markers
    and the entries of one call, one of them with a result of several
    lines and none with a slash in its result: when the call does not end
    on the last line, [strip] removes the block and leaves its
    indentation at the start of the next line; so it gives the text back
    when the entries are at column 1. *)
Theorem strip_after_block_apply marker T E k j l next :
  includes T trailingCommentStart = false ->
  includes T multiLineCommentStart = false ->
  E <> [] ->
  (forall e, e ∈ E -> line e = k /\ (47 ∉ result e)) ->
  (exists e, e ∈ E /\ 10 ∈ result e) ->
  marker ∉ split T nl -> 10 ∉ marker ->
  findCallEndLineIndex k (leftMostColumn E) (split T nl) = Some j ->
  split T nl !! j = Some l ->
  split T nl !! S j = Some next ->
  stripLogEntriesFromFileContent (applyLogEntriesToFileContent marker T E)
    = join nl (<[S j := backtrackIndent l (numPred (leftMostColumn E)) ++ next]>
                 (split T nl)) /\
  (leftMostColumn E = Fin 1 ->
   stripLogEntriesFromFileContent (applyLogEntriesToFileContent marker T E)
     = T).
Proof.
  intros HT Hblock Hne Hall Hmulti Hfresh Hm Hfind Hl Hnext.
  destruct (apply_block_text marker T E k j l) as (body & Hbody & Happly & Hc);
    try done.
  set (lines := split T nl) in *.
  set (indent := backtrackIndent l (numPred (leftMostColumn E))) in *.
  pose proof (split_lines_clean T _ Hblock) as Hclean. fold lines in Hclean.
  assert (Hstrip :
    stripLogEntriesFromFileContent (applyLogEntriesToFileContent marker T E)
    = join nl (<[S j := indent ++ next]> lines)).
  { unfold stripLogEntriesFromFileContent.
    rewrite (stripTrailing_id _ Hc), Happly.
    rewrite (drop_S lines next (S j) Hnext). cbn [map concat].
    set (post := concat (map (fun z => nl ++ z) (drop (S (S j)) lines))).
    replace (js "*/" ++ (nl ++ next) ++ post)
      with (multiLineCommentEnd ++ next ++ post)
      by (unfold multiLineCommentEnd; by rewrite <- !app_assoc).
    rewrite stripMulti_block;
      [|apply before_block_clean; [done..|apply backtrackIndent_no_slash]
       |by apply block_no_end].
    rewrite stripMulti_id.
    - rewrite insert_take_drop by (by eapply lookup_lt_Some).
      rewrite join_middle, (take_S_r _ _ _ Hl), map_app, concat_app.
      cbn [map concat]. by rewrite !app_nil_r, <- !app_assoc.
    - pose proof (after_block_clean lines (S j) Hclean) as Hafter.
      rewrite (drop_S lines next (S j) Hnext) in Hafter.
      change (next :: ?x) with ([] ++ next :: x) in Hafter.
      rewrite join_middle in Hafter. by cbn [map concat app] in Hafter. }
  split; [done|]. intros Hcol. rewrite Hstrip. unfold indent.
  rewrite Hcol. cbn [numPred backtrackIndent clampPosition].
  change (1 - 1) with 0. cbn [Z.to_nat Nat.min take map app].
  rewrite list_insert_id by done. apply join_split, nl_not_nil.
Qed.

Lemma strip_after_block_apply_witness :
  let T := js "f(1," ++ nl ++ js "  2)" ++ nl ++ js "g(2)" in
  let E := [entryAt 1 (Some 1) (js "a" ++ nl ++ js "b");
            entryAt 1 (Some 1) (js "c")] in
  applyLogEntriesToFileContent exampleMarker T E
    = js "f(1," ++ nl ++ js "  2)" ++ nl ++ js "/*=> a" ++ nl ++ js "     b,"
      ++ nl ++ js "     c" ++ nl ++ js "*/" ++ nl ++ js "g(2)" /\
  stripLogEntriesFromFileContent
    (applyLogEntriesToFileContent exampleMarker T E) = T.
Proof.
  intros T E. split; [reflexivity|].
  refine (proj2 (strip_after_block_apply exampleMarker T E 1 1 (js "  2)")
                   (js "g(2)") eq_refl eq_refl _ _ _ _ _ eq_refl eq_refl
                   eq_refl) eq_refl).
  - done.
  - intros e He. unfold E in He.
    repeat (apply elem_of_cons in He as [->|He]);
      [..|by apply elem_of_nil in He]; split; compute_done.
  - eexists. split; [by left|]. compute_done.
  - compute_done.
  - compute_done.
Defined.

(** A block written for a call that ends on the last line of the text is
    not removed: no line break follows its [*/], so [strip] leaves what
    [apply] wrote as it is. *)
Theorem block_at_end_is_kept marker T E k j l :
  includes T trailingCommentStart = false ->
  includes T multiLineCommentStart = false ->
  E <> [] ->
  (forall e, e ∈ E -> line e = k /\ (47 ∉ result e)) ->
  (exists e, e ∈ E /\ 10 ∈ result e) ->
  marker ∉ split T nl -> 10 ∉ marker ->
  findCallEndLineIndex k (leftMostColumn E) (split T nl) = Some j ->
  split T nl !! j = Some l ->
  split T nl !! S j = None ->
  stripLogEntriesFromFileContent (applyLogEntriesToFileContent marker T E)
    = applyLogEntriesToFileContent marker T E /\
  includes (applyLogEntriesToFileContent marker T E) multiLineCommentStart
    = true.
Proof.
  intros HT Hblock Hne Hall Hmulti Hfresh Hm Hfind Hl Hnext.
  destruct (apply_block_text marker T E k j l) as (body & Hbody & Happly & Hc);
    try done.
  set (lines := split T nl) in *.
  pose proof (split_lines_clean T _ Hblock) as Hclean. fold lines in Hclean.
  split.
  - unfold stripLogEntriesFromFileContent.
    rewrite (stripTrailing_id _ Hc), Happly.
    rewrite (drop_ge lines (S j)) by (by apply lookup_ge_None).
    cbn [map concat]. rewrite app_nil_r.
    apply stripMulti_open_block;
      [apply before_block_clean; [done..|apply backtrackIndent_no_slash]|].
    by apply block_no_end.
  - rewrite Happly. apply includes_true. eauto.
Qed.

Lemma block_at_end_is_kept_witness :
  let T := js "x" ++ nl ++ js "f(1)" in
  let E := [entryAt 2 (Some 1) (js "a" ++ nl ++ js "b")] in
  applyLogEntriesToFileContent exampleMarker T E
    = js "x" ++ nl ++ js "f(1)" ++ nl ++ js "/*=> a" ++ nl ++ js "     b"
      ++ nl ++ js "*/" /\
  stripLogEntriesFromFileContent (applyLogEntriesToFileContent exampleMarker T E)
    = applyLogEntriesToFileContent exampleMarker T E /\
  includes (applyLogEntriesToFileContent exampleMarker T E)
    multiLineCommentStart = true.
Proof.
  intros T E. split; [reflexivity|].
  refine (block_at_end_is_kept exampleMarker T E 2 1 (js "f(1)")
            eq_refl eq_refl _ _ _ _ _ eq_refl eq_refl eq_refl).
  - done.
  - intros e He. unfold E in He.
    repeat (apply elem_of_cons in He as [->|He]);
      [..|by apply elem_of_nil in He]; split; compute_done.
  - eexists. split; [by left|]. compute_done.
  - compute_done.
  - compute_done.
Defined.

End BlockProperties.

(** * Facts about the replacement of a block *)

Section ReplaceFacts.

Import Rewrite.

Lemma join_flatten (xs ys zs : list (list Z)) :
  ys <> [] -> join nl (xs ++ join nl ys :: zs) = join nl (xs ++ ys ++ zs).
Proof.
  intros Hys. destruct ys as [|y ys]; [done|].
  cbn [app]. rewrite !join_middle.
  change (y :: ys) with ([] ++ y :: ys). rewrite join_middle.
  cbn [map concat app]. by rewrite map_app, concat_app, <- !app_assoc.
Qed.

(** The lines of an indented block comment: one with the block-open
    marker, lines without [*/], and the line that ends the comment. *)
Lemma blockComment_lines results indent :
  Forall (fun r => 47 ∉ r) results -> 47 ∉ indent ->
  exists first mids,
    map (fun x => indent ++ x) (split (blockComment results) nl)
    = first :: mids ++ [indent ++ js "*/"] /\
    includes first multiLineCommentStart = true /\
    Forall (fun x => includes x (js "*/") = false) mids.
Proof.
  intros Hres Hindent. unfold blockComment.
  set (R := sliceFrom _ 5).
  assert (HR : 47 ∉ R).
  { unfold R, sliceFrom. intros Hin%subseteq_drop.
    apply prefixLines_units in Hin as [Hin|[Hin|Hin]]; [| |done].
    - apply elem_of_join in Hin as [Hin|(r & Hr & Hin)].
      + revert Hin. compute_done.
      + rewrite Forall_forall in Hres. apply list_elem_of_In in Hr.
        by apply (Hres r).
    - revert Hin. compute_done. }
  replace (multiLineCommentStart ++ js " " ++ R ++ nl ++ js "*/")
    with (((multiLineCommentStart ++ js " ") ++ R) ++ 10 :: js "*/")
    by (by rewrite <- !app_assoc).
  unfold nl. rewrite split_unit_app_all.
  destruct (split_unit_prefix 10 (multiLineCommentStart ++ js " ") R)
    as (r1 & rs & ER & ->); [compute_done|].
  rewrite (split_unit_free 10 (js "*/")) by compute_done.
  exists (indent ++ (multiLineCommentStart ++ js " ") ++ r1),
         (map (fun x => indent ++ x) rs).
  split; [by rewrite map_app|]. split.
  - apply includes_true. exists indent, (js " " ++ r1).
    by rewrite <- !app_assoc.
  - apply Forall_fmap, Forall_forall. intros r Hr%list_elem_of_In.
    apply not_true_iff_false. intros Hinc.
    assert (H47 : 47 ∈ indent ++ r)
      by (apply (includes_units _ _ 47 Hinc); compute_done).
    apply elem_of_app in H47 as [?|H47]; [done|]. apply HR.
    destruct (split_elem_substring R [10] r) as (a & b & ->); [done| |].
    + rewrite ER. by right.
    + rewrite !elem_of_app. auto.
Qed.

Lemma insert_middle (pre : list (list Z)) x v rest :
  <[length pre := v]> (pre ++ x :: rest) = pre ++ v :: rest.
Proof. by rewrite <- (Nat.add_0_r (length pre)), insert_app_r. Qed.

(** The loop that marks the lines of an old block stops at the line
    that ends the comment. *)
Lemma clearLoop_block marker (mids : list (list Z)) pre last post n :
  Forall (fun x => includes x (js "*/") = false) mids ->
  truthy last && includes last (js "*/") = true ->
  (length mids < n)%nat ->
  clearLoop marker n (length pre) (pre ++ mids ++ last :: post)
  = pre ++ replicate (S (length mids)) marker ++ post.
Proof.
  intros Hmids Hlast. revert pre n.
  induction Hmids as [|mid mids Hmid _ IH]; intros pre n Hn;
    (destruct n as [|n]; [simpl in Hn; lia|]); cbn [clearLoop app].
  - rewrite list_lookup_middle by done.
    by rewrite insert_middle, Hlast.
  - rewrite list_lookup_middle by done.
    rewrite insert_middle, Hmid, andb_false_r.
    replace (pre ++ marker :: mids ++ last :: post)
      with ((pre ++ [marker]) ++ mids ++ last :: post)
      by (by rewrite <- app_assoc).
    replace (S (length pre)) with (length (pre ++ [marker]))
      by (rewrite length_app; simpl; lia).
    rewrite IH by (simpl in Hn; lia).
    by rewrite <- app_assoc.
Qed.

(** The search for the end of a call reads the lines up to the one it
    finds only. *)
Lemma scanLines_prefix rest rest' i col d j :
  scanLines rest i col d = Some j ->
  take (S (j - i)) rest' = take (S (j - i)) rest ->
  scanLines rest' i col d = Some j.
Proof.
  revert rest' i col d. induction rest as [|cur rest IH];
    intros rest' i col d; [done|].
  cbn [scanLines]. destruct rest' as [|cur' rest']; [done|].
  cbn [take]. intros Hscan [= -> Htake]. cbn [scanLines].
  destruct (scanLine (drop col cur) d) as [|d']; [done|].
  pose proof (scanLines_Some _ _ _ _ _ Hscan) as [Hle _].
  apply IH; [done|].
  by replace (S (j - S i)) with (j - i)%nat by lia.
Qed.

Lemma findCallEndLineIndex_prefix startLine startColumn
    (lines lines' : list (list Z)) j :
  findCallEndLineIndex startLine startColumn lines = Some j ->
  take (S j) lines' = take (S j) lines ->
  findCallEndLineIndex startLine startColumn lines' = Some j.
Proof.
  intros Hfind Htake. revert Hfind. unfold findCallEndLineIndex, lineAt.
  destruct (startLine - 1 <? 0); [done|].
  set (index := Z.to_nat (startLine - 1)).
  destruct (lines !! index) as [l0|] eqn:El0; [|done].
  destruct (negb (truthy l0)) eqn:Et; [done|].
  destruct (indexOf l0 [openParen] _) as [q|] eqn:Eq; [|done].
  intros Hscan.
  assert (Hidx : (index <= j)%nat).
  { destruct (S q =? length l0)%nat;
      apply scanLines_Some in Hscan as [? _]; lia. }
  assert (El0' : lines' !! index = Some l0).
  { rewrite <- (lookup_take_lt lines' (S j)), Htake by lia.
    by rewrite lookup_take_lt by lia. }
  rewrite El0', Et, Eq.
  destruct (S q =? length l0)%nat.
  - apply (scanLines_prefix _ _ _ _ _ _ Hscan).
    apply scanLines_Some in Hscan as [Hle _].
    rewrite !take_drop_commute.
    replace (S index + S (j - S index))%nat with (S j) by lia.
    by rewrite Htake.
  - apply (scanLines_prefix _ _ _ _ _ _ Hscan).
    rewrite !take_drop_commute.
    replace (index + S (j - index))%nat with (S j) by lia.
    by rewrite Htake.
Qed.

Lemma filter_marker_app (marker : list Z) (xs ys : list (list Z)) :
  filter (fun l => l <> marker) (xs ++ ys) =
  filter (fun l => l <> marker) xs ++ filter (fun l => l <> marker) ys.
Proof.
  induction xs as [|x xs IH]; [done|]. cbn [app].
  destruct (decide (x <> marker)).
  - rewrite !filter_cons_True by done. cbn [app]. by rewrite IH.
  - by rewrite !filter_cons_False by done.
Qed.

Lemma filter_marker_replicate (marker : list Z) n :
  filter (fun l => l <> marker) (replicate n marker) = [].
Proof.
  induction n as [|n IH]; [done|]. cbn [replicate].
  by rewrite filter_cons_False by (by intros ?).
Qed.

(** What a group with a result of several lines does to the lines. *)
Lemma applyGroup_block_next marker (lines : list (list Z)) k E j l :
  (exists e, e ∈ E /\ 10 ∈ result e) ->
  findCallEndLineIndex k (leftMostColumn E) lines = Some j ->
  lines !! j = Some l ->
  includes l trailingCommentStart = false ->
  applyGroup marker lines (k, E) =
    let lines1 :=
      <[j := l ++ nl ++
             prefixLines (blockComment (map result E))
               (backtrackIndent l (numPred (leftMostColumn E)))]> lines in
    match lines !! S j with
    | Some next =>
        if truthy next && includes next multiLineCommentStart
        then clearLoop marker (length lines - (j + 2)) (j + 2)
               (<[S j := marker]> lines1)
        else lines1
    | None => lines1
    end.
Proof.
  intros (e & He & Hnl) Hfind Hl Hc. unfold applyGroup.
  rewrite Hfind, Hl.
  destruct (findCallEndLineIndex_line _ _ _ _ Hfind) as (l' & Hl' & Ht).
  rewrite Hl in Hl'. injection Hl' as <-. rewrite Ht. cbn [negb].
  assert (Hex : existsb (fun e => includes (result e) nl) E = true).
  { apply existsb_exists. exists e. split; [by apply list_elem_of_In|].
    by apply includes_unit. }
  rewrite Hex.
  rewrite firstPiece_no_sep by (done || apply trailingCommentStart_not_nil).
  rewrite list_lookup_insert_ne by lia. cbv zeta.
  destruct (lines !! S j) as [next|]; [|done].
  destruct (truthy next && includes next multiLineCommentStart); [|done].
  by rewrite !length_insert.
Qed.

(** The result of [apply] for the entries of one call, one of which has
    a result of several lines, on a text without markers. *)
Lemma apply_block_lines marker T E k j l :
  includes T trailingCommentStart = false ->
  includes T multiLineCommentStart = false ->
  E <> [] ->
  (forall e, e ∈ E -> line e = k) ->
  (exists e, e ∈ E /\ 10 ∈ result e) ->
  marker ∉ split T nl -> 10 ∉ marker ->
  findCallEndLineIndex k (leftMostColumn E) (split T nl) = Some j ->
  split T nl !! j = Some l ->
  applyLogEntriesToFileContent marker T E =
    join nl (<[j := l ++ nl ++
                    prefixLines (blockComment (map result E))
                      (backtrackIndent l (numPred (leftMostColumn E)))]>
               (split T nl)).
Proof.
  intros HT Hblock Hne Hall Hmulti Hfresh Hm Hfind Hl.
  unfold applyLogEntriesToFileContent.
  rewrite (groupByLine_single k E Hne Hall). cbn [fold_left].
  rewrite (applyGroup_block marker (split T nl) k E j l);
    [|by apply split_lines_clean..|done|done|done].
  rewrite filter_fresh; [done|].
  intros [Hin|Hin]%elem_of_list_insert; [|done].
  apply Hm. rewrite Hin, !elem_of_app. right. left. by left.
Qed.

(** Applying the entries of a call again, on the text [apply] made of a
    text without markers, replaces the block. *)
Lemma apply_replaces_block marker1 marker2 T E E' k j l :
  includes T trailingCommentStart = false ->
  includes T multiLineCommentStart = false ->
  E <> [] -> (forall e, e ∈ E -> line e = k /\ (47 ∉ result e)) ->
  (exists e, e ∈ E /\ 10 ∈ result e) ->
  E' <> [] -> (forall e, e ∈ E' -> line e = k) ->
  (exists e, e ∈ E' /\ 10 ∈ result e) ->
  leftMostColumn E' = leftMostColumn E ->
  marker1 ∉ split T nl -> 10 ∉ marker1 ->
  marker2 ∉ split (applyLogEntriesToFileContent marker1 T E) nl ->
  10 ∉ marker2 ->
  findCallEndLineIndex k (leftMostColumn E) (split T nl) = Some j ->
  split T nl !! j = Some l ->
  applyLogEntriesToFileContent marker2
    (applyLogEntriesToFileContent marker1 T E) E'
  = join nl (<[j := l ++ nl ++
                    prefixLines (blockComment (map result E'))
                      (backtrackIndent l (numPred (leftMostColumn E')))]>
               (split T nl)) /\
  marker2 ∉ split T nl.
Proof.
  intros HT Hblock Hne Hall Hmulti Hne' Hall' Hmulti' Hcol Hf1 Hm1 Hf2 Hm2
    Hfind Hl.
  rewrite (apply_block_lines marker1 T E k j l) in * by
    (done || (intros e He; by apply Hall)).
  set (lines := split T nl) in *.
  set (indent := backtrackIndent l (numPred (leftMostColumn E))) in *.
  pose proof (lookup_lt_Some _ _ _ Hl) as Hj.
  pose proof (split_lines_clean T _ HT) as Hclean. fold lines in Hclean.
  assert (Hlc : includes l trailingCommentStart = false).
  { rewrite Forall_forall in Hclean.
    eapply Hclean, list_elem_of_In, list_elem_of_lookup_2, Hl. }
  destruct (blockComment_lines (map result E) indent)
    as (first & mids & EBL & Hfirst & Hmids).
  { apply Forall_fmap, Forall_forall. intros e He%list_elem_of_In.
    by apply Hall. }
  { apply backtrackIndent_no_slash. }
  set (pre0 := take j lines). set (post0 := drop (S j) lines).
  assert (Hpre0 : length pre0 = j) by (unfold pre0; rewrite length_take; lia).
  assert (Hlines : lines = pre0 ++ l :: post0)
    by (symmetry; by apply take_drop_middle).
  set (lastl := indent ++ js "*/") in *.
  assert (Hnl : Forall (fun x => 10 ∉ x) (first :: mids ++ [lastl])).
  { rewrite <- EBL. apply Forall_fmap, Forall_forall.
    intros x Hx%list_elem_of_In. cbn.
    intros [Hin|Hin]%elem_of_app.
    - by apply backtrackIndent_units in Hin as [?|?].
    - exact (split_unit_pieces 10 _ x Hx Hin). }
  assert (Hlnl : Forall (fun x => 10 ∉ x) lines) by apply split_lines_no_nl.
  (* the lines of the text of the first run *)
  assert (Hsplit :
    split (join nl (<[j := l ++ nl ++
                       prefixLines (blockComment (map result E)) indent]> lines))
      nl = pre0 ++ l :: first :: mids ++ lastl :: post0).
  { unfold prefixLines. rewrite EBL.
    rewrite insert_take_drop by done. fold pre0 post0.
    rewrite <- (join_cons nl l (first :: mids ++ [lastl])) by done.
    rewrite join_flatten by done.
    rewrite (split_join_unit 10).
    - cbn [app]. by rewrite <- !app_assoc.
    - intros Hnil%(f_equal length). rewrite !length_app in Hnil.
      simpl in Hnil. lia.
    - rewrite Hlines in Hlnl. apply Forall_app in Hlnl as [Hp Hq].
      inversion Hq as [|? ? Hq1 Hq2]. apply Forall_app. split; [done|].
      apply Forall_app. split; [by constructor|done]. }
  rewrite Hsplit in Hf2.
  assert (Hfresh2 : marker2 ∉ lines).
  { rewrite Hlines. intros Hin. apply Hf2.
    apply elem_of_app in Hin as [Hin|Hin]; [apply elem_of_app; by left|].
    apply elem_of_cons in Hin as [->|Hin]; apply elem_of_app; right;
      [by left|].
    right. right. apply elem_of_app. right. by right. }
  split; [|done].
  unfold applyLogEntriesToFileContent.
  rewrite (groupByLine_single k E' Hne' Hall'). cbn [fold_left].
  rewrite Hsplit.
  set (lines2 := pre0 ++ l :: first :: mids ++ lastl :: post0) in *.
  assert (Hfind2 :
    findCallEndLineIndex k (leftMostColumn E') lines2 = Some j).
  { rewrite Hcol. apply (findCallEndLineIndex_prefix _ _ lines); [done|].
    unfold lines2. rewrite Hlines.
    rewrite !take_app, Hpre0, !take_ge by lia.
    replace (S j - j)%nat with 1%nat by lia. done. }
  assert (Hl2 : lines2 !! j = Some l).
  { unfold lines2. rewrite <- Hpre0. by apply list_lookup_middle. }
  assert (Hn2 : lines2 !! S j = Some first).
  { unfold lines2.
    replace (pre0 ++ l :: first :: mids ++ lastl :: post0)
      with ((pre0 ++ [l]) ++ first :: mids ++ lastl :: post0)
      by (by rewrite <- app_assoc).
    apply list_lookup_middle. rewrite length_app. simpl. lia. }
  rewrite (applyGroup_block_next marker2 lines2 k E' j l) by done.
  cbv zeta. rewrite Hn2, Hfirst.
  assert (Htf : truthy first = true).
  { apply includes_true in Hfirst as (a & b & ->).
    by destruct a. }
  rewrite Htf. cbn [andb].
  set (v := l ++ nl ++ prefixLines (blockComment (map result E'))
                         (backtrackIndent l (numPred (leftMostColumn E')))).
  assert (Hlines3 :
    <[S j := marker2]> (<[j := v]> lines2)
    = ((pre0 ++ [v]) ++ [marker2]) ++ mids ++ lastl :: post0).
  { unfold lines2. rewrite <- Hpre0 at 2. rewrite insert_middle.
    replace (pre0 ++ v :: first :: mids ++ lastl :: post0)
      with ((pre0 ++ [v]) ++ first :: mids ++ lastl :: post0)
      by (by rewrite <- app_assoc).
    replace (S j) with (length (pre0 ++ [v]))
      by (rewrite length_app; simpl; lia).
    rewrite insert_middle. by rewrite <- !app_assoc. }
  rewrite Hlines3.
  replace (j + 2)%nat with (length ((pre0 ++ [v]) ++ [marker2]))
    by (rewrite !length_app; simpl; lia).
  rewrite clearLoop_block;
    [| done
     | unfold lastl; apply andb_true_iff; split;
       [by destruct indent|apply includes_true; by exists indent, []]
     | unfold lines2; rewrite !length_app; cbn [length];
       rewrite !length_app; cbn [length]; lia ].
  rewrite !filter_marker_app, filter_marker_replicate.
  assert (Hpre : marker2 ∉ pre0).
  { intros Hin. apply Hf2. unfold lines2. apply elem_of_app. by left. }
  assert (Hpost : marker2 ∉ post0).
  { intros Hin. apply Hf2. unfold lines2.
    rewrite !elem_of_app, !elem_of_cons, !elem_of_app, !elem_of_cons. auto 10. }
  rewrite !filter_fresh by done.
  rewrite filter_cons_True.
  - rewrite insert_take_drop by done. fold pre0 post0.
    rewrite (filter_fresh marker2 post0 Hpost).
    rewrite (filter_cons_False _ marker2 []) by (by intros ?).
    change (filter _ []) with (@nil (list Z)).
    by rewrite app_nil_r, <- app_assoc.
  - intros <-. apply Hm2. unfold v. rewrite !elem_of_app. right. left. by left.
Qed.

End ReplaceFacts.

(** * The watcher and blocks *)

Section ReplaceProperties.

Import Rewrite.

(** The watcher replaces the block it wrote.  After it annotated a call
    with a block (the module content, stripped of trailing comments,
    holding no block; the entries of one call, one with a result of
    several lines, none with a slash in its result), the next run, with
    entries for the same call and column and again a result of several
    lines, gives what it would have given on the module content before
    the first run: the old block is gone.  With the same entries the
    content does not change any more. *)
Theorem newModuleContent_replaces_block marker1 marker2 moduleContent
    E E' k j l :
  let T := stripTrailingLogComments moduleContent in
  includes T multiLineCommentStart = false ->
  E <> [] -> (forall e, e ∈ E -> line e = k /\ (47 ∉ result e)) ->
  (exists e, e ∈ E /\ 10 ∈ result e) ->
  E' <> [] -> (forall e, e ∈ E' -> line e = k) ->
  (exists e, e ∈ E' /\ 10 ∈ result e) ->
  leftMostColumn E' = leftMostColumn E ->
  marker1 ∉ split T nl -> 10 ∉ marker1 ->
  marker2 ∉ split (Watch.newModuleContent marker1 moduleContent E) nl ->
  10 ∉ marker2 ->
  findCallEndLineIndex k (leftMostColumn E) (split T nl) = Some j ->
  split T nl !! j = Some l ->
  Watch.newModuleContent marker2
    (Watch.newModuleContent marker1 moduleContent E) E'
  = Watch.newModuleContent marker2 moduleContent E'.
Proof.
  intros T Hblock Hne Hall Hmulti Hne' Hall' Hmulti' Hcol Hf1 Hm1 Hf2 Hm2
    Hfind Hl.
  unfold Watch.newModuleContent in *. fold T in Hf2 |- *.
  pose proof (stripTrailing_clean moduleContent) as HT. fold T in HT.
  destruct (apply_block_text marker1 T E k j l) as (_ & _ & _ & Hc);
    try done.
  rewrite (stripTrailing_id _ Hc).
  destruct (apply_replaces_block marker1 marker2 T E E' k j l)
    as [-> Hfresh2]; try done.
  symmetry. apply (apply_block_lines marker2 T E' k j l); try done.
  by rewrite Hcol.
Qed.

Lemma newModuleContent_replaces_block_witness :
  let moduleContent := js "f(1," ++ nl ++ js "  2) //=> 0" ++ nl ++ js "g(2)" in
  let E := [entryAt 1 (Some 1) (js "a" ++ nl ++ js "b")] in
  let E' := [entryAt 1 (Some 1) (js "c" ++ nl ++ js "d" ++ nl ++ js "e")] in
  Watch.newModuleContent exampleMarker moduleContent E
    = js "f(1," ++ nl ++ js "  2)" ++ nl ++ js "/*=> a" ++ nl ++ js "     b"
      ++ nl ++ js "*/" ++ nl ++ js "g(2)" /\
  Watch.newModuleContent exampleMarker
    (Watch.newModuleContent exampleMarker moduleContent E) E'
    = js "f(1," ++ nl ++ js "  2)" ++ nl ++ js "/*=> c" ++ nl ++ js "     d"
      ++ nl ++ js "     e" ++ nl ++ js "*/" ++ nl ++ js "g(2)" /\
  Watch.newModuleContent exampleMarker
    (Watch.newModuleContent exampleMarker moduleContent E) E'
    = Watch.newModuleContent exampleMarker moduleContent E'.
Proof.
  intros moduleContent E E'. split; [reflexivity|]. split; [reflexivity|].
  refine (newModuleContent_replaces_block exampleMarker exampleMarker
            moduleContent E E' 1 1 (js "  2)") eq_refl _ _ _ _ _ _ eq_refl
            _ _ _ _ eq_refl eq_refl).
  - done.
  - intros e He. unfold E in He.
    repeat (apply elem_of_cons in He as [->|He]);
      [..|by apply elem_of_nil in He]; split; compute_done.
  - eexists. split; [by left|]. compute_done.
  - done.
  - intros e He. unfold E' in He.
    repeat (apply elem_of_cons in He as [->|He]);
      [..|by apply elem_of_nil in He]; reflexivity.
  - eexists. split; [by left|]. compute_done.
  - compute_done.
  - compute_done.
  - compute_done.
  - compute_done.
Defined.

End ReplaceProperties.

(** * Facts about the groups of entries *)

Section GroupFacts.

Import Rewrite.

Implicit Types obj : list (Z * list LogEntry).

Lemma groupOf_absent k obj :
  Forall (fun k' => k < k') (map fst obj) -> groupOf k obj = [].
Proof.
  induction obj as [|[k' es] obj IH]; [done|].
  intros [Hk Hrest]%Forall_cons_1. cbn [groupOf].
  destruct (Z.eqb_spec k k'); [simpl in Hk; lia|]. by apply IH.
Qed.

Lemma groupOf_elem k es obj :
  ascending (map fst obj) -> (k, es) ∈ obj -> groupOf k obj = es.
Proof.
  induction obj as [|[k0 es0] obj IH]; [by intros _ ?%elem_of_nil|].
  cbn [map fst ascending groupOf]. intros [Hlt Hs] [Heq|Hin]%elem_of_cons.
  - injection Heq as -> ->. by rewrite Z.eqb_refl.
  - assert (Hk : k0 < k).
    { rewrite Forall_forall in Hlt. apply Hlt, list_elem_of_In.
      apply list_elem_of_fmap. by exists (k, es). }
    destruct (Z.eqb_spec k k0); [lia|]. by apply IH.
Qed.

Lemma groupOf_in k obj : groupOf k obj <> [] -> (k, groupOf k obj) ∈ obj.
Proof.
  induction obj as [|[k0 es0] obj IH]; [done|]. cbn [groupOf].
  destruct (Z.eqb_spec k k0) as [->|Hne]; [by left|].
  intros H. right. by apply IH.
Qed.

Lemma pushEntry_sorted k e obj :
  isArrayIndex k = true -> sortedGroups obj ->
  sortedGroups (pushEntry k e obj) /\
  (forall k', groupOf k' (pushEntry k e obj) =
              if k' =? k then groupOf k obj ++ [e] else groupOf k' obj) /\
  (forall bound, bound < k -> Forall (fun k' => bound < k') (map fst obj) ->
                 Forall (fun k' => bound < k') (map fst (pushEntry k e obj))).
Proof.
  intros Hk. induction obj as [|[k0 es0] obj IH]; intros [Hsorted Hall].
  - cbn [pushEntry]. split; [|split].
    + split; [by repeat constructor|]. by repeat constructor.
    + intros k'. cbn [groupOf]. by destruct (k' =? k).
    + intros bound Hb _. by repeat constructor.
  - cbn [map ascending fst] in Hsorted. destruct Hsorted as [Hlt Hs].
    apply Forall_cons_1 in Hall as [[Hk0 Hes0] Hall].
    cbn [fst snd] in *. cbn [pushEntry].
    destruct (Z.eqb_spec k k0) as [->|Hne].
    + split; [|split].
      * split; [done|]. constructor; [|done].
        split; [done|by destruct es0].
      * intros k'. cbn [groupOf]. rewrite Z.eqb_refl.
        by destruct (k' =? k0).
      * intros bound Hb Hbound. done.
    + rewrite Hk, Hk0. cbn [andb negb orb].
      destruct (Z.ltb_spec k k0) as [Hlt0|Hge].
      * split; [|split].
        -- split.
           ++ cbn [map fst ascending]. split; [|done].
              constructor; [done|].
              eapply Forall_impl; [|exact Hlt]. intros x. simpl. lia.
           ++ by repeat constructor.
        -- intros k'. cbn [groupOf].
           destruct (Z.eqb_spec k' k) as [->|Hk']; [|done].
           destruct (Z.eqb_spec k k0); [done|].
           rewrite groupOf_absent; [done|].
           eapply Forall_impl; [|exact Hlt]. intros x. simpl. lia.
        -- intros bound Hb Hbound. cbn [map fst]. by constructor.
      * destruct (IH (conj Hs Hall)) as ((Hs' & Hall') & Hgroup & Hbound).
        split; [|split].
        -- split.
           ++ cbn [map fst ascending]. split; [|done].
              apply Hbound; [lia|done].
           ++ by constructor.
        -- intros k'. cbn [groupOf]. rewrite Hgroup.
           destruct (Z.eqb_spec k' k0) as [->|Hk'0].
           ++ destruct (Z.eqb_spec k0 k); [lia|done].
           ++ destruct (Z.eqb_spec k' k) as [->|]; [|done].
              by destruct (Z.eqb_spec k k0).
        -- intros bound Hb Hb'. cbn [map fst] in *.
           apply Forall_cons_1 in Hb' as [Hb0 Hb'].
           constructor; [done|]. by apply Hbound.
Qed.

Lemma groupByLine_snoc E e :
  groupByLine (E ++ [e]) = pushEntry (line e) e (groupByLine E).
Proof. unfold groupByLine. by rewrite fold_left_app. Qed.

Lemma filter_line_snoc k (E : list LogEntry) e :
  filter (fun e => line e = k) (E ++ [e]) =
  filter (fun e => line e = k) E ++ (if k =? line e then [e] else []).
Proof.
  induction E as [|x E IH].
  - cbn [app]. destruct (Z.eqb_spec k (line e)) as [->|Hne].
    + by rewrite filter_cons_True.
    + by rewrite filter_cons_False by (by intros ?).
  - cbn [app]. destruct (decide (line x = k)).
    + rewrite !filter_cons_True by done. cbn [app]. by rewrite IH.
    + by rewrite !filter_cons_False by done.
Qed.

Lemma groupByLine_sortedGroups E :
  Forall (fun e => isArrayIndex (line e) = true) E ->
  sortedGroups (groupByLine E) /\
  forall k, groupOf k (groupByLine E) = filter (fun e => line e = k) E.
Proof.
  induction E as [|e E IH] using rev_ind; intros Hall.
  { split; [split; by constructor|done]. }
  apply Forall_app in Hall as [Hall He].
  apply Forall_cons_1 in He as [He _].
  destruct (IH Hall) as [Hs Hg]. rewrite groupByLine_snoc.
  destruct (pushEntry_sorted (line e) e _ He Hs) as (Hs' & Hg' & _).
  split; [done|]. intros k. rewrite Hg', !Hg, filter_line_snoc.
  destruct (Z.eqb_spec k (line e)) as [->|Hne]; [done|].
  by rewrite app_nil_r.
Qed.

End GroupFacts.

(** * The order of the groups *)

Section GroupProperties.

Import Rewrite.

(** The groups that [apply] goes through ([Object.entries] of
    [lineEntries]): for line numbers that are array indices, the groups
    come in ascending order of the line number, whatever the order of the
    entries; the group of a line holds the entries of that line in the
    order they were given; every entry is in the group of its line. *)
Theorem groupByLine_ascending E :
  Forall (fun e => isArrayIndex (line e) = true) E ->
  ascending (map fst (groupByLine E)) /\
  Forall (fun group =>
            group.2 = filter (fun e => line e = group.1) E /\ group.2 <> [])
    (groupByLine E) /\
  (forall e, e ∈ E ->
             (line e, filter (fun e' => line e' = line e) E) ∈ groupByLine E).
Proof.
  intros Hall. destruct (groupByLine_sortedGroups E Hall) as [[Hs Hne] Hg].
  split; [done|]. split.
  - apply Forall_forall. intros [k es] Hin%list_elem_of_In. cbn [fst snd].
    rewrite <- Hg, (groupOf_elem k es _ Hs Hin). split; [done|].
    rewrite Forall_forall in Hne. apply list_elem_of_In in Hin.
    by destruct (Hne _ Hin).
  - intros e He. rewrite <- Hg. apply groupOf_in. rewrite Hg.
    intros Hnil. assert (Hin : e ∈ filter (fun e' => line e' = line e) E)
      by by apply list_elem_of_filter.
    rewrite Hnil in Hin. by apply elem_of_nil in Hin.
Qed.

Lemma groupByLine_ascending_witness :
  let E := [entryAt 5 (Some 1) (js "a"); entryAt 2 (Some 1) (js "b");
            entryAt 5 (Some 1) (js "c")] in
  groupByLine E
    = [(2, [entryAt 2 (Some 1) (js "b")]);
       (5, [entryAt 5 (Some 1) (js "a"); entryAt 5 (Some 1) (js "c")])] /\
  ascending (map fst (groupByLine E)) /\
  Forall (fun group =>
            group.2 = filter (fun e => line e = group.1) E /\ group.2 <> [])
    (groupByLine E) /\
  (forall e, e ∈ E ->
             (line e, filter (fun e' => line e' = line e) E) ∈ groupByLine E).
Proof.
  intros E. split; [reflexivity|].
  apply groupByLine_ascending. repeat constructor.
Defined.

(** Trailing comments never remove a block: when no result holds a line
    break, a module content with a block-open marker still has one after
    the rewrite of the watcher (the block of an earlier run stays when
    the results fit on one line again). *)
Theorem single_line_results_keep_blocks marker moduleContent E :
  includes (stripTrailingLogComments moduleContent) multiLineCommentStart
    = true ->
  Forall (fun e => 10 ∉ result e) E ->
  marker ∉ split (stripTrailingLogComments moduleContent) nl ->
  includes marker trailingCommentStart = false ->
  includes (Watch.newModuleContent marker moduleContent E)
    multiLineCommentStart = true.
Proof.
  intros Hblock Hone Hfresh Hm. unfold Watch.newModuleContent.
  set (T := stripTrailingLogComments moduleContent) in *.
  destruct (apply_commented marker T E (stripTrailing_clean moduleContent)
              Hone Hfresh Hm) as (-> & _ & Hall).
  rewrite <- (join_split T nl nl_not_nil) in Hblock.
  assert (Hpat : multiLineCommentStart <> []) by done.
  assert (Hnl : 10 ∉ multiLineCommentStart) by compute_done.
  destruct (includes_join_inv _ _ Hpat Hnl Hblock) as (l0 & Hl0 & Hinc).
  apply list_elem_of_lookup in Hl0 as [i Hi].
  destruct (Forall2_lookup_l _ _ _ _ _ Hall Hi) as (l & Hl & Hc).
  apply list_elem_of_lookup_2 in Hl.
  destruct (join_elem_substring nl _ l Hl) as (a & b & ->).
  apply includes_true in Hinc as (x & y & ->).
  apply includes_true.
  destruct Hc as [->|(r & _ & ->)].
  - exists (a ++ x), (y ++ b). by rewrite <- !app_assoc.
  - exists (a ++ x), (y ++ (trailingCommentStart ++ r) ++ b).
    by rewrite <- !app_assoc.
Qed.

Lemma single_line_results_keep_blocks_witness :
  let moduleContent :=
    js "f(1)" ++ nl ++ js "/*=> a" ++ nl ++ js "     b" ++ nl ++ js "*/" ++ nl
    ++ js "g(2)" in
  let E := [entryAt 1 (Some 1) (js "c")] in
  Watch.newModuleContent exampleMarker moduleContent E
    = js "f(1) //=> c" ++ nl ++ js "/*=> a" ++ nl ++ js "     b" ++ nl
      ++ js "*/" ++ nl ++ js "g(2)" /\
  includes (Watch.newModuleContent exampleMarker moduleContent E)
    multiLineCommentStart = true.
Proof.
  intros moduleContent E. split; [reflexivity|].
  apply single_line_results_keep_blocks;
    [reflexivity| |compute_done|reflexivity].
  repeat constructor; compute_done.
Defined.

End GroupProperties.

(** * Stack lines of named callers *)

Section NamedFrames.

Import Log.

(** A stack line [at name (uri)...] of a named caller gives the text
    between the parentheses, without the [file://] it may start with:
    the first opening parenthesis of the line and the first closing one
    behind it are the ones taken. *)
Theorem findLocationInStackTraceLine_named_caller name uri rest :
  startsWith name fileUriPrefix = false ->
  40 ∉ name -> 41 ∉ uri ->
  findLocationInStackTraceLine
    (js "at " ++ name ++ js " (" ++ uri ++ js ")" ++ rest)
  = Some (if startsWith uri fileUriPrefix
          then sliceFrom uri (length fileUriPrefix) else uri).
Proof.
  intros Hname Hopen Hclose. unfold findLocationInStackTraceLine.
  set (line := js "at " ++ name ++ js " (" ++ uri ++ js ")" ++ rest).
  assert (Hanon : startsWith line anonymousCallerFilePrefix = false).
  { apply not_true_iff_false. intros Hs.
    assert (Hs' : startsWith
                    (drop 0 (name ++ js " (" ++ uri ++ js ")" ++ rest))
                    fileUriPrefix = true).
    { unfold line in Hs. rewrite drop_0.
      apply startsWith_spec in Hs as [x Hx]. apply startsWith_spec.
      exists x. unfold anonymousCallerFilePrefix in Hx.
      rewrite <- app_assoc in Hx. by apply app_inv_head in Hx. }
    rewrite startsWith_lookup in Hs'.
    destruct (decide (length name < 7)%nat) as [Hshort|Hlong].
    - specialize (Hs' (length name) Hshort).
      rewrite lookup_app_r, Nat.sub_diag in Hs' by lia. cbn in Hs'.
      destruct (length name) as [|[|[|[|[|[|[|n]]]]]]]; first [done | lia].
    - apply not_true_iff_false in Hname. apply Hname.
      rewrite <- (drop_0 name). apply startsWith_lookup.
      intros i Hi. rewrite <- (Hs' i Hi).
      change (length fileUriPrefix) with 7%nat in Hi.
      by rewrite lookup_app_l by lia. }
  rewrite Hanon.
  assert (Hat : startsWith line (js "at ") = true) by apply startsWith_app.
  rewrite Hat.
  set (a := js "at " ++ name ++ js " ").
  assert (Hline : line = a ++ js "(" ++ uri ++ js ")" ++ rest)
    by (unfold line, a; by rewrite <- !app_assoc).
  assert (Hparen : indexOf line (js "(") 0 = Some (length a)).
  { rewrite Hline.
    apply (indexOf_app_first a (js "(") _ 0 40 []);
      [done|apply not_elem_of_nil|lia|].
    apply includes_unit_false. unfold a. rewrite !elem_of_app.
    intros [H|[H|H]]; [revert H; compute_done|done|revert H; compute_done]. }
  rewrite Hparen.
  assert (Hclosing : indexOf line (js ")") (S (length a))
                     = Some (S (length a) + length uri)%nat).
  { replace line with ((a ++ js "(") ++ uri ++ js ")" ++ rest)
      by (rewrite Hline; by rewrite <- !app_assoc).
    replace (S (length a)) with (length (a ++ js "(") + 0)%nat
      by (rewrite length_app; simpl; lia).
    rewrite indexOf_shift.
    rewrite (indexOf_app_first uri (js ")") _ 0 41 []);
      [|done|apply not_elem_of_nil|lia|by apply includes_unit_false].
    cbn [fmap option_fmap option_map]. f_equal. lia. }
  rewrite Hclosing.
  assert (Hslice : slice line (S (length a)) (S (length a) + length uri) = uri).
  { unfold slice.
    replace line with ((a ++ js "(") ++ uri ++ js ")" ++ rest)
      by (rewrite Hline; by rewrite <- !app_assoc).
    replace (S (length a)) with (length (a ++ js "("))
      by (rewrite length_app; simpl; lia).
    rewrite drop_app_length.
    replace (length (a ++ js "(") + length uri - length (a ++ js "("))%nat
      with (length uri) by lia.
    by rewrite take_app_length. }
  rewrite Hslice. by destruct (startsWith uri fileUriPrefix).
Qed.

Lemma findLocationInStackTraceLine_named_caller_witness :
  findLocationInStackTraceLine
    (js "at " ++ js "Object.run" ++ js " (" ++ js "file:///proj/a.js:3:5"
     ++ js ")" ++ js " extra)")
  = Some (js "/proj/a.js:3:5").
Proof.
  exact (findLocationInStackTraceLine_named_caller (js "Object.run")
           (js "file:///proj/a.js:3:5") (js " extra)") eq_refl
           ltac:(compute_done) ltac:(compute_done)).
Defined.

End NamedFrames.
